(** * CloudCannon configuration-loader: the recursive merge engine

    A shallow embedding of [src/loader.ts] and the properties of its
    specification.

    The loader mutates the configuration tree in place
    ([config[targetKey] = ...], [delete config[globKey]]), so the embedding
    keeps a store of JavaScript objects: a value is a primitive or a
    reference into the store, and every method of [ConfigurationLoader] is
    a computation over the loader's fields and that store.

    Modelling decisions, stated once:
    - Strings are Rocq strings (sequences of 8-bit units); the collation
      [String.prototype.localeCompare] belongs to the runtime and is a
      parameter of the development.
    - Numbers are carried opaquely as integers: the loader only ever
      observes whether a number is zero (truthiness).
    - Property names are ordinary data properties: what an object inherits
      from [Object.prototype] is not modelled, so a key named [__proto__],
      and a file path that is the name of a property of
      [Object.prototype] ([constructor], [toString], ...), for which
      [this.pathsToGlobKey[filePath]] answers the inherited value, are out
      of scope; objects keep the property order of ECMAScript.
    - The two collaborators are functions of the history of collaborator
      calls made so far, so that collaborators with internal state are
      covered.  What [loadConfigFile] resolves to is given by whether it
      passes [data !== undefined && data !== null] and by its JSON
      serialisation, which is all the loader reads of it
      ([JSON.parse(JSON.stringify(data))]).
    - [await] points are sequential; the children of a [Promise.all] are
      run one after the other in array order, each to completion.
    - Recursion through freshly loaded fragments is not structural; the
      walker takes a fuel argument that bounds the nesting depth of
      [processInputsKey]. *)

From Stdlib Require Import ZArith NArith Ascii String List Lia.
From Stdlib Require Import Sorted.
From stdpp Require Import base tactics option list strings pretty.

Set Warnings "-register-all".
Open Scope string_scope.
Open Scope nat_scope.
Open Scope list_scope.

(** ** Property lists

    A JavaScript object is a list of own properties in property order:
    array indices first, in ascending numeric order, then the other string
    keys in insertion order. *)

Module Props.

Definition props (A : Type) : Type := list (string * A).

Definition digit (c : ascii) : option N :=
  let n := N_of_ascii c in
  if ((48 <=? n) && (n <=? 57))%N then Some (n - 48)%N else None.

Fixpoint digits (s : string) (acc : N) : option N :=
  match s with
  | EmptyString => Some acc
  | String c r =>
      match digit c with
      | Some d => digits r (acc * 10 + d)%N
      | None => None
      end
  end.

(** Canonical numeric strings below 2^32 - 1 are array indices. *)
Definition array_index (k : string) : option N :=
  match k with
  | EmptyString => None
  | String "0" EmptyString => Some 0%N
  | String "0" _ => None
  | _ =>
      match digits k 0 with
      | Some n => if (n <? 4294967295)%N then Some n else None
      | None => None
      end
  end.

Section WithValue.
Context {A : Type}.

Fixpoint get (k : string) (ps : props A) : option A :=
  match ps with
  | [] => None
  | (k', v) :: r => if String.eqb k k' then Some v else get k r
  end.

Definition has (k : string) (ps : props A) : bool :=
  match get k ps with Some _ => true | None => false end.

Fixpoint replace (k : string) (v : A) (ps : props A) : props A :=
  match ps with
  | [] => []
  | (k', v') :: r =>
      if String.eqb k k' then (k', v) :: r else (k', v') :: replace k v r
  end.

(** Position of a new array index [n]: before the first key that is not
    an index or is a larger index. *)
Fixpoint insert_index (n : N) (k : string) (v : A) (ps : props A) : props A :=
  match ps with
  | [] => [(k, v)]
  | (k', v') :: r =>
      match array_index k' with
      | Some m =>
          if (m <? n)%N then (k', v') :: insert_index n k v r
          else (k, v) :: ps
      | None => (k, v) :: ps
      end
  end.

(** [o[k] = v] *)
Definition set (k : string) (v : A) (ps : props A) : props A :=
  if has k ps then replace k v ps
  else match array_index k with
       | Some n => insert_index n k v ps
       | None => ps ++ [(k, v)]
       end.

(** [delete o[k]] *)
Definition remove (k : string) (ps : props A) : props A :=
  List.filter (λ kv, negb (String.eqb k kv.1)) ps.

Definition keys (ps : props A) : list string := ps.*1.
Definition values (ps : props A) : list A := ps.*2.
End WithValue.

(** Own properties of an array or of a string being spread: ["0"], ["1"], ... *)
Definition indexed {A} (l : list A) : props A :=
  imap (λ i x, (pretty (N.of_nat i), x)) l.

End Props.

(** A [Set<string>]: insertion-ordered, without duplicates. *)
Module StrSet.
Definition has (x : string) (l : list string) : bool :=
  existsb (String.eqb x) l.
Definition add (x : string) (l : list string) : list string :=
  if has x l then l else l ++ [x].
End StrSet.

(** ** JSON documents and the object store *)

Inductive json : Type :=
  | JNull
  | JBool (b : bool)
  | JNum (n : Z)
  | JStr (s : string)
  | JArr (items : list json)
  | JObj (members : list (string * json)).

Abbreviation addr := nat.

Inductive val : Type :=
  | VUndef
  | VNull
  | VBool (b : bool)
  | VNum (n : Z)
  | VStr (s : string)
  | VRef (a : addr).

Inductive cell : Type :=
  | CObj (ps : Props.props val)
  | CArr (items : list val)
  | CSet (elems : list string).

Definition is_defined (v : val) : bool :=
  match v with VUndef => false | _ => true end.

(** Addresses are positions; allocation appends. *)
Abbreviation store := (list cell).

Definition alloc_cell (c : cell) (s : store) : val * store :=
  (VRef (length s), s ++ [c]).

(** [JSON.parse] of the text of [j]: every array and object of the document
    becomes a cell of its own. *)
Fixpoint alloc_json (j : json) (s : store) : val * store :=
  match j with
  | JNull => (VNull, s)
  | JBool b => (VBool b, s)
  | JNum n => (VNum n, s)
  | JStr x => (VStr x, s)
  | JArr items =>
      let '(vs, s1) :=
        (fix go (l : list json) (s : store) : list val * store :=
           match l with
           | [] => ([], s)
           | x :: r =>
               let '(v, s1) := alloc_json x s in
               let '(vs, s2) := go r s1 in
               (v :: vs, s2)
           end) items s in
      alloc_cell (CArr vs) s1
  | JObj members =>
      let '(ps, s1) :=
        (fix go (l : list (string * json)) (s : store) : Props.props val * store :=
           match l with
           | [] => ([], s)
           | (k, x) :: r =>
               let '(v, s1) := alloc_json x s in
               let '(ps, s2) := go r s1 in
               ((k, v) :: ps, s2)
           end) members s in
      alloc_cell (CObj ps) s1
  end.

(** The two local loops of [alloc_json], named for the proofs. *)
Fixpoint alloc_items (l : list json) (s : store) : list val * store :=
  match l with
  | [] => ([], s)
  | x :: r =>
      let '(v, s1) := alloc_json x s in
      let '(vs, s2) := alloc_items r s1 in
      (v :: vs, s2)
  end.

Fixpoint alloc_members (l : list (string * json)) (s : store)
  : Props.props val * store :=
  match l with
  | [] => ([], s)
  | (k, x) :: r =>
      let '(v, s1) := alloc_json x s in
      let '(ps, s2) := alloc_members r s1 in
      ((k, v) :: ps, s2)
  end.

(** [JSON.stringify], to a document rather than to its text.  [depth]
    bounds the nesting that is followed; [None] is a thrown [TypeError]
    (a cyclic structure) or, at top level, the result [undefined]. *)
Fixpoint ser (depth : nat) (s : store) (v : val) : option json :=
  match v with
  | VUndef => None
  | VNull => Some JNull
  | VBool b => Some (JBool b)
  | VNum n => Some (JNum n)
  | VStr x => Some (JStr x)
  | VRef a =>
      match depth with
      | 0 => None
      | S d =>
          match s !! a with
          | Some (CArr items) =>
              JArr <$> mapM (λ v, match v with
                                   | VUndef => Some JNull
                                   | _ => ser d s v
                                   end) items
          | Some (CObj ps) =>
              JObj <$> mapM (λ kv, pair kv.1 <$> ser d s kv.2)
                         (List.filter (λ kv, is_defined kv.2) ps)
          | Some (CSet _) => Some (JObj [])
          | None => None
          end
      end
  end.

(** A chain of nested cells longer than the store revisits a cell, so the
    length of the store bounds the depth of every acyclic structure. *)
Definition JSON_stringify (s : store) (v : val) : option json :=
  ser (S (length s)) s v.

(** ** Values as the loader tests them *)

(** [isObject(x)]: not [null], [typeof x === 'object'], not an array. *)
Definition is_object (s : store) (v : val) : bool :=
  match v with
  | VRef a => match s !! a with
              | Some (CObj _) | Some (CSet _) => true
              | _ => false
              end
  | _ => false
  end.

(** [Array.isArray(x)], with the elements when it holds. *)
Definition array_items (s : store) (v : val) : option (list val) :=
  match v with
  | VRef a => match s !! a with
              | Some (CArr items) => Some items
              | _ => None
              end
  | _ => None
  end.

Definition truthy (v : val) : bool :=
  match v with
  | VUndef | VNull => false
  | VBool b => b
  | VNum n => negb (n =? 0)%Z
  | VStr x => negb (String.eqb x "")
  | VRef _ => true
  end.

Definition chars (x : string) : list val :=
  (λ c, VStr (String c EmptyString)) <$> list_ascii_of_string x.

(** Own enumerable properties, as [Object.entries(x)] and [{...x}] see them. *)
Definition own_props (s : store) (v : val) : Props.props val :=
  match v with
  | VRef a => match s !! a with
              | Some (CObj ps) => ps
              | Some (CArr items) => Props.indexed items
              | _ => []
              end
  | VStr x => Props.indexed (chars x)
  | _ => []
  end.

(** [[...x]]: the elements of an iterable; [None] when [x] is not iterable. *)
Definition iterate (s : store) (v : val) : option (list val) :=
  match v with
  | VRef a => match s !! a with
              | Some (CArr items) => Some items
              | Some (CSet elems) => Some (VStr <$> elems)
              | _ => None
              end
  | VStr x => Some (chars x)
  | _ => None
  end.

(** [o[k]] for the data keys the loader reads; these are never array
    indices nor names found on a prototype, so anything but a plain object
    answers [undefined], and [null] and [undefined] throw. *)
Definition read_prop (s : store) (o : val) (k : string) : option val :=
  match o with
  | VUndef | VNull => None
  | VRef a => match s !! a with
              | Some (CObj ps) => Some (default VUndef (Props.get k ps))
              | _ => Some VUndef
              end
  | _ => Some VUndef
  end.

(** [k in o], for an [o] that passed [isObject]. *)
Definition has_prop (s : store) (o : val) (k : string) : bool :=
  match o with
  | VRef a => match s !! a with
              | Some (CObj ps) => Props.has k ps
              | _ => false
              end
  | _ => false
  end.

Definition update_cell (a : addr) (f : cell → cell) (s : store) : store :=
  match s !! a with
  | Some c => <[a := f c]> s
  | None => s
  end.

Definition starts_with_bang (p : string) : bool :=
  match p with
  | String "!" _ => true
  | _ => false
  end.

(** ** [types.ts] *)

Inductive GlobTypeKey : Set :=
  | _structures_from_glob
  | values_from_glob
  | _snippets_from_glob
  | _snippets_imports_from_glob
  | _snippets_templates_from_glob
  | _snippets_definitions_from_glob
  | _inputs_from_glob
  | _editables_from_glob
  | collections_config_from_glob
  | schemas_from_glob.

Global Instance GlobTypeKey_eq_dec : EqDecision GlobTypeKey.
Proof. solve_decision. Defined.

Definition key_name (k : GlobTypeKey) : string :=
  match k with
  | _structures_from_glob => "_structures_from_glob"
  | values_from_glob => "values_from_glob"
  | _snippets_from_glob => "_snippets_from_glob"
  | _snippets_imports_from_glob => "_snippets_imports_from_glob"
  | _snippets_templates_from_glob => "_snippets_templates_from_glob"
  | _snippets_definitions_from_glob => "_snippets_definitions_from_glob"
  | _inputs_from_glob => "_inputs_from_glob"
  | _editables_from_glob => "_editables_from_glob"
  | collections_config_from_glob => "collections_config_from_glob"
  | schemas_from_glob => "schemas_from_glob"
  end.

Definition all_glob_keys : list GlobTypeKey :=
  [ _structures_from_glob; values_from_glob; _snippets_from_glob;
    _snippets_imports_from_glob; _snippets_templates_from_glob;
    _snippets_definitions_from_glob; _inputs_from_glob; _editables_from_glob;
    collections_config_from_glob; schemas_from_glob ].

Record CycleWarning : Type := { cycle_path : string; chain : list string }.
Record MultipleGlobKeysWarning : Type :=
  { multi_path : string; type1 : GlobTypeKey; type2 : GlobTypeKey }.
Record ArrayValueWarning : Type := { array_path : string }.

Record GlobLoaderWarnings : Type :=
  { cycles : list CycleWarning;
    multipleGlobKeys : list MultipleGlobKeysWarning;
    arrayValues : list ArrayValueWarning }.

Definition no_warnings : GlobLoaderWarnings :=
  {| cycles := []; multipleGlobKeys := []; arrayValues := [] |}.

(** A call made to a collaborator. *)
Inductive Call : Type :=
  | FindCall (globs : list val)
  | LoadCall (filePath : string).

(** What awaiting [loadConfigFile(path)] gives: a rejection (which stands
    for every fault thrown inside the [try] block, including a value that
    [JSON.stringify] refuses), or a value.  [None] is a value that fails
    [data !== undefined && data !== null]; any other value is given by its
    JSON serialisation, which is [JNull] for a value such as [NaN] that is
    not [null] and is written as [null]. *)
Inductive LoadResult : Type :=
  | Rejects
  | Resolves (data : option json).

Record MergeConfigurationOptions : Type :=
  { findFilesMatchingGlobs : list Call → list val → option (list string);
    loadConfigFile : list Call → string → LoadResult }.

(** ** The loader's state: the fields of [ConfigurationLoader] and the store *)

Record Loader : Type :=
  { heap : store;
    warnings : GlobLoaderWarnings;
    pathsToGlobKey : Props.props GlobTypeKey;
    globKeyToPaths : list (GlobTypeKey * list string);
    globPatterns : list string;
    calls : list Call }.

Definition with_heap (f : store → store) (st : Loader) : Loader :=
  {| heap := f (heap st); warnings := warnings st;
     pathsToGlobKey := pathsToGlobKey st; globKeyToPaths := globKeyToPaths st;
     globPatterns := globPatterns st; calls := calls st |}.

Definition with_warnings (f : GlobLoaderWarnings → GlobLoaderWarnings)
    (st : Loader) : Loader :=
  {| heap := heap st; warnings := f (warnings st);
     pathsToGlobKey := pathsToGlobKey st; globKeyToPaths := globKeyToPaths st;
     globPatterns := globPatterns st; calls := calls st |}.

Definition with_pathsToGlobKey
    (f : Props.props GlobTypeKey → Props.props GlobTypeKey) (st : Loader) : Loader :=
  {| heap := heap st; warnings := warnings st;
     pathsToGlobKey := f (pathsToGlobKey st); globKeyToPaths := globKeyToPaths st;
     globPatterns := globPatterns st; calls := calls st |}.

Definition with_globKeyToPaths
    (f : list (GlobTypeKey * list string) → list (GlobTypeKey * list string))
    (st : Loader) : Loader :=
  {| heap := heap st; warnings := warnings st;
     pathsToGlobKey := pathsToGlobKey st; globKeyToPaths := f (globKeyToPaths st);
     globPatterns := globPatterns st; calls := calls st |}.

Definition with_globPatterns (f : list string → list string) (st : Loader) : Loader :=
  {| heap := heap st; warnings := warnings st;
     pathsToGlobKey := pathsToGlobKey st; globKeyToPaths := globKeyToPaths st;
     globPatterns := f (globPatterns st); calls := calls st |}.

Definition with_calls (f : list Call → list Call) (st : Loader) : Loader :=
  {| heap := heap st; warnings := warnings st;
     pathsToGlobKey := pathsToGlobKey st; globKeyToPaths := globKeyToPaths st;
     globPatterns := globPatterns st; calls := f (calls st) |}.

Definition paths_of (k : GlobTypeKey) (m : list (GlobTypeKey * list string))
  : list string :=
  default [] (snd <$> List.find (λ e, bool_decide (e.1 = k)) m).

Definition add_path (k : GlobTypeKey) (p : string)
    (m : list (GlobTypeKey * list string)) : list (GlobTypeKey * list string) :=
  (λ e, if bool_decide (e.1 = k) then (e.1, StrSet.add p e.2) else e) <$> m.

(** ** Computations *)

Inductive fault : Set :=
  | TypeError
  | SyntaxError
  | CollaboratorFault.

Inductive outcome (A : Type) : Type :=
  | Ok (a : A) (st : Loader)
  | Thrown (e : fault) (st : Loader)
  | OutOfFuel (st : Loader).
Arguments Ok {A} a st.
Arguments Thrown {A} e st.
Arguments OutOfFuel {A} st.

(** The loader as the computation left it. *)
Definition final {A} (o : outcome A) : Loader :=
  match o with
  | Ok _ st | Thrown _ st | OutOfFuel st => st
  end.

Definition M (A : Type) : Type := Loader → outcome A.

Global Instance M_ret : MRet M := λ A a st, Ok a st.
Global Instance M_bind : MBind M := λ A B f m st,
  match m st with
  | Ok a st' => f a st'
  | Thrown e st' => Thrown e st'
  | OutOfFuel st' => OutOfFuel st'
  end.

Definition throw {A} (e : fault) : M A := λ st, Thrown e st.
Definition out_of_fuel {A} : M A := λ st, OutOfFuel st.
Definition gets {A} (f : Loader → A) : M A := λ st, Ok (f st) st.
Definition modify (f : Loader → Loader) : M unit := λ st, Ok tt (f st).
Definition when (b : bool) (m : M unit) : M unit := if b then m else mret tt.

Fixpoint forM_ {A} (l : list A) (f : A → M unit) : M unit :=
  match l with
  | [] => mret tt
  | x :: r => f x ;; forM_ r f
  end.

Fixpoint foldM {A B} (f : B → A → M B) (b : B) (l : list A) : M B :=
  match l with
  | [] => mret b
  | x :: r => b' ← f b x; foldM f b' r
  end.

(** A computation that has run up to [await this.loadConfigFile(filePath)]:
    the path that is awaited, and what is resumed with the answer. *)
Record Suspended (A : Type) : Type :=
  { awaited : string;
    resume : LoadResult → M A }.
Arguments awaited {A} _.
Arguments resume {A} _ _.

(** *** The store, as the loader uses it *)

Definition isObject (v : val) : M bool := gets (λ st, is_object (heap st) v).
Definition arrayItems (v : val) : M (option (list val)) :=
  gets (λ st, array_items (heap st) v).
Definition ownProps (v : val) : M (Props.props val) :=
  gets (λ st, own_props (heap st) v).
Definition hasProp (o : val) (k : string) : M bool :=
  gets (λ st, has_prop (heap st) o k).

Definition getProp (o : val) (k : string) : M val := λ st,
  match read_prop (heap st) o k with
  | Some v => Ok v st
  | None => Thrown TypeError st
  end.

(** [o[k] = v] and [delete o[k]]; the loader only does either on an [o]
    that it has read a property from, which is never a primitive. *)
Definition on_object (o : val) (f : Props.props val → Props.props val) : M unit :=
  match o with
  | VRef a =>
      modify (with_heap (update_cell a (λ c, match c with
                                              | CObj ps => CObj (f ps)
                                              | _ => c
                                              end)))
  | _ => mret tt
  end.

Definition setProp (o : val) (k : string) (v : val) : M unit :=
  on_object o (Props.set k v).
Definition deleteProp (o : val) (k : string) : M unit :=
  on_object o (Props.remove k).

Definition alloc (c : cell) : M val := λ st,
  Ok (VRef (length (heap st))) (with_heap (λ s, s ++ [c]) st).

(** [JSON.parse(JSON.stringify(data))] for the document [data]. *)
Definition JSON_parse (j : json) : M val := λ st,
  let '(v, s) := alloc_json j (heap st) in Ok v (with_heap (λ _, s) st).

(** *** [Set<string>] objects: the visitation chains *)

Definition newSet : M addr := λ st,
  Ok (length (heap st)) (with_heap (λ s, s ++ [CSet []]) st).

Definition set_elems (s : store) (a : addr) : list string :=
  match s !! a with
  | Some (CSet elems) => elems
  | _ => []
  end.

Definition setToList (a : addr) : M (list string) :=
  gets (λ st, set_elems (heap st) a).
Definition setHas (a : addr) (x : string) : M bool :=
  gets (λ st, StrSet.has x (set_elems (heap st) a)).
Definition setAdd (a : addr) (x : string) : M unit :=
  modify (with_heap (update_cell a (λ c, match c with
                                          | CSet elems => CSet (StrSet.add x elems)
                                          | _ => c
                                          end))).

(** ** [class ConfigurationLoader] *)

Module ConfigurationLoader.
Section Loader.

(** [a.localeCompare(b)]: negative, zero or positive. *)
Variable localeCompare : string → string → Z.
Variable options : MergeConfigurationOptions.

(** [matchingFiles.sort((a, b) => a.localeCompare(b))]; the sort of
    ECMAScript is stable. *)
Fixpoint sort_insert (x : string) (l : list string) : list string :=
  match l with
  | [] => [x]
  | y :: r =>
      if (localeCompare x y <=? 0)%Z then x :: y :: r
      else y :: sort_insert x r
  end.

Definition sort (l : list string) : list string :=
  foldr sort_insert [] l.

(** *** Calls to the collaborators *)

Definition callFindFilesMatchingGlobs (globs : list val) : M (list string) :=
  λ st,
    let st' := with_calls (λ h, h ++ [FindCall globs]) st in
    match findFilesMatchingGlobs options (calls st) globs with
    | Some files => Ok files st'
    | None => Thrown CollaboratorFault st'
    end.

Definition callLoadConfigFile (filePath : string) : M LoadResult :=
  λ st,
    Ok (loadConfigFile options (calls st) filePath)
       (with_calls (λ h, h ++ [LoadCall filePath]) st).

(** *** Fields *)

Definition pushCycle (w : CycleWarning) : M unit :=
  modify (with_warnings (λ ws,
    {| cycles := cycles ws ++ [w];
       multipleGlobKeys := multipleGlobKeys ws;
       arrayValues := arrayValues ws |})).

Definition pushMultipleGlobKeys (w : MultipleGlobKeysWarning) : M unit :=
  modify (with_warnings (λ ws,
    {| cycles := cycles ws;
       multipleGlobKeys := multipleGlobKeys ws ++ [w];
       arrayValues := arrayValues ws |})).

Definition pushArrayValue (w : ArrayValueWarning) : M unit :=
  modify (with_warnings (λ ws,
    {| cycles := cycles ws;
       multipleGlobKeys := multipleGlobKeys ws;
       arrayValues := arrayValues ws ++ [w] |})).

(** *** [loadFilesFromGlobs] *)

(** What follows the [await]: the rest of the [try] block, and its
    [catch]. *)
Definition resumeLoad (loadedData : list (val * string)) (filePath : string)
    (data : LoadResult) : M (list (val * string)) :=
  match data with
  | Rejects => mret loadedData
  | Resolves None => mret loadedData
  | Resolves (Some document) =>
      clonedData ← JSON_parse document;
      items ← arrayItems clonedData;
      match items with
      | Some _ =>
          pushArrayValue {| array_path := filePath |};;
          mret loadedData
      | None => mret (loadedData ++ [(clonedData, filePath)])
      end
  end.

(** The part of the loop body after both checks, up to the [await]: the
    claim. *)
Definition claimUntilAwait (globKey : GlobTypeKey) (visited : option addr)
    (loadedData : list (val * string)) (filePath : string)
  : M (Suspended (list (val * string))) :=
  modify (with_pathsToGlobKey (Props.set filePath globKey));;
  modify (with_globKeyToPaths (add_path globKey filePath));;
  match visited with
  | Some vis => setAdd vis filePath
  | None => mret tt
  end;;
  mret {| awaited := filePath; resume := resumeLoad loadedData filePath |}.

(** [await]: [loadConfigFile] is consulted, and the computation is resumed
    with its answer. *)
Definition awaitLoad {A} (suspended : Suspended A) : M A :=
  data ← callLoadConfigFile (awaited suspended);
  resume suspended data.

(** The part of the loop body after both checks: claim, then load. *)
Definition claimAndLoad (globKey : GlobTypeKey) (visited : option addr)
    (loadedData : list (val * string)) (filePath : string)
  : M (list (val * string)) :=
  suspended ← claimUntilAwait globKey visited loadedData filePath;
  awaitLoad suspended.

(** One iteration of [for (const filePath of matchingFiles)]. *)
Definition loadFile (globKey : GlobTypeKey) (visited : option addr)
    (loadedData : list (val * string)) (filePath : string)
  : M (list (val * string)) :=
  seen ← match visited with
         | Some vis => setHas vis filePath
         | None => mret false
         end;
  if seen : bool then
    snapshot ← match visited with
               | Some vis => setToList vis
               | None => mret []
               end;
    pushCycle {| cycle_path := filePath; chain := snapshot |};;
    mret loadedData
  else
    existingGlobKey ← gets (λ st, Props.get filePath (pathsToGlobKey st));
    match existingGlobKey with
    | Some existing =>
        if bool_decide (existing ≠ globKey) then
          pushMultipleGlobKeys
            {| multi_path := filePath; type1 := existing; type2 := globKey |};;
          mret loadedData
        else claimAndLoad globKey visited loadedData filePath
    | None => claimAndLoad globKey visited loadedData filePath
    end.

Definition loadFilesFromGlobs (globs : list val) (globKey : GlobTypeKey)
    (visited : option addr) : M (list (val * string)) :=
  matchingFiles ← callFindFilesMatchingGlobs globs;
  foldM (loadFile globKey visited) [] (sort matchingFiles).

(** *** [mergeObjectValues] and [mergeArrayValues] *)

(** [{ ...value, __source__: source }] *)
Definition withSource (value : val) (source : string) : M val :=
  ps ← ownProps value;
  alloc (CObj (Props.set "__source__" (VStr source) ps)).

(** The object under construction is local until it is returned; it is
    kept as a property list and allocated on return. *)
Definition mergeObjectValues (base : val) (loaded : list (val * string))
  : M val :=
  copy ← ownProps base;
  result ← foldM (λ result '(item, source),
      itemIsObject ← isObject item;
      if itemIsObject : bool then
        entries ← ownProps item;
        foldM (λ result '(key, value),
            valueIsObject ← isObject value;
            if valueIsObject : bool then
              stamped ← withSource value source;
              mret (Props.set key stamped result)
            else mret (Props.set key value result))
          result entries
      else mret result)
    copy loaded;
  alloc (CObj result).

Definition pushElement (source : string) (result : list val) (element : val)
  : M (list val) :=
  elementIsObject ← isObject element;
  if elementIsObject : bool then
    stamped ← withSource element source;
    mret (result ++ [stamped])
  else mret (result ++ [element]).

Definition mergeArrayValues (base : val) (loaded : list (val * string))
  : M val :=
  spread ← gets (λ st, iterate (heap st) base);
  copy ← match spread with
         | Some items => mret items
         | None => throw TypeError
         end;
  result ← foldM (λ result '(item, source),
      elements ← arrayItems item;
      match elements with
      | Some elements => foldM (pushElement source) result elements
      | None => pushElement source result item
      end)
    copy loaded;
  alloc (CArr result).

(** *** [importFromGlobKey] *)

Definition trackPattern (pattern : val) : M unit :=
  match pattern with
  | VStr p =>
      when (negb (starts_with_bang p))
        (modify (with_globPatterns (StrSet.add p)))
  | _ => mret tt
  end.

Definition importFromGlobKey (config : val) (globKey : GlobTypeKey)
    (targetKey : string) (isArray : bool) (visited : option addr) : M unit :=
  globs ← getProp config (key_name globKey);
  patterns ← arrayItems globs;
  match patterns with
  | None => mret tt
  | Some patterns =>
      forM_ patterns trackPattern;;
      loadedDataWithSources ← loadFilesFromGlobs patterns globKey visited;
      target ← getProp config targetKey;
      merged ←
        (if isArray then
           base ← (if truthy target then mret target else alloc (CArr []));
           mergeArrayValues base loadedDataWithSources
         else
           base ← (if truthy target then mret target else alloc (CObj []));
           mergeObjectValues base loadedDataWithSources);
      setProp config targetKey merged;;
      deleteProp config (key_name globKey)
  end.

(** *** The walker *)

(** [visited || new Set<string>()] *)
Definition visitedOrNew (visited : option addr) : M addr :=
  match visited with
  | Some vis => mret vis
  | None => newSet
  end.

Definition processStructureValueWith
    (processInputsKey : val → option addr → M unit)
    (structureValue : val) (visited : addr) : M unit :=
  valueIsObject ← isObject structureValue;
  if valueIsObject : bool then
    inputsFromGlob ← getProp structureValue "_inputs_from_glob";
    when (truthy inputsFromGlob)
      (importFromGlobKey structureValue _inputs_from_glob "_inputs" false
         (Some visited));;
    inputs ← getProp structureValue "_inputs";
    when (truthy inputs) (processInputsKey inputs (Some visited))
  else mret tt.

(** Each level of [processInputsKey] uses one unit of fuel. *)
Fixpoint processInputsKey (fuel : nat) (inputs : val) (visited : option addr)
  : M unit :=
  match fuel with
  | 0 => out_of_fuel
  | S fuel =>
      inputsIsObject ← isObject inputs;
      if inputsIsObject : bool then
        inputValues ← ownProps inputs;
        forM_ inputValues.*2 (λ inputValue,
          inputIsObject ← isObject inputValue;
          if inputIsObject : bool then
            inputOptions ← getProp inputValue "options";
            optionsIsObject ← isObject inputOptions;
            if optionsIsObject : bool then
              structures ← getProp inputOptions "structures";
              visitedLocal ← visitedOrNew visited;
              structuresIsObject ← isObject structures;
              if structuresIsObject : bool then
                valuesFromGlob ← getProp structures "values_from_glob";
                when (truthy valuesFromGlob)
                  (importFromGlobKey structures values_from_glob "values" true
                     (Some visitedLocal));;
                values ← getProp structures "values";
                items ← arrayItems values;
                match items with
                | Some items =>
                    forM_ items (λ value,
                      processStructureValueWith (processInputsKey fuel)
                        value visitedLocal)
                | None => mret tt
                end
              else mret tt
            else mret tt
          else mret tt)
      else mret tt
  end.

Definition processStructureValue (fuel : nat) (structureValue : val)
    (visited : addr) : M unit :=
  processStructureValueWith (processInputsKey fuel) structureValue visited.

Definition processStructuresKey (fuel : nat) (structures : val)
    (visited : option addr) : M unit :=
  structuresIsObject ← isObject structures;
  if structuresIsObject : bool then
    entries ← ownProps structures;
    forM_ entries.*2 (λ structure,
      structureIsObject ← isObject structure;
      if structureIsObject : bool then
        visitedLocal ← visitedOrNew visited;
        importFromGlobKey structure values_from_glob "values" true
          (Some visitedLocal);;
        values ← getProp structure "values";
        items ← arrayItems values;
        match items with
        | Some items =>
            forM_ items (λ value, processStructureValue fuel value visitedLocal)
        | None => mret tt
        end
      else mret tt)
  else mret tt.

(** [_inputs_from_glob], [_structures_from_glob], then the recursion into
    both targets: the sequence run on a collection, a schema and a
    snippet. *)
Definition processInputsAndStructures (fuel : nat) (owner : val) : M unit :=
  importFromGlobKey owner _inputs_from_glob "_inputs" false None;;
  importFromGlobKey owner _structures_from_glob "_structures" false None;;
  inputs ← getProp owner "_inputs";
  processInputsKey fuel inputs None;;
  structures ← getProp owner "_structures";
  processStructuresKey fuel structures None.

Definition processSchemas (fuel : nat) (collection : val) : M unit :=
  schemas ← getProp collection "schemas";
  schemasIsObject ← isObject schemas;
  if schemasIsObject : bool then
    entries ← ownProps schemas;
    forM_ entries.*2 (λ schemaValue,
      schemaIsObject ← isObject schemaValue;
      when schemaIsObject (processInputsAndStructures fuel schemaValue))
  else mret tt.

Definition processCollections (fuel : nat) (config : val) : M unit :=
  collectionsConfig ← getProp config "collections_config";
  collectionsIsObject ← isObject collectionsConfig;
  if collectionsIsObject : bool then
    entries ← ownProps collectionsConfig;
    forM_ entries (λ '(collectionKey, collectionConfig),
      collectionIsObject ← isObject collectionConfig;
      if collectionIsObject : bool then
        hasSchemasFromGlob ← hasProp collectionConfig "schemas_from_glob";
        when hasSchemasFromGlob
          (importFromGlobKey collectionConfig schemas_from_glob "schemas"
             false None);;
        current ← getProp config "collections_config";
        collection ← getProp current collectionKey;
        processInputsAndStructures fuel collection;;
        processSchemas fuel collection
      else mret tt)
  else mret tt.

Definition processSnippets (fuel : nat) (config : val) : M unit :=
  snippets ← getProp config "_snippets";
  snippetsIsObject ← isObject snippets;
  if snippetsIsObject : bool then
    importFromGlobKey snippets _inputs_from_glob "_inputs" false None;;
    entries ← ownProps snippets;
    forM_ entries.*2 (λ snippetConfig,
      snippetIsObject ← isObject snippetConfig;
      when snippetIsObject (processInputsAndStructures fuel snippetConfig))
  else mret tt.

(** The root-level reference keys, in the order they are processed. *)
Definition root_keys : list (GlobTypeKey * string) :=
  [ (_snippets_from_glob, "_snippets");
    (_snippets_imports_from_glob, "_snippets_imports");
    (_snippets_templates_from_glob, "_snippets_templates");
    (_snippets_definitions_from_glob, "_snippets_definitions");
    (collections_config_from_glob, "collections_config");
    (_inputs_from_glob, "_inputs");
    (_structures_from_glob, "_structures") ].

Definition mergeConfiguration (fuel : nat) (config : val) : M val :=
  modify (with_warnings (λ _, no_warnings));;
  modify (with_globPatterns (λ _, []));;
  forM_ root_keys (λ '(globKey, targetKey),
    importFromGlobKey config globKey targetKey false None);;
  inputs ← getProp config "_inputs";
  processInputsKey fuel inputs None;;
  structures ← getProp config "_structures";
  processStructuresKey fuel structures None;;
  processCollections fuel config;;
  processSnippets fuel config;;
  mret config.

End Loader.
End ConfigurationLoader.

(** ** [removeDuplicateWarnings] *)

Definition join (sep : string) (l : list string) : string := String.concat sep l.

Definition same_cycle (warning w : CycleWarning) : bool :=
  String.eqb (cycle_path w) (cycle_path warning)
  && String.eqb (join " → " (chain w)) (join " → " (chain warning)).

Definition same_multi (warning w : MultipleGlobKeysWarning) : bool :=
  String.eqb (multi_path w) (multi_path warning)
  && bool_decide (type1 w = type1 warning)
  && bool_decide (type2 w = type2 warning).

Definition same_array (warning w : ArrayValueWarning) : bool :=
  String.eqb (array_path w) (array_path warning).

(** [for (const warning of l) if (!result.some(same warning)) result.push(warning)] *)
Definition dedup {A} (same : A → A → bool) (l : list A) : list A :=
  fold_left (λ result warning,
               if existsb (same warning) result then result
               else result ++ [warning]) l [].

Definition removeDuplicateWarnings (ws : GlobLoaderWarnings) : GlobLoaderWarnings :=
  {| cycles := dedup same_cycle (cycles ws);
     multipleGlobKeys := dedup same_multi (multipleGlobKeys ws);
     arrayValues := dedup same_array (arrayValues ws) |}.

(** ** [export async function mergeConfiguration] *)

Record GlobResult : Type :=
  { config : val;
    result_warnings : GlobLoaderWarnings;
    result_globPatterns : list string;
    result_pathsToGlobKey : Props.props GlobTypeKey;
    result_globKeyToPaths : list (GlobTypeKey * list string) }.

(** [new ConfigurationLoader(...)], in the caller's store. *)
Definition new_loader (s : store) : Loader :=
  {| heap := s;
     warnings := no_warnings;
     pathsToGlobKey := [];
     globKeyToPaths := (λ k, (k, [])) <$> all_glob_keys;
     globPatterns := [];
     calls := [] |}.

(** [JSON.parse(JSON.stringify(config))] *)
Definition deepCopy (config : val) : M val :=
  document ← gets (λ st, JSON_stringify (heap st) config);
  match document with
  | Some document => JSON_parse document
  | None => throw TypeError
  end.

Definition mergeConfiguration (localeCompare : string → string → Z)
    (fuel : nat) (s : store) (config : val)
    (options : MergeConfigurationOptions) : outcome GlobResult :=
  (copy ← deepCopy config;
   result ← ConfigurationLoader.mergeConfiguration localeCompare options fuel copy;
   loader ← gets id;
   mret {| config := result;
           result_warnings := removeDuplicateWarnings (warnings loader);
           result_globPatterns := globPatterns loader;
           result_pathsToGlobKey := pathsToGlobKey loader;
           result_globKeyToPaths := globKeyToPaths loader |})
    (new_loader s).

(** * Verification *)

(** ** Property lists *)

Module PropsFacts.
Import Props.
Section WithValue.
Context {A : Type}.
Implicit Types (ps : props A) (k : string) (v : A).

Lemma get_app k ps qs :
  get k (ps ++ qs) = match get k ps with Some v => Some v | None => get k qs end.
Proof.
  induction ps as [|[k' v'] ps IH]; simpl; [done|].
  by destruct (String.eqb k k').
Qed.

Lemma get_replace_same k v ps :
  has k ps = true → get k (replace k v ps) = Some v.
Proof.
  unfold has. induction ps as [|[k' v'] ps IH]; simpl; [done|].
  destruct (String.eqb k k') eqn:E; simpl; rewrite E; auto.
Qed.

Lemma get_replace_other k k' v ps :
  k ≠ k' → get k' (replace k v ps) = get k' ps.
Proof.
  intros Hne. induction ps as [|[k0 v0] ps IH]; simpl; [done|].
  destruct (String.eqb k k0) eqn:E; simpl.
  - apply String.eqb_eq in E; subst k0.
    destruct (String.eqb k' k) eqn:E'; [|done].
    apply String.eqb_eq in E'. congruence.
  - by rewrite IH.
Qed.

Lemma get_insert_index n k k' v ps :
  get k ps = None →
  get k' (insert_index n k v ps)
  = if String.eqb k' k then Some v else get k' ps.
Proof.
  induction ps as [|[k0 v0] ps IH]; simpl; [done|].
  destruct (String.eqb k k0) eqn:E0; [done|]. intros Hnone.
  destruct (array_index k0) as [m|]; [destruct (m <? n)%N|]; simpl;
    try done.
  rewrite IH by done.
  destruct (String.eqb k' k0) eqn:E1, (String.eqb k' k) eqn:E2; try done.
  apply String.eqb_eq in E1, E2. subst. by rewrite String.eqb_refl in E0.
Qed.

Lemma get_set_same k v ps : get k (set k v ps) = Some v.
Proof.
  unfold set. destruct (has k ps) eqn:Hhas.
  - by apply get_replace_same.
  - unfold has in Hhas. destruct (get k ps) eqn:Hget; [done|].
    destruct (array_index k).
    + by rewrite get_insert_index, String.eqb_refl.
    + rewrite get_app, Hget. simpl. by rewrite String.eqb_refl.
Qed.

Lemma get_set_other k k' v ps : k ≠ k' → get k' (set k v ps) = get k' ps.
Proof.
  intros Hne. unfold set. destruct (has k ps) eqn:Hhas.
  - by apply get_replace_other.
  - unfold has in Hhas. destruct (get k ps) eqn:Hget; [done|].
    assert (String.eqb k' k = false) as E
      by (apply String.eqb_neq; congruence).
    destruct (array_index k).
    + by rewrite get_insert_index, E.
    + rewrite get_app. simpl. rewrite E. by destruct (get k' ps).
Qed.

Lemma get_remove_same k ps : get k (remove k ps) = None.
Proof.
  unfold remove. induction ps as [|[k' v'] ps IH]; simpl; [done|].
  destruct (String.eqb k k') eqn:E; simpl; [done|]. by rewrite E.
Qed.

Lemma get_remove_other k k' ps : k ≠ k' → get k' (remove k ps) = get k' ps.
Proof.
  intros Hne. unfold remove.
  induction ps as [|[k0 v0] ps IH]; simpl; [done|].
  destruct (String.eqb k k0) eqn:E; simpl.
  - apply String.eqb_eq in E; subst k0.
    destruct (String.eqb k' k) eqn:E'; [|done].
    apply String.eqb_eq in E'. congruence.
  - by rewrite IH.
Qed.

Lemma get_Some_In k v ps : get k ps = Some v → In (k, v) ps.
Proof.
  induction ps as [|[k' v'] ps IH]; simpl; [done|].
  destruct (String.eqb k k') eqn:E.
  - apply String.eqb_eq in E. intros [= ->]. left. by subst.
  - auto.
Qed.

(** Everything in [set k v ps] is [v] or was in [ps]. *)
Lemma In_replace k v ps kv : In kv (replace k v ps) → kv.2 = v ∨ In kv ps.
Proof.
  induction ps as [|[k0 v0] ps IH]; simpl; [tauto|].
  destruct (String.eqb k k0); simpl.
  - intros [<-|?]; auto.
  - intros [<-|?]; auto. destruct IH; auto.
Qed.

Lemma In_insert_index n k v ps kv :
  In kv (insert_index n k v ps) → kv.2 = v ∨ In kv ps.
Proof.
  induction ps as [|[k0 v0] ps IH]; simpl.
  - intros [<-|[]]; auto.
  - destruct (array_index k0) as [m|]; [destruct (m <? n)%N|]; simpl.
    + intros [<-|?]; auto. destruct IH; auto.
    + intros [<-|?]; auto.
    + intros [<-|?]; auto.
Qed.

Lemma In_set k v ps kv : In kv (set k v ps) → kv.2 = v ∨ In kv ps.
Proof.
  unfold set. destruct (has k ps); [apply In_replace|].
  destruct (array_index k); [apply In_insert_index|].
  rewrite in_app_iff. simpl. intros [?|[<-|[]]]; auto.
Qed.

Lemma In_remove k ps kv : In kv (remove k ps) → In kv ps.
Proof. unfold remove. rewrite filter_In. tauto. Qed.

End WithValue.

(** [set] only looks at the keys, so it commutes with a relation between
    property lists that relates equal keys. *)
Section Rel.
Context {A B : Type} (R : A → B → Prop).

Definition related (ps : props A) (qs : props B) : Prop :=
  Forall2 (λ p q, p.1 = q.1 ∧ R p.2 q.2) ps qs.

Lemma related_get k ps qs :
  related ps qs →
  match get k ps, get k qs with
  | Some a, Some b => R a b
  | None, None => True
  | _, _ => False
  end.
Proof.
  induction 1 as [|[k1 a] [k2 b] ps qs [Hk HR] _ IH]; simpl in *; [done|].
  subst k2. by destruct (String.eqb k k1).
Qed.

Lemma related_has k ps qs : related ps qs → has k ps = has k qs.
Proof.
  intros H. pose proof (related_get k _ _ H) as Hg. unfold has.
  by destruct (get k ps), (get k qs).
Qed.



End Rel.

End PropsFacts.

(** ** JSON documents in the store *)

Section JsonInduction.
Variable P : json → Prop.
Hypothesis HNull : P JNull.
Hypothesis HBool : ∀ b, P (JBool b).
Hypothesis HNum : ∀ n, P (JNum n).
Hypothesis HStr : ∀ x, P (JStr x).
Hypothesis HArr : ∀ items, Forall P items → P (JArr items).
Hypothesis HObj : ∀ members, Forall (λ m, P m.2) members → P (JObj members).

Fixpoint json_induction (j : json) : P j :=
  match j with
  | JNull => HNull
  | JBool b => HBool b
  | JNum n => HNum n
  | JStr x => HStr x
  | JArr items =>
      HArr items
        ((fix all (l : list json) : Forall P l :=
            match l with
            | [] => @List.Forall_nil _ P
            | x :: r => @List.Forall_cons _ P x r (json_induction x) (all r)
            end) items)
  | JObj members =>
      HObj members
        ((fix all (l : list (string * json)) : Forall (λ m, P m.2) l :=
            match l with
            | [] => @List.Forall_nil _ (λ m, P m.2)
            | m :: r => @List.Forall_cons _ (λ m, P m.2) m r (json_induction m.2) (all r)
            end) members)
  end.
End JsonInduction.

(** Nesting depth of arrays and objects. *)
Fixpoint height (j : json) : nat :=
  match j with
  | JArr items => S (list_max (map height items))
  | JObj members => S (list_max (map (λ m, height m.2) members))
  | _ => 0
  end.

(** [represents s v j]: the structure reachable from [v] in [s] is the
    document [j]. *)
Fixpoint represents (s : store) (v : val) (j : json) : Prop :=
  match j with
  | JNull => v = VNull
  | JBool b => v = VBool b
  | JNum n => v = VNum n
  | JStr x => v = VStr x
  | JArr js =>
      ∃ a items, v = VRef a ∧ s !! a = Some (CArr items) ∧
        (fix all (vs : list val) (js : list json) {struct js} : Prop :=
           match vs, js with
           | [], [] => True
           | v :: vs, j :: js => represents s v j ∧ all vs js
           | _, _ => False
           end) items js
  | JObj ms =>
      ∃ a ps, v = VRef a ∧ s !! a = Some (CObj ps) ∧
        (fix all (ps : Props.props val) (ms : list (string * json))
             {struct ms} : Prop :=
           match ps, ms with
           | [], [] => True
           | p :: ps, m :: ms => (p.1 = m.1 ∧ represents s p.2 m.2) ∧ all ps ms
           | _, _ => False
           end) ps ms
  end.

Lemma represents_arr s v js :
  represents s v (JArr js) ↔
  ∃ a items, v = VRef a ∧ s !! a = Some (CArr items) ∧
             Forall2 (represents s) items js.
Proof.
  simpl. split; intros (a & items & Hv & Hs & Hall); exists a, items;
    (split; [done|split; [done|]]); clear Hs.
  - revert items Hall. induction js as [|j js IH]; intros [|v' vs]; try done.
    intros [? ?]. apply Forall2_cons_2; auto.
  - induction Hall; simpl; auto.
Qed.

Lemma represents_obj s v ms :
  represents s v (JObj ms) ↔
  ∃ a ps, v = VRef a ∧ s !! a = Some (CObj ps) ∧
          PropsFacts.related (represents s) ps ms.
Proof.
  unfold PropsFacts.related.
  simpl. split; intros (a & ps & Hv & Hs & Hall); exists a, ps;
    (split; [done|split; [done|]]); clear Hs.
  - revert ps Hall. induction ms as [|m ms IH]; intros [|p ps]; try done.
    intros [? ?]. apply Forall2_cons_2; auto.
  - induction Hall; simpl; auto.
Qed.

Global Opaque represents.

Lemma represents_prim s v j :
  match j with JArr _ | JObj _ => False | _ => True end →
  represents s v j ↔
  v = match j with
      | JNull => VNull | JBool b => VBool b | JNum n => VNum n
      | JStr x => VStr x | _ => VUndef
      end.
Proof. Transparent represents. destruct j; simpl; tauto. Qed.
Global Opaque represents.

(** Two stores that hold the same cells between two addresses. *)
Definition agree (lo hi : nat) (s1 s2 : store) : Prop :=
  ∀ a, lo ≤ a → a < hi → s2 !! a = s1 !! a.

Lemma alloc_json_arr items s :
  alloc_json (JArr items) s
  = let '(vs, s1) := alloc_items items s in alloc_cell (CArr vs) s1.
Proof. reflexivity. Qed.

Lemma alloc_json_obj members s :
  alloc_json (JObj members) s
  = let '(ps, s1) := alloc_members members s in alloc_cell (CObj ps) s1.
Proof. reflexivity. Qed.

(** Allocation only appends. *)
Lemma alloc_json_extends j :
  ∀ s v s', alloc_json j s = (v, s') → ∃ new, s' = s ++ new.
Proof.
  induction j as [| | | |items IH|members IH] using json_induction;
    intros s v s'; try (intros [= <- <-]; exists []; by rewrite app_nil_r).
  - rewrite alloc_json_arr.
    assert (∀ s vs s1, alloc_items items s = (vs, s1) → ∃ new, s1 = s ++ new)
      as Hitems.
    { clear s v s'. induction IH as [|x r Hx _ IHr]; intros s vs s1; simpl.
      - intros [= <- <-]. exists []. by rewrite app_nil_r.
      - destruct (alloc_json x s) as [v1 s2] eqn:E1.
        destruct (alloc_items r s2) as [vs' s3] eqn:E2. intros [= <- <-].
        destruct (Hx _ _ _ E1) as [n1 ->]. destruct (IHr _ _ _ E2) as [n2 ->].
        exists (n1 ++ n2). by rewrite app_assoc. }
    destruct (alloc_items items s) as [vs s1] eqn:E. unfold alloc_cell.
    intros [= <- <-]. destruct (Hitems _ _ _ E) as [new ->].
    exists (new ++ [CArr vs]). by rewrite app_assoc.
  - rewrite alloc_json_obj.
    assert (∀ s ps s1, alloc_members members s = (ps, s1) → ∃ new, s1 = s ++ new)
      as Hmembers.
    { clear s v s'. induction IH as [|[k x] r Hx _ IHr]; intros s ps s1; simpl.
      - intros [= <- <-]. exists []. by rewrite app_nil_r.
      - destruct (alloc_json x s) as [v1 s2] eqn:E1.
        destruct (alloc_members r s2) as [ps' s3] eqn:E2. intros [= <- <-].
        destruct (Hx _ _ _ E1) as [n1 ->]. destruct (IHr _ _ _ E2) as [n2 ->].
        exists (n1 ++ n2). by rewrite app_assoc. }
    destruct (alloc_members members s) as [ps s1] eqn:E. unfold alloc_cell.
    intros [= <- <-]. destruct (Hmembers _ _ _ E) as [new ->].
    exists (new ++ [CObj ps]). by rewrite app_assoc.
Qed.

Lemma alloc_items_extends items :
  ∀ s vs s', alloc_items items s = (vs, s') → ∃ new, s' = s ++ new.
Proof.
  induction items as [|x r IH]; intros s vs s'; simpl.
  - intros [= <- <-]. exists []. by rewrite app_nil_r.
  - destruct (alloc_json x s) as [v1 s2] eqn:E1.
    destruct (alloc_items r s2) as [vs' s3] eqn:E2. intros [= <- <-].
    destruct (alloc_json_extends _ _ _ _ E1) as [n1 ->].
    destruct (IH _ _ _ E2) as [n2 ->].
    exists (n1 ++ n2). by rewrite app_assoc.
Qed.

Lemma alloc_members_extends members :
  ∀ s ps s', alloc_members members s = (ps, s') → ∃ new, s' = s ++ new.
Proof.
  induction members as [|[k x] r IH]; intros s ps s'; simpl.
  - intros [= <- <-]. exists []. by rewrite app_nil_r.
  - destruct (alloc_json x s) as [v1 s2] eqn:E1.
    destruct (alloc_members r s2) as [ps' s3] eqn:E2. intros [= <- <-].
    destruct (alloc_json_extends _ _ _ _ E1) as [n1 ->].
    destruct (IH _ _ _ E2) as [n2 ->].
    exists (n1 ++ n2). by rewrite app_assoc.
Qed.

Lemma agree_shrink lo hi lo' hi' s1 s1' s2 :
  agree lo hi s1 s2 → lo ≤ lo' → hi' ≤ hi → hi' ≤ length s1' →
  (∃ new, s1 = s1' ++ new) →
  agree lo' hi' s1' s2.
Proof.
  intros H ? ? ? [new ->] a ? ?.
  rewrite H by lia. apply lookup_app_l. lia.
Qed.

Ltac solve_agree :=
  eapply agree_shrink; [eassumption|..]; subst;
  rewrite ?length_app; simpl; try lia;
  first [by eexists | exists []; by rewrite app_nil_r].

(** What [JSON.parse] allocates represents the document, in every store
    that still holds the allocated cells. *)
Lemma alloc_json_represents j :
  ∀ s v s1, alloc_json j s = (v, s1) →
  ∀ s2, agree (length s) (length s1) s1 s2 → represents s2 v j.
Proof.
  induction j as [| | | |items IH|members IH] using json_induction;
    intros s v s1;
    try (intros [= <- <-] s2 _; by apply represents_prim).
  - rewrite alloc_json_arr.
    destruct (alloc_items items s) as [vs s1'] eqn:E. unfold alloc_cell.
    intros [= <- <-] s2 Hag. apply represents_arr.
    exists (length s1'), vs. split; [done|]. split.
    { rewrite Hag.
      - by rewrite lookup_app_r, Nat.sub_diag by lia.
      - destruct (alloc_items_extends _ _ _ _ E) as [new ->].
        rewrite length_app. lia.
      - rewrite length_app. simpl. lia. }
    assert (agree (length s) (length s1') s1' s2) as Hag'.
    { solve_agree. }
    clear Hag. revert s vs s1' E Hag'.
    induction IH as [|x r Hx _ IHr]; intros s vs s1'; simpl.
    + intros [= <- <-] _. constructor.
    + destruct (alloc_json x s) as [v1 sa] eqn:E1.
      destruct (alloc_items r sa) as [vs' sb] eqn:E2. intros [= <- <-] Hag.
      pose proof (alloc_json_extends _ _ _ _ E1) as [n1 Hn1].
      pose proof (alloc_items_extends _ _ _ _ E2) as [n2 Hn2].
      constructor.
      * eapply Hx; [done|]. solve_agree.
      * eapply IHr; [done|]. solve_agree.
  - rewrite alloc_json_obj.
    destruct (alloc_members members s) as [ps s1'] eqn:E. unfold alloc_cell.
    intros [= <- <-] s2 Hag. apply represents_obj.
    exists (length s1'), ps. split; [done|]. split.
    { rewrite Hag.
      - by rewrite lookup_app_r, Nat.sub_diag by lia.
      - destruct (alloc_members_extends _ _ _ _ E) as [new ->].
        rewrite length_app. lia.
      - rewrite length_app. simpl. lia. }
    assert (agree (length s) (length s1') s1' s2) as Hag'.
    { solve_agree. }
    clear Hag. revert s ps s1' E Hag'. unfold PropsFacts.related.
    induction IH as [|[k x] r Hx _ IHr]; intros s ps s1'; simpl.
    + intros [= <- <-] _. constructor.
    + destruct (alloc_json x s) as [v1 sa] eqn:E1.
      destruct (alloc_members r sa) as [ps' sb] eqn:E2. intros [= <- <-] Hag.
      pose proof (alloc_json_extends _ _ _ _ E1) as [n1 Hn1].
      pose proof (alloc_members_extends _ _ _ _ E2) as [n2 Hn2].
      constructor.
      * split; [done|]. simpl in *. eapply Hx; [done|]. solve_agree.
      * eapply IHr; [done|]. solve_agree.
Qed.

Lemma represents_app j : ∀ s ext v, represents s v j → represents (s ++ ext) v j.
Proof.
  induction j as [| | | |items IH|members IH] using json_induction;
    intros s ext v; try (rewrite !represents_prim by done; done).
  - rewrite !represents_arr. intros (a & vs & -> & Hs & Hall).
    exists a, vs. split; [done|]. split; [by apply lookup_app_l_Some|].
    clear Hs. induction Hall as [|v j vs js Hv _ IHall]; [constructor|].
    inversion IH; subst. constructor; auto.
  - rewrite !represents_obj. intros (a & ps & -> & Hs & Hall).
    exists a, ps. split; [done|]. split; [by apply lookup_app_l_Some|].
    clear Hs. unfold PropsFacts.related in *.
    induction Hall as [|p m ps ms [Hk Hv] _ IHall]; [constructor|].
    inversion IH; subst. constructor; auto.
Qed.

Lemma represents_defined s v j : represents s v j → is_defined v = true.
Proof.
  destruct j.
  1-4: rewrite represents_prim by done; by intros ->.
  - rewrite represents_arr. by intros (? & ? & -> & _).
  - rewrite represents_obj. by intros (? & ? & -> & _).
Qed.

(** Serialising what represents [j] gives [j] back. *)
Lemma represents_ser j :
  ∀ s v d, represents s v j → height j ≤ d → ser d s v = Some j.
Proof.
  induction j as [| | | |items IH|members IH] using json_induction;
    intros s v d;
    try (rewrite represents_prim by done; intros -> _; by destruct d).
  - rewrite represents_arr. intros (a & vs & -> & Hs & Hall) Hd.
    simpl in Hd. destruct d as [|d]; [lia|]. simpl. rewrite Hs.
    apply Nat.succ_le_mono in Hd.
    assert (mapM (λ v, match v with VUndef => Some JNull | _ => ser d s v end) vs
            = Some items) as ->; [|done].
    apply mapM_Some. clear Hs.
    induction Hall as [|v j vs js Hv _ IHall]; [constructor|].
    inversion IH; subst. simpl in Hd. constructor.
    + pose proof (represents_defined _ _ _ Hv). destruct v; try done;
        (apply H1; [done|lia]).
    + apply IHall; [done|lia].
  - rewrite represents_obj. intros (a & ps & -> & Hs & Hall) Hd.
    simpl in Hd. destruct d as [|d]; [lia|]. simpl. rewrite Hs.
    apply Nat.succ_le_mono in Hd.
    assert (mapM (λ kv : string * val, pair kv.1 <$> ser d s kv.2)
              (List.filter (λ kv, is_defined kv.2) ps) = Some members) as ->;
      [|done].
    apply mapM_Some. clear Hs. unfold PropsFacts.related in Hall.
    induction Hall as [|p m ps ms [Hk Hv] _ IHall]; [constructor|].
    inversion IH; subst. simpl in Hd. simpl.
    rewrite (represents_defined _ _ _ Hv). constructor.
    + rewrite (H1 s p.2 d); [|done|lia]. simpl. rewrite Hk. by destruct m.
    + apply IHall; [done|lia].
Qed.

(** Every level of nesting takes a cell, so the store that holds a parsed
    document is at least as long as the document is deep. *)
Lemma alloc_json_length j :
  ∀ s v s1, alloc_json j s = (v, s1) → length s + height j ≤ length s1.
Proof.
  induction j as [| | | |items IH|members IH] using json_induction;
    intros s v s1; try (intros [= <- <-]; simpl; lia).
  - rewrite alloc_json_arr.
    destruct (alloc_items items s) as [vs s1'] eqn:E. unfold alloc_cell.
    intros [= <- <-]. rewrite length_app. simpl.
    enough (length s + list_max (map height items) ≤ length s1') by lia.
    revert s vs s1' E. induction IH as [|x r Hx _ IHr]; intros s vs s1'; simpl.
    + intros [= <- <-]. lia.
    + destruct (alloc_json x s) as [v1 sa] eqn:E1.
      destruct (alloc_items r sa) as [vs' sb] eqn:E2. intros [= <- <-].
      pose proof (alloc_json_extends _ _ _ _ E1) as [n1 ->].
      pose proof (alloc_items_extends _ _ _ _ E2) as [n2 ->].
      specialize (Hx _ _ _ E1). specialize (IHr _ _ _ E2).
      rewrite !length_app in *. lia.
  - rewrite alloc_json_obj.
    destruct (alloc_members members s) as [ps s1'] eqn:E. unfold alloc_cell.
    intros [= <- <-]. rewrite length_app. simpl.
    enough (length s + list_max (map (λ m, height m.2) members) ≤ length s1')
      by lia.
    revert s ps s1' E.
    induction IH as [|[k x] r Hx _ IHr]; intros s ps s1'; simpl.
    + intros [= <- <-]. lia.
    + destruct (alloc_json x s) as [v1 sa] eqn:E1.
      destruct (alloc_members r sa) as [ps' sb] eqn:E2. intros [= <- <-].
      pose proof (alloc_json_extends _ _ _ _ E1) as [n1 ->].
      pose proof (alloc_members_extends _ _ _ _ E2) as [n2 ->].
      specialize (Hx _ _ _ E1). specialize (IHr _ _ _ E2). simpl in *.
      rewrite !length_app in *. lia.
Qed.

(** [ser] only reads; more depth never changes an answer. *)
Lemma ser_more d : ∀ s v j, ser d s v = Some j → ser (S d) s v = Some j.
Proof.
  induction d as [|d IH]; intros s v j.
  - destruct v; simpl; done.
  - destruct v; try done. intros H. simpl in H. change (ser (S (S d)) s (VRef a))
      with (match s !! a with
            | Some (CArr items) =>
                JArr <$> mapM (λ v, match v with
                                     | VUndef => Some JNull
                                     | _ => ser (S d) s v
                                     end) items
            | Some (CObj ps) =>
                JObj <$> mapM (λ kv, pair kv.1 <$> ser (S d) s kv.2)
                           (List.filter (λ kv, is_defined kv.2) ps)
            | Some (CSet _) => Some (JObj [])
            | None => None
            end).
    destruct (s !! a) as [[ps|items|elems]|]; try done.
    + destruct (mapM _ _) as [ms|] eqn:E; [|done]. simpl in H.
      injection H as <-.
      assert (mapM (λ kv : string * val, pair kv.1 <$> ser (S d) s kv.2)
                (List.filter (λ kv, is_defined kv.2) ps) = Some ms) as ->; [|done].
      apply mapM_Some. apply mapM_Some in E.
      eapply Forall2_impl; [exact E|]. intros [k v] m. simpl.
      destruct (ser d s v) eqn:E'; [|done]. simpl. intros <-.
      change (pair k <$> ser (S d) s v = Some (k, j)).
      by rewrite (IH _ _ _ E').
    + destruct (mapM _ _) as [js|] eqn:E; [|done]. simpl in H.
      injection H as <-.
      assert (mapM (λ v, match v with
                         | VUndef => Some JNull
                         | _ => ser (S d) s v
                         end) items = Some js) as ->; [|done].
      apply mapM_Some. apply mapM_Some in E.
      eapply Forall2_impl; [exact E|]. intros v j0.
      destruct v; try done; apply IH.
Qed.

Lemma ser_mono d d' s v j : d ≤ d' → ser d s v = Some j → ser d' s v = Some j.
Proof. induction 1; auto using ser_more. Qed.

Lemma mapM_ext_Forall {A B} (f g : A → option B) (l : list A) :
  Forall (λ x, f x = g x) l → mapM f l = mapM g l.
Proof. induction 1 as [|x l Hx _ IH]; simpl; [done|]. by rewrite Hx, IH. Qed.

(** [ser] of a structure below [n] only reads cells below [n]. *)
Definition closed_below (n : nat) (s : store) : Prop :=
  ∀ a c, a < n → s !! a = Some c →
    match c with
    | CObj ps => Forall (λ p, match p.2 with VRef b => b < n | _ => True end) ps
    | CArr items => Forall (λ v, match v with VRef b => b < n | _ => True end) items
    | CSet _ => True
    end.

Lemma ser_agree d :
  ∀ n s s' v,
    closed_below n s → (∀ a, a < n → s' !! a = s !! a) →
    match v with VRef b => b < n | _ => True end →
    ser d s' v = ser d s v.
Proof.
  induction d as [|d IH]; intros n s s' v Hcl Hag Hv.
  - by destruct v.
  - destruct v; try done. simpl. rewrite Hag by done.
    destruct (s !! a) as [[ps|items|elems]|] eqn:Hs; try done.
    + f_equal. pose proof (Hcl _ _ Hv Hs) as Hc. simpl in Hc.
      apply mapM_ext_Forall. apply Forall_forall. intros [k v] Hin.
      apply list_elem_of_In, filter_In in Hin as [Hin _]. simpl. f_equal.
      rewrite Forall_forall in Hc. apply (IH n); auto.
      apply (Hc (k, v)). by apply list_elem_of_In.
    + f_equal. pose proof (Hcl _ _ Hv Hs) as Hc. simpl in Hc.
      apply mapM_ext_Forall. eapply Forall_impl; [exact Hc|].
      intros v Hlt. destruct v; try done; by apply (IH n).
Qed.

(** ** What a run may change

    [n0] is the first address that does not belong to the caller: the
    loader is started on a store whose cells below [n0] are the caller's.
    A value is [fresh] when it does not point below [n0]. *)

(** The names the specification calls reference keys: [*_from_glob]. *)
Fixpoint ends_with (suffix s : string) : bool :=
  String.eqb s suffix ||
  match s with
  | EmptyString => false
  | String _ r => ends_with suffix r
  end.

Definition is_reference_key (k : string) : bool := ends_with "_from_glob" k.

(** The keys the loader assigns to. *)
Definition target_keys : list string :=
  [ "_snippets"; "_snippets_imports"; "_snippets_templates";
    "_snippets_definitions"; "collections_config"; "_inputs"; "_structures";
    "values"; "schemas" ].

Section Frame.
Variable n0 : nat.

(** The keys whose absence from an object a step must preserve. *)
Variable guarded : string → bool.

Definition fresh_val (v : val) : Prop :=
  match v with VRef a => n0 ≤ a | _ => True end.

Definition fresh_cell (c : cell) : Prop :=
  match c with
  | CObj ps => Forall (λ p, fresh_val p.2) ps
  | CArr items => Forall fresh_val items
  | CSet _ => True
  end.

(** The cells that are not the caller's never point to the caller's. *)
Definition separated (s : store) : Prop :=
  n0 ≤ length s ∧ ∀ a c, n0 ≤ a → s !! a = Some c → fresh_cell c.

Record heap_step (s s' : store) : Prop :=
  { hs_low : ∀ a, a < n0 → s' !! a = s !! a;
    hs_length : length s ≤ length s';
    hs_objects : ∀ a ps, s !! a = Some (CObj ps) →
      ∃ ps', s' !! a = Some (CObj ps') ∧
             ∀ k, guarded k = true →
                  Props.get k ps = None → Props.get k ps' = None;
    hs_arrays : ∀ a items, s !! a = Some (CArr items) →
      s' !! a = Some (CArr items);
    hs_sets : ∀ a elems, s !! a = Some (CSet elems) →
      ∃ elems', s' !! a = Some (CSet elems') ∧ elems ⊆ elems' }.

Record fields_step (st st' : Loader) : Prop :=
  { fs_patterns : ∀ p, p ∈ globPatterns st' →
      p ∈ globPatterns st ∨ starts_with_bang p = false;
    fs_paths : ∀ p k, Props.get p (pathsToGlobKey st) = Some k →
      Props.get p (pathsToGlobKey st') = Some k;
    fs_keyPaths : ∀ k p, p ∈ paths_of k (globKeyToPaths st) →
      p ∈ paths_of k (globKeyToPaths st');
    fs_cycles : cycles (warnings st) `prefix_of` cycles (warnings st');
    fs_multi :
      multipleGlobKeys (warnings st) `prefix_of` multipleGlobKeys (warnings st');
    fs_arrays : arrayValues (warnings st) `prefix_of` arrayValues (warnings st');
    fs_calls : calls st `prefix_of` calls st' }.

Definition evolves (st st' : Loader) : Prop :=
  heap_step (heap st) (heap st') ∧ fields_step st st'.

Lemma heap_step_refl s : heap_step s s.
Proof. split; eauto. Qed.

Lemma heap_step_trans s1 s2 s3 :
  heap_step s1 s2 → heap_step s2 s3 → heap_step s1 s3.
Proof.
  intros [L1 N1 O1 A1 S1] [L2 N2 O2 A2 S2]. split.
  - intros a Ha. by rewrite L2, L1.
  - lia.
  - intros a ps H. destruct (O1 _ _ H) as (ps1 & H1 & K1).
    destruct (O2 _ _ H1) as (ps2 & H2 & K2). eauto.
  - eauto.
  - intros a elems H. destruct (S1 _ _ H) as (e1 & H1 & K1).
    destruct (S2 _ _ H1) as (e2 & H2 & K2). exists e2. split; [done|].
    by etrans.
Qed.

Lemma fields_step_refl st : fields_step st st.
Proof. split; eauto. Qed.

Lemma fields_step_trans st1 st2 st3 :
  fields_step st1 st2 → fields_step st2 st3 → fields_step st1 st3.
Proof.
  intros [P1 K1 G1 C1 M1 A1 H1] [P2 K2 G2 C2 M2 A2 H2].
  split; eauto; try (by etrans).
  intros p Hp. destruct (P2 _ Hp); auto.
Qed.

Lemma evolves_refl st : evolves st st.
Proof. split; [apply heap_step_refl|apply fields_step_refl]. Qed.

Lemma evolves_trans st1 st2 st3 :
  evolves st1 st2 → evolves st2 st3 → evolves st1 st3.
Proof.
  intros [? ?] [? ?].
  split; eauto using heap_step_trans, fields_step_trans.
Qed.

(** *** Steps of the store *)

Lemma heap_step_app s new : n0 ≤ length s → heap_step s (s ++ new).
Proof.
  intros Hn. split.
  - intros a Ha. apply lookup_app_l. lia.
  - rewrite length_app. lia.
  - intros a ps H. exists ps. split; [by apply lookup_app_l_Some|done].
  - intros a items H. by apply lookup_app_l_Some.
  - intros a elems H. exists elems. split; [by apply lookup_app_l_Some|done].
Qed.

(** A cell update that keeps the kind of the cell, adds no reference key
    to an object and removes nothing from a set. *)
Definition gentle (f : cell → cell) : Prop :=
  ∀ c, match c, f c with
       | CObj ps, CObj ps' =>
           ∀ k, guarded k = true →
                Props.get k ps = None → Props.get k ps' = None
       | CArr items, CArr items' => items' = items
       | CSet elems, CSet elems' => elems ⊆ elems'
       | _, _ => False
       end.

Lemma update_cell_lookup a f (s : store) b :
  update_cell a f s !! b
  = if decide (a = b) then f <$> s !! a else s !! b.
Proof.
  unfold update_cell. destruct (s !! a) as [c|] eqn:E.
  - case_decide as Hab.
    + subst b. rewrite list_lookup_insert_eq; [done|].
      by eapply lookup_lt_Some.
    + by rewrite list_lookup_insert_ne.
  - case_decide; [by subst|done].
Qed.

Lemma update_cell_length a f (s : store) :
  length (update_cell a f s) = length s.
Proof. unfold update_cell. destruct (s !! a); [apply length_insert|done]. Qed.

Lemma heap_step_update a f s :
  n0 ≤ a → gentle f → heap_step s (update_cell a f s).
Proof.
  intros Ha Hf. split.
  - intros b Hb. rewrite update_cell_lookup. case_decide; [lia|done].
  - by rewrite update_cell_length.
  - intros b ps H. rewrite update_cell_lookup. case_decide; [|by exists ps].
    subst b. rewrite H. simpl. specialize (Hf (CObj ps)). simpl in Hf.
    destruct (f (CObj ps)); try done. eauto.
  - intros b items H. rewrite update_cell_lookup. case_decide; [|eauto].
    subst b. rewrite H. simpl. specialize (Hf (CArr items)). simpl in Hf.
    destruct (f (CArr items)); try done. by subst.
  - intros b elems H. rewrite update_cell_lookup.
    case_decide; [|by exists elems].
    subst b. rewrite H. simpl. specialize (Hf (CSet elems)). simpl in Hf.
    destruct (f (CSet elems)); try done. eauto.
Qed.

Lemma separated_app s new :
  separated s → Forall fresh_cell new → separated (s ++ new).
Proof.
  intros [Hn Hs] Hnew. split; [rewrite length_app; lia|].
  intros a c Ha. rewrite lookup_app. destruct (s !! a) eqn:E.
  - intros [= <-]. eauto.
  - intros H. rewrite Forall_forall in Hnew. apply Hnew.
    by eapply list_elem_of_lookup_2.
Qed.

Lemma separated_update a f s :
  separated s → (∀ c, fresh_cell c → fresh_cell (f c)) →
  separated (update_cell a f s).
Proof.
  intros [Hn Hs] Hf. split; [by rewrite update_cell_length|].
  intros b c Hb. rewrite update_cell_lookup. case_decide; [|eauto].
  subst b. destruct (s !! a) eqn:E; [|done]. intros [= <-]. eauto.
Qed.

Lemma alloc_json_fresh j :
  ∀ s v new, n0 ≤ length s → alloc_json j s = (v, s ++ new) →
  fresh_val v ∧ Forall fresh_cell new.
Proof.
  induction j as [| | | |items IH|members IH] using json_induction;
    intros s v new Hn;
    try (intros [= <- Hs]; split; [done|];
         apply (f_equal length) in Hs; rewrite length_app in Hs;
         destruct new; [constructor|simpl in Hs; lia]).
  - rewrite alloc_json_arr.
    destruct (alloc_items items s) as [vs s1] eqn:E. unfold alloc_cell.
    intros [= <- Hs].
    assert (∀ s vs new1, n0 ≤ length s →
              alloc_items items s = (vs, s ++ new1) →
              Forall fresh_val vs ∧ Forall fresh_cell new1) as Hitems.
    { clear s vs s1 new Hn E Hs.
      induction IH as [|x r Hx _ IHr]; intros s vs new1 Hn; simpl.
      - intros [= <- Hs]. split; [constructor|].
        apply (f_equal length) in Hs. rewrite length_app in Hs.
        destruct new1; [constructor|simpl in Hs; lia].
      - destruct (alloc_json x s) as [v1 sa] eqn:E1.
        destruct (alloc_items r sa) as [vs' sb] eqn:E2. intros [= <- Hs].
        pose proof (alloc_json_extends _ _ _ _ E1) as [n1 ->].
        pose proof (alloc_items_extends _ _ _ _ E2) as [n2 ->].
        rewrite <- app_assoc in Hs. apply app_inv_head in Hs. subst new1.
        destruct (Hx _ _ _ Hn E1) as [? ?].
        destruct (IHr (s ++ n1) vs' n2) as [? ?]; [rewrite length_app; lia|done|].
        split; [by constructor|by apply Forall_app]. }
    pose proof (alloc_items_extends _ _ _ _ E) as [n1 ->].
    rewrite <- app_assoc in Hs. apply app_inv_head in Hs. subst new.
    destruct (Hitems _ _ _ Hn E) as [? ?]. split.
    + simpl. rewrite length_app. lia.
    + apply Forall_app. split; [done|]. by repeat constructor.
  - rewrite alloc_json_obj.
    destruct (alloc_members members s) as [ps s1] eqn:E. unfold alloc_cell.
    intros [= <- Hs].
    assert (∀ s ps new1, n0 ≤ length s →
              alloc_members members s = (ps, s ++ new1) →
              Forall (λ p, fresh_val p.2) ps ∧ Forall fresh_cell new1)
      as Hmembers.
    { clear s ps s1 new Hn E Hs.
      induction IH as [|[k x] r Hx _ IHr]; intros s ps new1 Hn; simpl.
      - intros [= <- Hs]. split; [constructor|].
        apply (f_equal length) in Hs. rewrite length_app in Hs.
        destruct new1; [constructor|simpl in Hs; lia].
      - destruct (alloc_json x s) as [v1 sa] eqn:E1.
        destruct (alloc_members r sa) as [ps' sb] eqn:E2. intros [= <- Hs].
        pose proof (alloc_json_extends _ _ _ _ E1) as [n1 ->].
        pose proof (alloc_members_extends _ _ _ _ E2) as [n2 ->].
        rewrite <- app_assoc in Hs. apply app_inv_head in Hs. subst new1.
        destruct (Hx _ _ _ Hn E1) as [? ?].
        destruct (IHr (s ++ n1) ps' n2) as [? ?]; [rewrite length_app; lia|done|].
        split; [by constructor|by apply Forall_app]. }
    pose proof (alloc_members_extends _ _ _ _ E) as [n1 ->].
    rewrite <- app_assoc in Hs. apply app_inv_head in Hs. subst new.
    destruct (Hmembers _ _ _ Hn E) as [? ?]. split.
    + simpl. rewrite length_app. lia.
    + apply Forall_app. split; [done|]. by repeat constructor.
Qed.

End Frame.

(** ** Every computation of the loader respects the frame *)

Module CL := ConfigurationLoader.

Section Soundness.
Variable n0 : nat.
Variable guarded : string → bool.
Variable localeCompare : string → string → Z.
Variable options : MergeConfigurationOptions.

(** No key that the loader assigns to is guarded. *)
Hypothesis targets_unguarded : ∀ k, In k target_keys → guarded k = false.

Ltac unguarded :=
  apply targets_unguarded; simpl; repeat (first [by left | right]).

Definition inv (st : Loader) : Prop := separated n0 (heap st).

(** From [st], [m] keeps the invariant, only takes steps that [evolves]
    allows, and returns a result that satisfies [Q]. *)
Definition run_ok {A} (st : Loader) (m : M A) (Q : A → Prop) : Prop :=
  match m st with
  | Ok a st' => inv st' ∧ evolves n0 guarded st st' ∧ Q a
  | Thrown _ st' | OutOfFuel st' => inv st' ∧ evolves n0 guarded st st'
  end.

Definition sound {A} (m : M A) (Q : A → Prop) : Prop :=
  ∀ st, inv st → run_ok st m Q.

Lemma run_ok_bind {A B} st (m : M A) (f : A → M B) P Q :
  run_ok st m P →
  (∀ a st', m st = Ok a st' → inv st' → P a → run_ok st' (f a) Q) →
  run_ok st (m ≫= f) Q.
Proof.
  unfold run_ok, mbind, M_bind. destruct (m st) as [a st'|e st'|st'];
    try done.
  intros (Hinv & Hev & HP) Hf. specialize (Hf a st' eq_refl Hinv HP).
  destruct (f a st') as [b st''|e st''|st''].
  - destruct Hf as (? & ? & ?). eauto using evolves_trans.
  - destruct Hf as (? & ?). eauto using evolves_trans.
  - destruct Hf as (? & ?). eauto using evolves_trans.
Qed.

Lemma run_ok_weaken {A} st (m : M A) (P Q : A → Prop) :
  run_ok st m P → (∀ a, P a → Q a) → run_ok st m Q.
Proof.
  unfold run_ok. destruct (m st); try done. intros (? & ? & ?) HPQ; auto.
Qed.

Lemma sound_ret {A} (a : A) (Q : A → Prop) : Q a → sound (mret a) Q.
Proof. intros HQ st Hinv. split; [done|]. split; [apply evolves_refl|done]. Qed.

Lemma sound_bind {A B} (m : M A) (f : A → M B) P Q :
  sound m P → (∀ a, P a → sound (f a) Q) → sound (m ≫= f) Q.
Proof.
  intros Hm Hf st Hinv. eapply run_ok_bind; [by apply Hm|].
  intros a st' _ Hinv' HP. by apply Hf.
Qed.

Lemma sound_weaken {A} (m : M A) (P Q : A → Prop) :
  sound m P → (∀ a, P a → Q a) → sound m Q.
Proof. intros Hm H st Hinv. eapply run_ok_weaken; eauto. Qed.

Lemma sound_throw {A} e (Q : A → Prop) : sound (throw e) Q.
Proof. intros st Hinv. split; [done|apply evolves_refl]. Qed.

Lemma sound_out_of_fuel {A} (Q : A → Prop) : sound out_of_fuel Q.
Proof. intros st Hinv. split; [done|apply evolves_refl]. Qed.

Lemma sound_gets {A} (f : Loader → A) (Q : A → Prop) :
  (∀ st, inv st → Q (f st)) → sound (gets f) Q.
Proof.
  intros HQ st Hinv. split; [done|]. split; [apply evolves_refl|auto].
Qed.

Lemma sound_when (b : bool) (m : M unit) :
  sound m (λ _, True) → sound (when b m) (λ _, True).
Proof. destruct b; [done|]. intros _. by apply sound_ret. Qed.

Lemma sound_forM_ {A} (R : A → Prop) (l : list A) (f : A → M unit) :
  Forall R l → (∀ x, R x → sound (f x) (λ _, True)) →
  sound (forM_ l f) (λ _, True).
Proof.
  intros Hl Hf. induction Hl as [|x l Hx _ IH]; simpl.
  - by apply sound_ret.
  - eapply sound_bind; [by apply Hf|]. intros _ _. apply IH.
Qed.

Lemma sound_foldM {A B} (R : A → Prop) (I : B → Prop) (l : list A)
    (f : B → A → M B) (b : B) :
  I b → Forall R l → (∀ b x, I b → R x → sound (f b x) I) →
  sound (foldM f b l) I.
Proof.
  intros Hb Hl Hf. revert b Hb. induction Hl as [|x l Hx _ IH]; simpl.
  - intros b Hb. by apply sound_ret.
  - intros b Hb. eapply sound_bind; [by apply Hf|]. intros b' Hb'. by apply IH.
Qed.

(** *** The store *)

Local Abbreviation fresh := (fresh_val n0).

Lemma fresh_lookup st a c :
  inv st → n0 ≤ a → heap st !! a = Some c → fresh_cell n0 c.
Proof. intros [_ H]. apply H. Qed.

Lemma Forall_indexed {A} (P : A → Prop) (l : list A) :
  Forall P l → Forall (λ p, P p.2) (Props.indexed l).
Proof.
  intros Hl. unfold Props.indexed. apply Forall_forall. intros [k x] Hin.
  apply list_elem_of_lookup in Hin as [i Hi].
  rewrite list_lookup_imap in Hi.
  destruct (l !! i) eqn:E; [|done]. simpl in Hi. injection Hi as <- <-.
  rewrite Forall_forall in Hl. apply Hl. by eapply list_elem_of_lookup_2.
Qed.

Lemma fresh_chars x : Forall fresh (chars x).
Proof. unfold chars. apply Forall_fmap. by apply Forall_true. Qed.

Lemma fresh_own_props st v :
  inv st → fresh v → Forall (λ p, fresh p.2) (own_props (heap st) v).
Proof.
  intros Hinv Hv. destruct v; try (by constructor).
  - simpl. apply Forall_indexed, fresh_chars.
  - simpl. destruct (heap st !! a) as [[ps|items|elems]|] eqn:E;
      try (by constructor).
    + by apply (fresh_lookup st a (CObj ps)).
    + apply Forall_indexed. by apply (fresh_lookup st a (CArr items)).
Qed.

Lemma fresh_array_items st v items :
  inv st → fresh v → array_items (heap st) v = Some items →
  Forall fresh items.
Proof.
  intros Hinv Hv. destruct v; try done. simpl.
  destruct (heap st !! a) as [[ps|items'|elems]|] eqn:E; try done.
  intros [= <-]. by apply (fresh_lookup st a (CArr items')).
Qed.

Lemma fresh_iterate st v items :
  inv st → fresh v → iterate (heap st) v = Some items → Forall fresh items.
Proof.
  intros Hinv Hv. destruct v; try done; simpl.
  - intros [= <-]. apply fresh_chars.
  - destruct (heap st !! a) as [[ps|items'|elems]|] eqn:E; try done.
    + intros [= <-]. by apply (fresh_lookup st a (CArr items')).
    + intros [= <-]. apply Forall_fmap. by apply Forall_true.
Qed.

Lemma fresh_read_prop st o k v :
  inv st → fresh o → read_prop (heap st) o k = Some v → fresh v.
Proof.
  intros Hinv Ho. destruct o; try done; simpl; try (by intros [= <-]).
  destruct (heap st !! a) as [[ps|items|elems]|] eqn:E;
    try (by intros [= <-]).
  intros [= <-]. destruct (Props.get k ps) as [v|] eqn:Hg; [|done]. simpl.
  pose proof (fresh_lookup st a (CObj ps) Hinv Ho E) as Hps. simpl in Hps.
  rewrite Forall_forall in Hps.
  apply (Hps (k, v)). apply list_elem_of_In. by apply PropsFacts.get_Some_In.
Qed.

Lemma sound_isObject v : sound (isObject v) (λ _, True).
Proof. by apply sound_gets. Qed.

Lemma sound_hasProp o k : sound (hasProp o k) (λ _, True).
Proof. by apply sound_gets. Qed.

Lemma sound_arrayItems v :
  fresh v →
  sound (arrayItems v)
    (λ r, match r with Some items => Forall fresh items | None => True end).
Proof.
  intros Hv. apply sound_gets. intros st Hinv.
  destruct (array_items _ _) eqn:E; [|done]. by eapply fresh_array_items.
Qed.

Lemma sound_ownProps v :
  fresh v → sound (ownProps v) (Forall (λ p, fresh p.2)).
Proof. intros Hv. apply sound_gets. intros st Hinv. by apply fresh_own_props. Qed.

Lemma sound_getProp o k : fresh o → sound (getProp o k) fresh.
Proof.
  intros Ho st Hinv. unfold run_ok, getProp.
  destruct (read_prop _ _ _) eqn:E.
  - split; [done|]. split; [apply evolves_refl|]. by eapply fresh_read_prop.
  - split; [done|apply evolves_refl].
Qed.

Lemma evolves_with_heap st f :
  heap_step n0 guarded (heap st) (f (heap st)) → evolves n0 guarded st (with_heap f st).
Proof. intros H. split; [done|]. split; simpl; eauto. Qed.

Lemma sound_alloc c :
  fresh_cell n0 c → sound (alloc c) fresh.
Proof.
  intros Hc st Hinv. unfold run_ok, alloc. split; [|split].
  - apply separated_app; [done|]. by repeat constructor.
  - apply evolves_with_heap. apply heap_step_app. apply Hinv.
  - simpl. apply Hinv.
Qed.

Lemma sound_JSON_parse j : sound (JSON_parse j) fresh.
Proof.
  intros st Hinv. unfold run_ok, JSON_parse.
  destruct (alloc_json j (heap st)) as [v s] eqn:E.
  pose proof (alloc_json_extends _ _ _ _ E) as [new ->].
  destruct (alloc_json_fresh n0 _ _ _ _ (proj1 Hinv) E) as [Hv Hnew].
  split; [|split]; [|apply (evolves_with_heap st (λ _, _))|done].
  - by apply separated_app.
  - apply heap_step_app. apply Hinv.
Qed.

Lemma sound_on_object o f :
  fresh o →
  (∀ ps, Forall (λ p, fresh p.2) ps → Forall (λ p, fresh p.2) (f ps)) →
  (∀ ps k, guarded k = true →
           Props.get k ps = None → Props.get k (f ps) = None) →
  sound (on_object o f) (λ _, True).
Proof.
  intros Ho Hf Hk st Hinv. destruct o; try (by apply sound_ret).
  unfold run_ok, on_object, modify. split; [|split]; [| |done].
  - apply separated_update; [done|]. intros [ps|items|elems]; simpl; auto.
  - apply evolves_with_heap. apply heap_step_update; [done|].
    intros [ps|items|elems]; simpl; auto.
Qed.

Lemma sound_setProp o k v :
  fresh o → fresh v → guarded k = false →
  sound (setProp o k v) (λ _, True).
Proof.
  intros Ho Hv Hk. apply sound_on_object; [done| |].
  - intros ps Hps. apply Forall_forall. intros p Hin.
    apply list_elem_of_In, PropsFacts.In_set in Hin as [->|Hin]; [done|].
    rewrite Forall_forall in Hps. by apply Hps, list_elem_of_In.
  - intros ps k' Hk' Hnone. rewrite PropsFacts.get_set_other; [done|].
    intros ->. congruence.
Qed.

Lemma sound_deleteProp o k :
  fresh o → sound (deleteProp o k) (λ _, True).
Proof.
  intros Ho. apply sound_on_object; [done| |].
  - intros ps Hps. apply Forall_forall. intros p Hin.
    apply list_elem_of_In, PropsFacts.In_remove in Hin.
    rewrite Forall_forall in Hps. by apply Hps, list_elem_of_In.
  - intros ps k' Hk' Hnone. destruct (decide (k = k')) as [->|Hne].
    + apply PropsFacts.get_remove_same.
    + by rewrite PropsFacts.get_remove_other.
Qed.

(** *** Visitation chains *)

Definition fresh_set (visited : option addr) : Prop :=
  match visited with Some vis => n0 ≤ vis | None => True end.

Lemma sound_newSet : sound newSet (λ a, n0 ≤ a).
Proof.
  intros st Hinv. unfold run_ok, newSet. split; [|split].
  - apply separated_app; [done|]. by repeat constructor.
  - apply evolves_with_heap. apply heap_step_app. apply Hinv.
  - apply Hinv.
Qed.

Lemma sound_setAdd a x : n0 ≤ a → sound (setAdd a x) (λ _, True).
Proof.
  intros Ha st Hinv. unfold run_ok, setAdd, modify. split; [|split]; [| |done].
  - apply separated_update; [done|]. intros [ps|items|elems]; simpl; auto.
  - apply evolves_with_heap. apply heap_step_update; [done|].
    intros [ps|items|elems]; simpl; auto.
    unfold StrSet.add. destruct (StrSet.has x elems); [done|].
    intros y Hy. apply elem_of_app. by left.
Qed.

Lemma sound_visitedOrNew visited :
  fresh_set visited → sound (CL.visitedOrNew visited) (λ a, n0 ≤ a).
Proof.
  destruct visited; simpl; [|intros _; apply sound_newSet].
  intros Ha. by apply sound_ret.
Qed.

(** *** Fields and collaborators *)

Lemma sound_modify_fields (g : Loader → Loader) :
  (∀ st, heap (g st) = heap st) → (∀ st, fields_step st (g st)) →
  sound (modify g) (λ _, True).
Proof.
  intros Hheap Hstep st Hinv. unfold run_ok, modify, inv.
  rewrite Hheap. split; [done|]. split; [|done].
  split; [|done]. rewrite Hheap. apply heap_step_refl.
Qed.

Lemma sound_pushCycle w : sound (CL.pushCycle w) (λ _, True).
Proof.
  apply sound_modify_fields; [done|]. intros st. split; simpl; eauto.
  by apply prefix_app_r.
Qed.

Lemma sound_pushMultipleGlobKeys w : sound (CL.pushMultipleGlobKeys w) (λ _, True).
Proof.
  apply sound_modify_fields; [done|]. intros st. split; simpl; eauto.
  by apply prefix_app_r.
Qed.

Lemma sound_pushArrayValue w : sound (CL.pushArrayValue w) (λ _, True).
Proof.
  apply sound_modify_fields; [done|]. intros st. split; simpl; eauto.
  by apply prefix_app_r.
Qed.

Lemma sound_callFindFilesMatchingGlobs globs :
  sound (CL.callFindFilesMatchingGlobs options globs) (λ _, True).
Proof.
  assert (∀ st, fields_step st (with_calls (λ h, h ++ [FindCall globs]) st))
    as Hstep.
  { intros st. split; simpl; eauto. by apply prefix_app_r. }
  intros st Hinv. unfold run_ok, CL.callFindFilesMatchingGlobs.
  destruct (findFilesMatchingGlobs _ _ _); (split; [done|]);
    [split; [|done]|]; (split; [apply heap_step_refl|apply Hstep]).
Qed.

Lemma sound_callLoadConfigFile filePath :
  sound (CL.callLoadConfigFile options filePath) (λ _, True).
Proof.
  intros st Hinv. unfold run_ok, CL.callLoadConfigFile.
  split; [done|]. split; [|done]. split; [apply heap_step_refl|].
  split; simpl; eauto. by apply prefix_app_r.
Qed.

Lemma sound_trackPattern pattern : sound (CL.trackPattern pattern) (λ _, True).
Proof.
  destruct pattern; try (by apply sound_ret). simpl.
  destruct (starts_with_bang s) eqn:E; simpl; [by apply sound_ret|].
  apply sound_modify_fields; [done|]. intros st. split; simpl; eauto.
  intros p. unfold StrSet.add. destruct (StrSet.has s (globPatterns st)); [auto|].
  rewrite elem_of_app, list_elem_of_singleton. intros [?| ->]; auto.
Qed.

Lemma paths_of_add_path k k' p (m : list (GlobTypeKey * list string)) x :
  x ∈ paths_of k m → x ∈ paths_of k (add_path k' p m).
Proof.
  unfold paths_of, add_path. induction m as [|[k0 ps] m IH]; simpl; [done|].
  destruct (bool_decide (k0 = k)) eqn:E0; simpl.
  - destruct (bool_decide (k0 = k')) eqn:E1; simpl; rewrite E0; simpl; [|done].
    unfold StrSet.add. destruct (StrSet.has p ps); [done|].
    intros Hx. apply elem_of_app. by left.
  - destruct (bool_decide (k0 = k')) eqn:E1; simpl; by rewrite E0.
Qed.

(** *** The methods *)

Local Abbreviation fresh_props := (Forall (λ p : string * val, fresh p.2)).
Local Abbreviation fresh_loaded := (Forall (λ p : val * string, fresh p.1)).

Lemma fresh_props_set k v ps :
  fresh_props ps → fresh v → fresh_props (Props.set k v ps).
Proof.
  intros Hps Hv. apply Forall_forall. intros p Hin.
  apply list_elem_of_In, PropsFacts.In_set in Hin as [->|Hin]; [done|].
  rewrite Forall_forall in Hps. by apply Hps, list_elem_of_In.
Qed.

Lemma sound_withSource value source :
  fresh value → sound (CL.withSource value source) fresh.
Proof.
  intros Hv. eapply sound_bind; [by apply sound_ownProps|].
  intros ps Hps. apply sound_alloc. simpl. by apply fresh_props_set.
Qed.

Lemma sound_mergeObjectValues base loaded :
  fresh base → fresh_loaded loaded →
  sound (CL.mergeObjectValues base loaded) fresh.
Proof.
  intros Hbase Hloaded. eapply sound_bind; [by apply sound_ownProps|].
  intros copy Hcopy.
  eapply sound_bind; [|intros result Hres; by apply sound_alloc].
  eapply (sound_foldM (λ p, fresh p.1) fresh_props); [done|done|].
  intros result [item source] Hres Hitem. simpl in Hitem.
  eapply sound_bind; [apply sound_isObject|]. intros [] _;
    [|by apply sound_ret].
  eapply sound_bind; [by apply sound_ownProps|]. intros entries Hentries.
  eapply (sound_foldM (λ p, fresh p.2) fresh_props); [done|done|].
  intros result' [key value] Hres' Hvalue. simpl in Hvalue.
  eapply sound_bind; [apply sound_isObject|]. intros [] _.
  - eapply sound_bind; [by apply sound_withSource|]. intros stamped Hst.
    apply sound_ret. by apply fresh_props_set.
  - apply sound_ret. by apply fresh_props_set.
Qed.

Lemma sound_pushElement source result element :
  Forall fresh result → fresh element →
  sound (CL.pushElement source result element) (Forall fresh).
Proof.
  intros Hres Hel. eapply sound_bind; [apply sound_isObject|]. intros [] _.
  - eapply sound_bind; [by apply sound_withSource|]. intros stamped Hst.
    apply sound_ret. apply Forall_app. by repeat constructor.
  - apply sound_ret. apply Forall_app. by repeat constructor.
Qed.

Lemma sound_mergeArrayValues base loaded :
  fresh base → fresh_loaded loaded →
  sound (CL.mergeArrayValues base loaded) fresh.
Proof.
  intros Hbase Hloaded.
  eapply (sound_bind _ _ (λ r, match r with
                               | Some items => Forall fresh items
                               | None => True
                               end)).
  { apply sound_gets. intros st Hinv.
    destruct (iterate _ _) eqn:E; [|done]. by eapply fresh_iterate. }
  intros spread Hspread.
  eapply (sound_bind _ _ (Forall fresh)).
  { destruct spread; [by apply sound_ret|apply sound_throw]. }
  intros copy Hcopy.
  eapply sound_bind; [|intros result Hres; by apply sound_alloc].
  eapply (sound_foldM (λ p, fresh p.1) (Forall fresh)); [done|done|].
  intros result [item source] Hres Hitem. simpl in Hitem.
  eapply sound_bind; [by apply sound_arrayItems|]. intros [elements|] Hel.
  - eapply (sound_foldM fresh (Forall fresh)); [done|done|].
    intros. by apply sound_pushElement.
  - by apply sound_pushElement.
Qed.

Lemma sound_resumeLoad loadedData filePath data :
  fresh_loaded loadedData →
  sound (CL.resumeLoad loadedData filePath data) fresh_loaded.
Proof.
  intros Hloaded.
  destruct data as [|[document|]]; try (by apply sound_ret).
  eapply sound_bind; [apply sound_JSON_parse|].
  intros cloned Hcl. eapply sound_bind; [by apply sound_arrayItems|].
  intros [items|] _.
  - eapply sound_bind; [apply sound_pushArrayValue|]. intros _ _.
    by apply sound_ret.
  - apply sound_ret. apply Forall_app. by repeat constructor.
Qed.

Lemma sound_afterClaim globKey visited loadedData filePath :
  fresh_set visited → fresh_loaded loadedData →
  sound (modify (with_globKeyToPaths (add_path globKey filePath));;
         match visited with
         | Some vis => setAdd vis filePath
         | None => mret tt
         end;;
         CL.awaitLoad options
           {| awaited := filePath;
              resume := CL.resumeLoad loadedData filePath |}) fresh_loaded.
Proof.
  intros Hvis Hloaded.
  eapply sound_bind.
  { apply sound_modify_fields; [done|]. intros st. split; simpl; eauto.
    intros k p. apply paths_of_add_path. }
  intros _ _. eapply sound_bind.
  { destruct visited; [by apply sound_setAdd|by apply sound_ret]. }
  intros _ _. unfold CL.awaitLoad. simpl awaited. simpl resume.
  eapply sound_bind; [apply sound_callLoadConfigFile|].
  intros data _. by apply sound_resumeLoad.
Qed.

Lemma sound_claimAndLoad st globKey visited loadedData filePath :
  inv st → fresh_set visited → fresh_loaded loadedData →
  (∀ k, Props.get filePath (pathsToGlobKey st) = Some k → k = globKey) →
  run_ok st (CL.claimAndLoad options globKey visited loadedData filePath)
    fresh_loaded.
Proof.
  intros Hinv Hvis Hloaded Hclaim.
  assert (CL.claimAndLoad options globKey visited loadedData filePath st
          = (modify (with_pathsToGlobKey (Props.set filePath globKey));;
             modify (with_globKeyToPaths (add_path globKey filePath));;
             match visited with
             | Some vis => setAdd vis filePath
             | None => mret tt
             end;;
             CL.awaitLoad options
               {| awaited := filePath;
                  resume := CL.resumeLoad loadedData filePath |}) st) as Heq.
  { unfold CL.claimAndLoad, CL.claimUntilAwait, mbind, M_bind, modify.
    by destruct visited. }
  unfold run_ok. rewrite Heq. fold (run_ok st
    (modify (with_pathsToGlobKey (Props.set filePath globKey));;
     modify (with_globKeyToPaths (add_path globKey filePath));;
     match visited with
     | Some vis => setAdd vis filePath
     | None => mret tt
     end;;
     CL.awaitLoad options
       {| awaited := filePath;
          resume := CL.resumeLoad loadedData filePath |}) fresh_loaded).
  eapply (run_ok_bind _ _ _ (λ _, True)).
  - unfold run_ok, modify. split; [done|]. split; [|done].
    split; [apply heap_step_refl|]. split; simpl; eauto.
    intros p k Hp. destruct (decide (filePath = p)) as [<-|Hne].
    + rewrite PropsFacts.get_set_same. f_equal. symmetry. by apply Hclaim.
    + by rewrite PropsFacts.get_set_other.
  - intros _ st' _ Hinv' _. by apply sound_afterClaim.
Qed.

Lemma sound_loadFile globKey visited loadedData filePath :
  fresh_set visited → fresh_loaded loadedData →
  sound (CL.loadFile options globKey visited loadedData filePath) fresh_loaded.
Proof.
  intros Hvis Hloaded st Hinv. unfold CL.loadFile.
  eapply (run_ok_bind _ _ _ (λ _, True)).
  { destruct visited; [by apply sound_gets|by apply sound_ret]. }
  intros [] st1 _ Hinv1 _.
  { eapply (run_ok_bind _ _ _ (λ _, True)).
    { destruct visited; [by apply sound_gets|by apply sound_ret]. }
    intros snapshot st2 _ Hinv2 _.
    eapply run_ok_bind; [by apply sound_pushCycle|].
    intros _ st3 _ Hinv3 _. by apply sound_ret. }
  eapply (run_ok_bind _ _ _ (λ _, True)); [by apply sound_gets|].
  intros existing st2 Hget Hinv2 _. injection Hget as <- <-.
  destruct (Props.get filePath (pathsToGlobKey st1)) as [existing|] eqn:E.
  - case_bool_decide as Hne.
    + eapply run_ok_bind; [by apply sound_pushMultipleGlobKeys|].
      intros _ st3 _ Hinv3 _. by apply sound_ret.
    + apply sound_claimAndLoad; try done. intros k. rewrite E.
      intros [= <-]. destruct (decide (existing = globKey)); [done|].
      by destruct Hne.
  - apply sound_claimAndLoad; try done. intros k. by rewrite E.
Qed.

Lemma sound_loadFilesFromGlobs globs globKey visited :
  fresh_set visited →
  sound (CL.loadFilesFromGlobs localeCompare options globs globKey visited)
    fresh_loaded.
Proof.
  intros Hvis.
  eapply sound_bind; [apply sound_callFindFilesMatchingGlobs|].
  intros files _.
  eapply (sound_foldM (λ _, True) fresh_loaded);
    [constructor|by apply Forall_true|].
  intros. by apply sound_loadFile.
Qed.

Lemma sound_importFromGlobKey config globKey targetKey isArray visited :
  fresh config → guarded targetKey = false → fresh_set visited →
  sound (CL.importFromGlobKey localeCompare options config globKey targetKey
           isArray visited) (λ _, True).
Proof.
  intros Hconfig Htarget Hvis.
  eapply sound_bind; [by apply sound_getProp|]. intros globs Hglobs.
  eapply sound_bind; [by apply sound_arrayItems|].
  intros [patterns|] Hpatterns; [|by apply sound_ret].
  eapply sound_bind.
  { eapply (sound_forM_ (λ _, True)); [by apply Forall_true|].
    intros. apply sound_trackPattern. }
  intros _ _. eapply sound_bind; [by apply sound_loadFilesFromGlobs|].
  intros loaded Hloaded.
  eapply sound_bind; [by apply sound_getProp|]. intros target Htgt.
  eapply (sound_bind _ _ fresh).
  { destruct isArray.
    - eapply (sound_bind _ _ fresh).
      + destruct (truthy target); [by apply sound_ret|].
        apply sound_alloc. constructor.
      + intros base Hbase. by apply sound_mergeArrayValues.
    - eapply (sound_bind _ _ fresh).
      + destruct (truthy target); [by apply sound_ret|].
        apply sound_alloc. constructor.
      + intros base Hbase. by apply sound_mergeObjectValues. }
  intros merged Hmerged.
  eapply sound_bind; [by apply sound_setProp|]. intros _ _.
  by apply sound_deleteProp.
Qed.

(** *** The walker *)

Local Abbreviation quiet := (λ _ : unit, True).

Lemma sound_processStructureValueWith rec structureValue visited :
  (∀ inputs vis, fresh inputs → fresh_set vis → sound (rec inputs vis) quiet) →
  fresh structureValue → n0 ≤ visited →
  sound (CL.processStructureValueWith localeCompare options rec
           structureValue visited) quiet.
Proof.
  intros Hrec Hv Hvis.
  eapply sound_bind; [apply sound_isObject|]. intros [] _;
    [|by apply sound_ret].
  eapply sound_bind; [by apply sound_getProp|]. intros fromGlob _.
  eapply sound_bind.
  { apply sound_when. apply sound_importFromGlobKey; [done|unguarded|done]. }
  intros _ _. eapply sound_bind; [by apply sound_getProp|]. intros inputs Hin.
  apply sound_when. by apply Hrec.
Qed.

Lemma sound_processInputsKey fuel :
  ∀ inputs visited, fresh inputs → fresh_set visited →
  sound (CL.processInputsKey localeCompare options fuel inputs visited) quiet.
Proof.
  induction fuel as [|fuel IH]; intros inputs visited Hin Hvis;
    [apply sound_out_of_fuel|]. simpl.
  eapply sound_bind; [apply sound_isObject|]. intros [] _;
    [|by apply sound_ret].
  eapply sound_bind; [by apply sound_ownProps|]. intros inputValues Hvals.
  eapply (sound_forM_ fresh); [by apply Forall_fmap|].
  intros inputValue Hiv.
  eapply sound_bind; [apply sound_isObject|]. intros [] _;
    [|by apply sound_ret].
  eapply sound_bind; [by apply sound_getProp|]. intros inputOptions Hopt.
  eapply sound_bind; [apply sound_isObject|]. intros [] _;
    [|by apply sound_ret].
  eapply sound_bind; [by apply sound_getProp|]. intros structures Hstr.
  eapply sound_bind; [by apply sound_visitedOrNew|]. intros visitedLocal Hvl.
  eapply sound_bind; [apply sound_isObject|]. intros [] _;
    [|by apply sound_ret].
  eapply sound_bind; [by apply sound_getProp|]. intros fromGlob _.
  eapply sound_bind.
  { apply sound_when. apply sound_importFromGlobKey; [done|unguarded|done]. }
  intros _ _. eapply sound_bind; [by apply sound_getProp|]. intros values Hv.
  eapply sound_bind; [by apply sound_arrayItems|].
  intros [items|] Hitems; [|by apply sound_ret].
  eapply (sound_forM_ fresh); [done|]. intros value Hvalue.
  by apply sound_processStructureValueWith.
Qed.

Lemma sound_processStructureValue fuel structureValue visited :
  fresh structureValue → n0 ≤ visited →
  sound (CL.processStructureValue localeCompare options fuel
           structureValue visited) quiet.
Proof.
  intros. apply sound_processStructureValueWith; try done.
  intros. by apply sound_processInputsKey.
Qed.

Lemma sound_processStructuresKey fuel structures visited :
  fresh structures → fresh_set visited →
  sound (CL.processStructuresKey localeCompare options fuel structures visited)
    quiet.
Proof.
  intros Hs Hvis.
  eapply sound_bind; [apply sound_isObject|]. intros [] _;
    [|by apply sound_ret].
  eapply sound_bind; [by apply sound_ownProps|]. intros entries Hentries.
  eapply (sound_forM_ fresh); [by apply Forall_fmap|].
  intros structure Hstructure.
  eapply sound_bind; [apply sound_isObject|]. intros [] _;
    [|by apply sound_ret].
  eapply sound_bind; [by apply sound_visitedOrNew|]. intros visitedLocal Hvl.
  eapply sound_bind; [apply sound_importFromGlobKey; [done|unguarded|done]|]. intros _ _.
  eapply sound_bind; [by apply sound_getProp|]. intros values Hv.
  eapply sound_bind; [by apply sound_arrayItems|].
  intros [items|] Hitems; [|by apply sound_ret].
  eapply (sound_forM_ fresh); [done|]. intros value Hvalue.
  by apply sound_processStructureValue.
Qed.

Lemma sound_processInputsAndStructures fuel owner :
  fresh owner →
  sound (CL.processInputsAndStructures localeCompare options fuel owner) quiet.
Proof.
  intros Ho.
  eapply sound_bind; [apply sound_importFromGlobKey; [done|unguarded|done]|]. intros _ _.
  eapply sound_bind; [apply sound_importFromGlobKey; [done|unguarded|done]|]. intros _ _.
  eapply sound_bind; [by apply sound_getProp|]. intros inputs Hin.
  eapply sound_bind; [by apply sound_processInputsKey|]. intros _ _.
  eapply sound_bind; [by apply sound_getProp|]. intros structures Hs.
  by apply sound_processStructuresKey.
Qed.

Lemma sound_processSchemas fuel collection :
  fresh collection →
  sound (CL.processSchemas localeCompare options fuel collection) quiet.
Proof.
  intros Hc.
  eapply sound_bind; [by apply sound_getProp|]. intros schemas Hs.
  eapply sound_bind; [apply sound_isObject|]. intros [] _;
    [|by apply sound_ret].
  eapply sound_bind; [by apply sound_ownProps|]. intros entries Hentries.
  eapply (sound_forM_ fresh); [by apply Forall_fmap|].
  intros schemaValue Hsv.
  eapply sound_bind; [apply sound_isObject|]. intros b _.
  apply sound_when. by apply sound_processInputsAndStructures.
Qed.

Lemma sound_processCollections fuel config :
  fresh config →
  sound (CL.processCollections localeCompare options fuel config) quiet.
Proof.
  intros Hc.
  eapply sound_bind; [by apply sound_getProp|]. intros collections Hcs.
  eapply sound_bind; [apply sound_isObject|]. intros [] _;
    [|by apply sound_ret].
  eapply sound_bind; [by apply sound_ownProps|]. intros entries Hentries.
  eapply (sound_forM_ (λ p, fresh p.2)); [done|].
  intros [collectionKey collectionConfig] Hcc. simpl in Hcc.
  eapply sound_bind; [apply sound_isObject|]. intros [] _;
    [|by apply sound_ret].
  eapply sound_bind; [apply sound_hasProp|]. intros b _.
  eapply sound_bind.
  { apply sound_when. apply sound_importFromGlobKey; [done|unguarded|done]. }
  intros _ _. eapply sound_bind; [by apply sound_getProp|]. intros current Hcur.
  eapply sound_bind; [by apply sound_getProp|]. intros collection Hcol.
  eapply sound_bind; [by apply sound_processInputsAndStructures|]. intros _ _.
  by apply sound_processSchemas.
Qed.

Lemma sound_processSnippets fuel config :
  fresh config →
  sound (CL.processSnippets localeCompare options fuel config) quiet.
Proof.
  intros Hc.
  eapply sound_bind; [by apply sound_getProp|]. intros snippets Hs.
  eapply sound_bind; [apply sound_isObject|]. intros [] _;
    [|by apply sound_ret].
  eapply sound_bind; [apply sound_importFromGlobKey; [done|unguarded|done]|]. intros _ _.
  eapply sound_bind; [by apply sound_ownProps|]. intros entries Hentries.
  eapply (sound_forM_ fresh); [by apply Forall_fmap|].
  intros snippetConfig Hsc.
  eapply sound_bind; [apply sound_isObject|]. intros b _.
  apply sound_when. by apply sound_processInputsAndStructures.
Qed.

(** [mergeConfiguration] first clears [warnings] and [globPatterns]; on a
    loader that has recorded no warning yet, as the one the exported
    function builds, this is a step that [evolves] allows as well. *)
Lemma sound_mergeConfiguration fuel config st :
  inv st → fresh config → warnings st = no_warnings →
  run_ok st (CL.mergeConfiguration localeCompare options fuel config) fresh.
Proof.
  intros Hinv Hc Hw. unfold CL.mergeConfiguration.
  eapply (run_ok_bind _ _ _ quiet).
  { unfold run_ok, modify. split; [done|]. split; [|done].
    split; [apply heap_step_refl|]. split; simpl; eauto; rewrite Hw;
      apply prefix_nil. }
  intros _ st1 _ Hinv1 _. eapply (run_ok_bind _ _ _ quiet).
  { unfold run_ok, modify. split; [done|]. split; [|done].
    split; [apply heap_step_refl|]. split; simpl; eauto.
    intros p Hp. by apply elem_of_nil in Hp. }
  intros _ st2 _ Hinv2 _. revert st2 Hinv2.
  change (sound
    (forM_ CL.root_keys (λ '(globKey, targetKey),
       CL.importFromGlobKey localeCompare options config globKey targetKey
         false None);;
     inputs ← getProp config "_inputs";
     CL.processInputsKey localeCompare options fuel inputs None;;
     structures ← getProp config "_structures";
     CL.processStructuresKey localeCompare options fuel structures None;;
     CL.processCollections localeCompare options fuel config;;
     CL.processSnippets localeCompare options fuel config;;
     mret config) fresh).
  eapply sound_bind.
  { eapply (sound_forM_ (λ p, guarded p.2 = false)).
    - unfold CL.root_keys. repeat constructor; unguarded.
    - intros [globKey targetKey] Ht. by apply sound_importFromGlobKey. }
  intros _ _. eapply sound_bind; [by apply sound_getProp|]. intros inputs Hin.
  eapply sound_bind; [by apply sound_processInputsKey|]. intros _ _.
  eapply sound_bind; [by apply sound_getProp|]. intros structures Hs.
  eapply sound_bind; [by apply sound_processStructuresKey|]. intros _ _.
  eapply sound_bind; [by apply sound_processCollections|]. intros _ _.
  eapply sound_bind; [by apply sound_processSnippets|]. intros _ _.
  by apply sound_ret.
Qed.

End Soundness.

(** ** The caller's configuration *)

(** A store is well formed when every reference in it points to one of its
    cells; a value lives in a store when it does. *)
Definition val_below (n : nat) (v : val) : bool :=
  match v with VRef b => b <? n | _ => true end.

Definition cell_below (n : nat) (c : cell) : bool :=
  match c with
  | CObj ps => forallb (λ p, val_below n p.2) ps
  | CArr items => forallb (val_below n) items
  | CSet _ => true
  end.

Definition well_formed (s : store) : bool := forallb (cell_below (length s)) s.

Lemma well_formed_closed s : well_formed s = true → closed_below (length s) s.
Proof.
  unfold well_formed. rewrite forallb_forall. intros H a c _ Hc.
  apply list_elem_of_lookup_2, list_elem_of_In, H in Hc.
  destruct c as [ps|items|elems]; simpl in *; [| |done].
  - rewrite forallb_forall in Hc. apply Forall_forall. intros p Hp.
    apply list_elem_of_In, Hc in Hp. destruct p.2; try done. simpl in Hp.
    by apply Nat.ltb_lt.
  - rewrite forallb_forall in Hc. apply Forall_forall. intros v Hv.
    apply list_elem_of_In, Hc in Hv. destruct v; try done. simpl in Hv.
    by apply Nat.ltb_lt.
Qed.

Lemma bind_eq {A B} (m : M A) (f : A → M B) st :
  (m ≫= f) st = match m st with
                | Ok a st' => f a st'
                | Thrown e st' => Thrown e st'
                | OutOfFuel st' => OutOfFuel st'
                end.
Proof. reflexivity. Qed.

Lemma run_ok_final n0 guarded {A} st (m : M A) Q :
  run_ok n0 guarded st m Q →
  inv n0 (final (m st)) ∧ evolves n0 guarded st (final (m st)).
Proof. unfold run_ok. destruct (m st); simpl; tauto. Qed.

Lemma inv_new_loader s : inv (length s) (new_loader s).
Proof.
  split; [done|]. simpl. intros a c Ha Hc.
  apply lookup_lt_Some in Hc. lia.
Qed.

Lemma sound_deepCopy n0 guarded input :
  sound n0 guarded (deepCopy input) (fresh_val n0).
Proof.
  eapply (sound_bind _ _ _ _ (λ _, True)); [by apply sound_gets|].
  intros [document|] _; [apply sound_JSON_parse|apply sound_throw].
Qed.

Lemma deepCopy_fields input st copy st' :
  deepCopy input st = Ok copy st' →
  ∃ s, st' = with_heap (λ _, s) st.
Proof.
  unfold deepCopy, mbind, M_bind, gets, JSON_parse, throw.
  destruct (JSON_stringify _ _); [|done].
  destruct (alloc_json _ _). intros [= <- <-]. eauto.
Qed.

(** The whole exported function, in the frame of the caller's store. *)
Lemma run_ok_exported guarded localeCompare fuel s input options :
  (∀ k, In k target_keys → guarded k = false) →
  run_ok (length s) guarded (new_loader s)
    (copy ← deepCopy input;
     result ← CL.mergeConfiguration localeCompare options fuel copy;
     loader ← gets id;
     mret {| config := result;
             result_warnings := removeDuplicateWarnings (warnings loader);
             result_globPatterns := globPatterns loader;
             result_pathsToGlobKey := pathsToGlobKey loader;
             result_globKeyToPaths := globKeyToPaths loader |})
    (λ r, fresh_val (length s) (config r)).
Proof.
  intros Hguard.
  eapply run_ok_bind; [apply sound_deepCopy, inv_new_loader|].
  intros copy st1 Hcopy Hinv1 Hfresh.
  apply deepCopy_fields in Hcopy as [s1 ->].
  eapply run_ok_bind; [by apply sound_mergeConfiguration|].
  intros result st2 _ Hinv2 Hres.
  eapply (run_ok_bind _ _ _ _ _ (λ _, True)); [by apply sound_gets|].
  intros loader st3 _ Hinv3 _. by apply sound_ret.
Qed.

(** When the exported function returns, it returns the loader's fields. *)
Lemma exported_result localeCompare fuel s input options r st :
  mergeConfiguration localeCompare fuel s input options = Ok r st →
  result_warnings r = removeDuplicateWarnings (warnings st) ∧
  result_globPatterns r = globPatterns st ∧
  result_pathsToGlobKey r = pathsToGlobKey st ∧
  result_globKeyToPaths r = globKeyToPaths st.
Proof.
  unfold mergeConfiguration. rewrite !bind_eq.
  destruct (deepCopy _ _); try done. rewrite !bind_eq.
  destruct (CL.mergeConfiguration _ _ _ _ _); try done.
  by intros [= <- <-].
Qed.

(** C3. The caller's configuration is never mutated: whatever the
    configuration, the collaborators and the fuel, and however the run ends
    (a result, a fault, or fuel running out), every cell of the caller's
    store is as it was, and serialising the configuration after the call
    gives what it gave before. *)
Theorem input_never_mutated localeCompare fuel s input options :
  well_formed s = true → val_below (length s) input = true →
  let after := final (mergeConfiguration localeCompare fuel s input options) in
  (∀ a, a < length s → heap after !! a = s !! a) ∧
  JSON_stringify (heap after) input = JSON_stringify s input.
Proof.
  intros Hwf Hin after.
  pose proof (run_ok_final _ _ _ _ _
                (run_ok_exported (λ _, false) localeCompare fuel s input options
                   (λ _ _, eq_refl)))
    as [_ [Hheap _]].
  fold (mergeConfiguration localeCompare fuel s input options) in Hheap.
  fold after in Hheap. simpl in Hheap.
  split; [apply Hheap|].
  destruct (JSON_stringify s input) as [document|] eqn:Hser.
  - unfold JSON_stringify in *.
    erewrite (ser_agree _ (length s) s);
      [|by apply well_formed_closed|apply Hheap|].
    + eapply ser_mono; [|exact Hser]. pose proof (hs_length _ _ _ _ Hheap). lia.
    + destruct input; try done. by apply Nat.ltb_lt.
  - subst after. unfold mergeConfiguration, deepCopy, mbind, M_bind, gets.
    simpl. by rewrite Hser.
Qed.

(** ** Runs seen from outside any frame

    With [n0 = 0] every value is fresh and every store is separated, and
    with no key guarded every assignment is allowed: the soundness lemmas
    then say what any run, from any state, may change of the loader's
    fields. *)

Definition unguarded : string → bool := λ _, false.

Lemma inv_0 st : inv 0 st.
Proof.
  split; [lia|]. intros a c _ _.
  destruct c as [ps|items|elems]; simpl; [| |done];
    apply Forall_forall; intros x _; [destruct x.2|destruct x]; simpl; lia.
Qed.

Lemma fresh_0 v : fresh_val 0 v.
Proof. destruct v; simpl; lia. Qed.

Lemma fresh_loaded_0 (loaded : list (val * string)) :
  Forall (λ p, fresh_val 0 p.1) loaded.
Proof. apply Forall_forall. intros ? _. apply fresh_0. Qed.

Lemma fresh_set_0 visited : fresh_set 0 visited.
Proof. destruct visited; simpl; lia. Qed.

Lemma forM_trackPattern patterns st :
  ∃ tracked, forM_ patterns CL.trackPattern st
             = Ok tt (with_globPatterns (λ _, tracked) st).
Proof.
  revert st. induction patterns as [|pattern patterns IH]; intros st; simpl.
  - exists (globPatterns st). by destruct st.
  - rewrite bind_eq.
    assert (∃ tracked, CL.trackPattern pattern st
                       = Ok tt (with_globPatterns (λ _, tracked) st))
      as [tracked ->].
    { destruct pattern; try (exists (globPatterns st); by destruct st).
      simpl. destruct (starts_with_bang s); simpl.
      - exists (globPatterns st). by destruct st.
      - by eexists. }
    destruct (IH (with_globPatterns (λ _, tracked) st)) as [tracked' ->].
    by exists tracked'.
Qed.

(** What follows the resolution of the files in [importFromGlobKey]. *)
Lemma sound_merge_and_assign owner globKey targetKey isArray loaded :
  sound 0 unguarded
    (target ← getProp owner targetKey;
     merged ←
       (if isArray : bool then
          base ← (if truthy target then mret target else alloc (CArr []));
          CL.mergeArrayValues base loaded
        else
          base ← (if truthy target then mret target else alloc (CObj []));
          CL.mergeObjectValues base loaded);
     setProp owner targetKey merged;;
     deleteProp owner (key_name globKey)) (λ _, True).
Proof.
  eapply sound_bind; [apply sound_getProp, fresh_0|]. intros target _.
  eapply (sound_bind _ _ _ _ (λ _, True)).
  - destruct isArray.
    + eapply (sound_bind _ _ _ _ (λ _, True)).
      { destruct (truthy target); [by apply sound_ret|].
        eapply sound_weaken; [apply sound_alloc; constructor|done]. }
      intros base _. eapply sound_weaken;
        [apply sound_mergeArrayValues; [apply fresh_0|apply fresh_loaded_0]|done].
    + eapply (sound_bind _ _ _ _ (λ _, True)).
      { destruct (truthy target); [by apply sound_ret|].
        eapply sound_weaken; [apply sound_alloc; constructor|done]. }
      intros base _. eapply sound_weaken;
        [apply sound_mergeObjectValues; [apply fresh_0|apply fresh_loaded_0]|done].
  - intros merged _. eapply sound_bind.
    + apply sound_setProp; [apply fresh_0|apply fresh_0|done].
    + intros _ _. apply sound_deleteProp, fresh_0.
Qed.

(** C9. A pattern that starts with [!] is never in the [globPatterns] that
    [mergeConfiguration] returns; and when [importFromGlobKey] finds an
    array under the reference key, the first thing it asks of a
    collaborator is [findFilesMatchingGlobs] on the elements of that array
    as they are, negated patterns included. *)
Theorem negated_patterns_untracked_and_passed localeCompare options :
  (∀ fuel s input,
     match mergeConfiguration localeCompare fuel s input options with
     | Ok r _ => ∀ p, p ∈ result_globPatterns r → starts_with_bang p = false
     | _ => True
     end) ∧
  (∀ st owner globKey targetKey isArray visited globs patterns,
     read_prop (heap st) owner (key_name globKey) = Some globs →
     array_items (heap st) globs = Some patterns →
     ∃ rest,
       calls (final (CL.importFromGlobKey localeCompare options owner globKey
                       targetKey isArray visited st))
       = calls st ++ FindCall patterns :: rest).
Proof.
  split.
  - intros fuel s input.
    pose proof (run_ok_final _ _ _ _ _
                  (run_ok_exported unguarded localeCompare fuel s input options
                     (λ _ _, eq_refl))) as [_ [_ Hfields]].
    fold (mergeConfiguration localeCompare fuel s input options) in Hfields.
    destruct (mergeConfiguration _ _ _ _ _) as [r st'| |] eqn:E; try done.
    intros p Hp. simpl in Hfields.
    apply exported_result in E as (_ & Hr & _). rewrite Hr in Hp.
    destruct (fs_patterns _ _ Hfields p Hp) as [Hin|]; [|done].
    by apply elem_of_nil in Hin.
  - intros st owner globKey targetKey isArray visited globs patterns Hglobs Hitems.
    unfold CL.importFromGlobKey. rewrite bind_eq. unfold getProp at 1.
    rewrite Hglobs. rewrite bind_eq. unfold arrayItems at 1, gets.
    rewrite Hitems. rewrite bind_eq.
    destruct (forM_trackPattern patterns st) as [tracked ->].
    set (st1 := with_globPatterns (λ _, tracked) st).
    unfold CL.loadFilesFromGlobs. rewrite !bind_eq.
    unfold CL.callFindFilesMatchingGlobs at 1.
    destruct (findFilesMatchingGlobs options (calls st1) patterns) as [files|];
      [|by exists []].
    set (st2 := with_calls (λ h, h ++ [FindCall patterns]) st1).
    match goal with
    | |- ∃ rest, calls (final match ?m st2 with
                               | Ok a st' => @?k a st'
                               | _ => _ end) = _ =>
        assert (calls st2 `prefix_of` calls (final ((m ≫= k) st2)))
          as [rest Hrest]
    end.
    { eapply fs_calls, proj2, run_ok_final.
      eapply (sound_bind 0 unguarded); [| |apply inv_0].
      - eapply (sound_foldM _ _ (λ _, True) (λ _, True));
          [done|by apply Forall_true|].
        intros b x _ _. eapply sound_weaken.
        + apply sound_loadFile; [apply fresh_set_0|apply fresh_loaded_0].
        + done.
      - intros loaded _. apply sound_merge_and_assign. }
    rewrite bind_eq in Hrest. rewrite Hrest. simpl. exists rest.
    by rewrite <- app_assoc.
Qed.

(** ** A configuration without reference keys *)

Definition is_glob_type_key (k : string) : bool :=
  existsb (λ g, String.eqb k (key_name g)) all_glob_keys.

(** No object of the document, at any depth, has a key of [GlobTypeKey]. *)
Fixpoint no_reference_keys (j : json) : bool :=
  match j with
  | JArr items => forallb no_reference_keys items
  | JObj members =>
      forallb (λ m, negb (is_glob_type_key m.1) && no_reference_keys m.2) members
  | _ => true
  end.

(** No object of the document has the same key twice, as in every document
    that [JSON.stringify] writes for a JavaScript object. *)
Fixpoint distinct (l : list string) : bool :=
  match l with
  | [] => true
  | x :: r => negb (existsb (String.eqb x) r) && distinct r
  end.

Fixpoint unique_keys (j : json) : bool :=
  match j with
  | JArr items => forallb unique_keys items
  | JObj members =>
      distinct (map fst members) && forallb (λ m, unique_keys m.2) members
  | _ => true
  end.

(** What a property read gives: [None] is [undefined]. *)
Definition reads (s : store) (v : val) (oj : option json) : Prop :=
  match oj with
  | Some j => represents s v j
  | None => v = VUndef
  end.

(** A document that is shallow enough for the fuel and has no reference
    key; [undefined] is. *)
Definition plain (fuel : nat) (oj : option json) : Prop :=
  match oj with
  | Some j =>
      (no_reference_keys j = true ∧ unique_keys j = true) ∧ height j < fuel
  | None => 0 < fuel
  end.

(** The store has only grown. *)
Definition grown (st st' : Loader) : Prop :=
  ∃ ext, st' = with_heap (λ s, s ++ ext) st.

(** From [st], [m] returns [a] and has only allocated. *)
Definition returns {A} (st : Loader) (m : M A) (a : A) : Prop :=
  ∃ st', m st = Ok a st' ∧ grown st st'.

Lemma grown_refl st : grown st st.
Proof. exists []. destruct st. unfold with_heap. simpl. by rewrite app_nil_r. Qed.

Lemma grown_trans st1 st2 st3 : grown st1 st2 → grown st2 st3 → grown st1 st3.
Proof.
  intros [e1 ->] [e2 ->]. exists (e1 ++ e2). unfold with_heap. simpl.
  by rewrite app_assoc.
Qed.

Lemma reads_grown st st' v oj :
  grown st st' → reads (heap st) v oj → reads (heap st') v oj.
Proof.
  intros [ext ->]. destruct oj; [|done]. simpl. apply represents_app.
Qed.

Lemma returns_ret {A} st (a : A) : returns st (mret a) a.
Proof. exists st. split; [done|apply grown_refl]. Qed.

Lemma returns_gets {A} st (f : Loader → A) : returns st (gets f) (f st).
Proof. exists st. split; [done|apply grown_refl]. Qed.

Lemma returns_bind {A B} st (m : M A) (f : A → M B) a b :
  returns st m a → (∀ st', grown st st' → returns st' (f a) b) →
  returns st (m ≫= f) b.
Proof.
  intros (st1 & Hm & Hg1) Hf. destruct (Hf st1 Hg1) as (st2 & Hf2 & Hg2).
  exists st2. rewrite bind_eq, Hm. eauto using grown_trans.
Qed.

Lemma returns_forM_ {A} st (l : list A) (f : A → M unit) :
  (∀ x st', x ∈ l → grown st st' → returns st' (f x) tt) →
  returns st (forM_ l f) tt.
Proof.
  revert st. induction l as [|x l IH]; intros st Hf; simpl.
  - apply returns_ret.
  - eapply returns_bind.
    + apply Hf; [by left|apply grown_refl].
    + intros st' Hg. apply IH. intros y st'' Hy Hg'.
      apply Hf; [by right|by eapply grown_trans].
Qed.

Lemma returns_newSet st : ∃ a, returns st newSet a.
Proof.
  exists (length (heap st)), (with_heap (λ s, s ++ [CSet []]) st).
  split; [done|by eexists].
Qed.

(** *** Reading a represented document *)

Lemma reads_object s v ms :
  represents s v (JObj ms) →
  is_object s v = true ∧ array_items s v = None ∧
  ∃ ps, own_props s v = ps ∧ PropsFacts.related (represents s) ps ms.
Proof.
  rewrite represents_obj. intros (a & ps & -> & Hs & Hrel). simpl.
  rewrite Hs. eauto.
Qed.

Lemma reads_array s v js :
  represents s v (JArr js) →
  is_object s v = false ∧
  ∃ items, array_items s v = Some items ∧ Forall2 (represents s) items js.
Proof.
  rewrite represents_arr. intros (a & items & -> & Hs & Hall). simpl.
  rewrite Hs. eauto.
Qed.

Lemma reads_prim s v j :
  represents s v j →
  match j with JArr _ | JObj _ => False | _ => True end →
  is_object s v = false ∧ array_items s v = None.
Proof.
  intros Hrep Hj. rewrite represents_prim in Hrep by done. subst v.
  by destruct j.
Qed.

Lemma reads_undefined s v :
  reads s v None → is_object s v = false ∧ array_items s v = None ∧ truthy v = false.
Proof. by intros ->. Qed.

Lemma reads_prop s v ms k :
  represents s v (JObj ms) →
  ∃ v', read_prop s v k = Some v' ∧ reads s v' (Props.get k ms).
Proof.
  rewrite represents_obj. intros (a & ps & -> & Hs & Hrel). simpl. rewrite Hs.
  eexists. split; [done|].
  pose proof (PropsFacts.related_get _ k _ _ Hrel) as Hget.
  destruct (Props.get k ps), (Props.get k ms); simpl; done.
Qed.

Lemma reads_has_prop s v ms k :
  represents s v (JObj ms) → has_prop s v k = Props.has k ms.
Proof.
  rewrite represents_obj. intros (a & ps & -> & Hs & Hrel). simpl. rewrite Hs.
  by eapply PropsFacts.related_has.
Qed.

Lemma plain_member fuel ms k j :
  plain fuel (Some (JObj ms)) → In (k, j) ms →
  is_glob_type_key k = false ∧
  (no_reference_keys j = true ∧ unique_keys j = true) ∧ S (height j) < fuel.
Proof.
  intros [[Hno Hu] Hh] Hin. simpl in Hno, Hu, Hh. rewrite forallb_forall in Hno.
  apply andb_prop in Hu as [_ Hu]. rewrite forallb_forall in Hu.
  apply Hno in Hin as Hm. simpl in Hm. apply andb_prop in Hm as [Hk Hj].
  split; [by destruct (is_glob_type_key k)|]. split; [split; [done|by apply (Hu (k, j))]|].
  enough (height j ≤ list_max (map (λ m, height m.2) ms)) by lia.
  clear -Hin. induction ms as [|[k' j'] ms IH]; [done|]. simpl.
  destruct Hin as [[= -> ->]|Hin]; [lia|]. specialize (IH Hin). lia.
Qed.

Lemma plain_get fuel ms k :
  plain fuel (Some (JObj ms)) → plain (pred fuel) (Props.get k ms).
Proof.
  intros Hp. destruct (Props.get k ms) as [j|] eqn:E.
  - apply PropsFacts.get_Some_In in E.
    destruct (plain_member _ _ _ _ Hp E) as (_ & ? & ?). simpl. split; [done|lia].
  - destruct Hp as [_ Hh]. simpl in *. lia.
Qed.

Lemma distinct_get {A} (ms : Props.props A) k x :
  distinct (map fst ms) = true → In (k, x) ms → Props.get k ms = Some x.
Proof.
  induction ms as [|[k' x'] ms IH]; simpl; [done|].
  intros [Hfirst Hrest]%andb_prop [[= -> ->]|Hin].
  - by rewrite String.eqb_refl.
  - destruct (String.eqb k k') eqn:E; [|by apply IH].
    apply String.eqb_eq in E. subst k'.
    apply negb_true_iff in Hfirst.
    assert (existsb (String.eqb k) (map fst ms) = true) as Hex; [|congruence].
    apply existsb_exists. exists k. split; [|apply String.eqb_refl].
    apply in_map_iff. by exists (k, x).
Qed.

Lemma plain_get_member fuel ms k j :
  plain fuel (Some (JObj ms)) → In (k, j) ms → Props.get k ms = Some j.
Proof.
  intros [[_ Hu] _]. simpl in Hu. apply andb_prop in Hu as [Hu _].
  by apply distinct_get.
Qed.

Lemma plain_item fuel js j :
  plain fuel (Some (JArr js)) → In j js → plain (pred fuel) (Some j).
Proof.
  intros [[Hno Hu] Hh] Hin. simpl in *. rewrite forallb_forall in Hno, Hu.
  split; [split; [by apply Hno|by apply Hu]|].
  enough (height j ≤ list_max (map height js)) by lia.
  clear -Hin. induction js as [|j' js IH]; [done|]. simpl.
  destruct Hin as [->|Hin]; [lia|]. specialize (IH Hin). lia.
Qed.

Lemma plain_weaken fuel fuel' oj : plain fuel oj → fuel ≤ fuel' → plain fuel' oj.
Proof. destruct oj; simpl; [intros [? ?]; split; [done|lia]|lia]. Qed.

Lemma plain_no_key fuel ms g :
  plain fuel (Some (JObj ms)) → Props.get (key_name g) ms = None.
Proof.
  intros Hp. destruct (Props.get (key_name g) ms) as [j|] eqn:E; [|done].
  apply PropsFacts.get_Some_In in E.
  destruct (plain_member _ _ _ _ Hp E) as (Hk & _). by destruct g.
Qed.

(** *** The walker on a plain document *)

Lemma returns_gets_bind {A B} st (g : Loader → A) (f : A → M B) b :
  returns st (f (g st)) b → returns st (gets g ≫= f) b.
Proof. unfold returns. by rewrite bind_eq. Qed.

Lemma returns_ret_bind {A B} st (a : A) (f : A → M B) b :
  returns st (f a) b → returns st (mret a ≫= f) b.
Proof. unfold returns. by rewrite bind_eq. Qed.

Lemma returns_getProp_bind {B} st o k v (f : val → M B) b :
  read_prop (heap st) o k = Some v →
  returns st (f v) b → returns st (getProp o k ≫= f) b.
Proof. intros Hr. unfold returns. rewrite bind_eq. unfold getProp. by rewrite Hr. Qed.

Lemma related_values s (ps : Props.props val) ms v :
  PropsFacts.related (represents s) ps ms → v ∈ ps.*2 →
  ∃ k j, In (k, j) ms ∧ represents s v j.
Proof.
  induction 1 as [|[k1 v1] [k2 j2] ps ms [_ Hr] _ IH]; simpl.
  - intros H. by apply elem_of_nil in H.
  - intros [->|Hin]%elem_of_cons.
    + exists k2, j2. auto.
    + destruct (IH Hin) as (k & j & ? & ?). exists k, j. auto.
Qed.

Lemma related_entries s (ps : Props.props val) ms k v :
  PropsFacts.related (represents s) ps ms → (k, v) ∈ ps →
  ∃ j, In (k, j) ms ∧ represents s v j.
Proof.
  induction 1 as [|[k1 v1] [k2 j2] ps ms [Hk Hr] _ IH]; simpl in *.
  - intros H. by apply elem_of_nil in H.
  - intros [[= -> ->]|Hin]%elem_of_cons.
    + exists j2. subst. auto.
    + destruct (IH Hin) as (j & ? & ?). exists j. auto.
Qed.

Lemma Forall2_represents_item s items js v :
  Forall2 (represents s) items js → v ∈ items →
  ∃ j, In j js ∧ represents s v j.
Proof.
  induction 1 as [|v1 j1 items js Hr _ IH].
  - intros H. by apply elem_of_nil in H.
  - intros [->|Hin]%elem_of_cons.
    + exists j1. split; [by left|done].
    + destruct (IH Hin) as (j & ? & ?). exists j. split; [by right|done].
Qed.

(** What a value represents, it represents alone. *)
Lemma represents_unique s v j1 j2 :
  represents s v j1 → represents s v j2 → j1 = j2.
Proof.
  intros H1 H2.
  assert (ser (height j1 `max` height j2) s v = Some j1) as E1
    by (apply represents_ser; [done|lia]).
  assert (ser (height j1 `max` height j2) s v = Some j2) as E2
    by (apply represents_ser; [done|lia]).
  rewrite E1 in E2. by injection E2.
Qed.

Section Plain.
Variable localeCompare : string → string → Z.
Variable options : MergeConfigurationOptions.

(** On an object without reference keys [importFromGlobKey] does nothing. *)
Lemma plain_importFromGlobKey st fuel owner ms globKey targetKey isArray visited :
  represents (heap st) owner (JObj ms) → plain fuel (Some (JObj ms)) →
  CL.importFromGlobKey localeCompare options owner globKey targetKey isArray
    visited st = Ok tt st.
Proof.
  intros Hrep Hplain. unfold CL.importFromGlobKey.
  destruct (reads_prop _ _ _ (key_name globKey) Hrep) as (v & Hread & Hv).
  rewrite (plain_no_key _ _ globKey Hplain) in Hv. simpl in Hv. subst v.
  rewrite bind_eq. unfold getProp. by rewrite Hread.
Qed.

Lemma returns_importFromGlobKey {B} st fuel owner ms globKey targetKey isArray
    visited (f : unit → M B) b :
  represents (heap st) owner (JObj ms) → plain fuel (Some (JObj ms)) →
  returns st (f tt) b →
  returns st (CL.importFromGlobKey localeCompare options owner globKey
                targetKey isArray visited ≫= f) b.
Proof.
  intros Hrep Hplain Hf. unfold returns. rewrite bind_eq.
  by erewrite plain_importFromGlobKey.
Qed.

Lemma plain_processStructureValueWith rec fuel st value j visited :
  (∀ st' inputs oj vis, reads (heap st') inputs oj → plain fuel oj →
                        returns st' (rec inputs vis) tt) →
  represents (heap st) value j → plain (S fuel) (Some j) →
  returns st (CL.processStructureValueWith localeCompare options rec value
                visited) tt.
Proof.
  intros Hrec Hrep Hplain. unfold CL.processStructureValueWith.
  apply returns_gets_bind. destruct j as [| | | |js|ms].
  1-4: (destruct (reads_prim _ _ _ Hrep I) as [-> _]; apply returns_ret).
  { destruct (reads_array _ _ _ Hrep) as [-> _]. apply returns_ret. }
  destruct (reads_object _ _ _ Hrep) as (-> & _ & _).
  destruct (reads_prop _ _ _ "_inputs_from_glob" Hrep) as (v & Hread & Hv).
  pose proof (plain_no_key _ _ _inputs_from_glob Hplain) as Hnone.
  simpl in Hnone. rewrite Hnone in Hv. simpl in Hv. subst v.
  eapply returns_getProp_bind; [done|]. simpl. apply returns_ret_bind.
  destruct (reads_prop _ _ _ "_inputs" Hrep) as (inputs & Hread' & Hin).
  eapply returns_getProp_bind; [done|].
  destruct (truthy inputs); [|apply returns_ret]. simpl.
  apply Hrec with (oj := Props.get "_inputs" ms); [done|].
  by apply (plain_get (S fuel)).
Qed.

Lemma plain_processInputsKey fuel :
  ∀ st inputs oj visited,
    reads (heap st) inputs oj → plain fuel oj →
    returns st (CL.processInputsKey localeCompare options fuel inputs visited) tt.
Proof.
  induction fuel as [|fuel IH]; intros st inputs oj visited Hrep Hplain.
  { destruct oj; simpl in Hplain; lia. }
  simpl. apply returns_gets_bind.
  destruct oj as [[| | | |js|ms]|].
  1-4: (destruct (reads_prim _ _ _ Hrep I) as [-> _]; apply returns_ret).
  { destruct (reads_array _ _ _ Hrep) as [-> _]. apply returns_ret. }
  2: { destruct (reads_undefined _ _ Hrep) as [-> _]. apply returns_ret. }
  destruct (reads_object _ _ _ Hrep) as (-> & _ & ps & Hps & Hrel).
  apply returns_gets_bind. rewrite Hps.
  apply returns_forM_. intros inputValue st1 Hin Hg1.
  destruct (related_values _ _ _ _ Hrel Hin) as (k1 & j1 & Hm1 & Hr1).
  destruct (plain_member _ _ _ _ Hplain Hm1) as (_ & Hno1 & Hh1).
  assert (plain fuel (Some j1)) as Hp1 by (split; [done|lia]).
  apply (reads_grown _ _ _ (Some j1) Hg1) in Hr1. simpl in Hr1.
  clear Hrep Hrel Hin Hm1 Hps ps Hplain.
  apply returns_gets_bind. destruct j1 as [| | | |js1|ms1].
  1-4: (destruct (reads_prim _ _ _ Hr1 I) as [-> _]; apply returns_ret).
  { destruct (reads_array _ _ _ Hr1) as [-> _]. apply returns_ret. }
  destruct (reads_object _ _ _ Hr1) as (-> & _ & _).
  destruct (reads_prop _ _ _ "options" Hr1) as (inputOptions & Hread2 & Hr2).
  eapply returns_getProp_bind; [done|].
  pose proof (plain_get _ _ "options" Hp1) as Hp2.
  apply returns_gets_bind.
  destruct (Props.get "options" ms1) as [[| | | |js2|ms2]|].
  1-4: (destruct (reads_prim _ _ _ Hr2 I) as [-> _]; apply returns_ret).
  { destruct (reads_array _ _ _ Hr2) as [-> _]. apply returns_ret. }
  2: { destruct (reads_undefined _ _ Hr2) as [-> _]. apply returns_ret. }
  destruct (reads_object _ _ _ Hr2) as (-> & _ & _).
  destruct (reads_prop _ _ _ "structures" Hr2) as (structures & Hread3 & Hr3).
  eapply returns_getProp_bind; [done|].
  pose proof (plain_get _ _ "structures" Hp2) as Hp3.
  assert (∃ visitedLocal, returns st1 (CL.visitedOrNew visited) visitedLocal)
    as [visitedLocal Hvis].
  { destruct visited as [vis|]; [exists vis; apply returns_ret|].
    apply returns_newSet. }
  eapply returns_bind; [exact Hvis|]. intros st2 Hg2.
  apply (reads_grown _ _ _ _ Hg2) in Hr3.
  apply returns_gets_bind.
  destruct (Props.get "structures" ms2) as [[| | | |js3|ms3]|].
  1-4: (destruct (reads_prim _ _ _ Hr3 I) as [-> _]; apply returns_ret).
  { destruct (reads_array _ _ _ Hr3) as [-> _]. apply returns_ret. }
  2: { destruct (reads_undefined _ _ Hr3) as [-> _]. apply returns_ret. }
  simpl in Hr3. destruct (reads_object _ _ _ Hr3) as (-> & _ & _).
  destruct (reads_prop _ _ _ "values_from_glob" Hr3) as (v & Hread4 & Hv).
  pose proof (plain_no_key _ _ values_from_glob Hp3) as Hnone.
  simpl in Hnone. rewrite Hnone in Hv. simpl in Hv. subst v.
  eapply returns_getProp_bind; [done|]. simpl. apply returns_ret_bind.
  destruct (reads_prop _ _ _ "values" Hr3) as (values & Hread5 & Hr5).
  eapply returns_getProp_bind; [done|].
  pose proof (plain_get _ _ "values" Hp3) as Hp5.
  apply returns_gets_bind.
  destruct (Props.get "values" ms3) as [[| | | |js5|ms5]|].
  1-4: (destruct (reads_prim _ _ _ Hr5 I) as [_ ->]; apply returns_ret).
  3: { destruct (reads_undefined _ _ Hr5) as (_ & -> & _). apply returns_ret. }
  2: { destruct (reads_object _ _ _ Hr5) as (_ & -> & _). apply returns_ret. }
  destruct (reads_array _ _ _ Hr5) as (_ & items & -> & Hitems).
  apply returns_forM_. intros value st3 Hin Hg3.
  destruct (Forall2_represents_item _ _ _ _ Hitems Hin) as (j6 & Hm6 & Hr6).
  apply (reads_grown _ _ _ (Some j6) Hg3) in Hr6.
  pose proof (plain_item _ _ _ Hp5 Hm6) as Hp6.
  eapply plain_processStructureValueWith; [|exact Hr6|].
  - intros st' inputs' oj' vis' Hr' Hp'. by eapply IH.
  - eapply plain_weaken; [exact Hp6|lia].
Qed.

Lemma plain_processStructuresKey fuel st structures oj visited :
  reads (heap st) structures oj → plain fuel oj →
  returns st (CL.processStructuresKey localeCompare options fuel structures
                visited) tt.
Proof.
  intros Hrep Hplain. unfold CL.processStructuresKey.
  apply returns_gets_bind.
  destruct oj as [[| | | |js|ms]|].
  1-4: (destruct (reads_prim _ _ _ Hrep I) as [-> _]; apply returns_ret).
  { destruct (reads_array _ _ _ Hrep) as [-> _]. apply returns_ret. }
  2: { destruct (reads_undefined _ _ Hrep) as [-> _]. apply returns_ret. }
  destruct (reads_object _ _ _ Hrep) as (-> & _ & ps & Hps & Hrel).
  apply returns_gets_bind. rewrite Hps.
  apply returns_forM_. intros structure st1 Hin Hg1.
  destruct (related_values _ _ _ _ Hrel Hin) as (k1 & j1 & Hm1 & Hr1).
  destruct (plain_member _ _ _ _ Hplain Hm1) as (_ & Hno1 & Hh1).
  assert (plain (pred fuel) (Some j1)) as Hp1 by (split; [done|lia]).
  apply (reads_grown _ _ _ (Some j1) Hg1) in Hr1. simpl in Hr1.
  clear Hrep Hrel Hin Hm1 Hps ps Hplain.
  apply returns_gets_bind. destruct j1 as [| | | |js1|ms1].
  1-4: (destruct (reads_prim _ _ _ Hr1 I) as [-> _]; apply returns_ret).
  { destruct (reads_array _ _ _ Hr1) as [-> _]. apply returns_ret. }
  destruct (reads_object _ _ _ Hr1) as (-> & _ & _).
  assert (∃ visitedLocal, returns st1 (CL.visitedOrNew visited) visitedLocal)
    as [visitedLocal Hvis].
  { destruct visited as [vis|]; [exists vis; apply returns_ret|].
    apply returns_newSet. }
  eapply returns_bind; [exact Hvis|]. intros st2 Hg2.
  apply (reads_grown _ _ _ (Some (JObj ms1)) Hg2) in Hr1. simpl in Hr1.
  eapply returns_importFromGlobKey; [done|done|].
  destruct (reads_prop _ _ _ "values" Hr1) as (values & Hread & Hr2).
  eapply returns_getProp_bind; [done|].
  pose proof (plain_get _ _ "values" Hp1) as Hp2.
  apply returns_gets_bind.
  destruct (Props.get "values" ms1) as [[| | | |js2|ms2]|].
  1-4: (destruct (reads_prim _ _ _ Hr2 I) as [_ ->]; apply returns_ret).
  3: { destruct (reads_undefined _ _ Hr2) as (_ & -> & _). apply returns_ret. }
  2: { destruct (reads_object _ _ _ Hr2) as (_ & -> & _). apply returns_ret. }
  destruct (reads_array _ _ _ Hr2) as (_ & items & -> & Hitems).
  apply returns_forM_. intros value st3 Hin Hg3.
  destruct (Forall2_represents_item _ _ _ _ Hitems Hin) as (j3 & Hm3 & Hr3).
  apply (reads_grown _ _ _ (Some j3) Hg3) in Hr3.
  pose proof (plain_item _ _ _ Hp2 Hm3) as Hp3.
  eapply plain_processStructureValueWith; [|exact Hr3|].
  - intros st' inputs' oj' vis' Hr' Hp'. by eapply plain_processInputsKey.
  - eapply plain_weaken; [exact Hp3|lia].
Qed.

Lemma plain_processInputsAndStructures fuel st owner ms :
  represents (heap st) owner (JObj ms) → plain (S fuel) (Some (JObj ms)) →
  returns st (CL.processInputsAndStructures localeCompare options fuel owner) tt.
Proof.
  intros Hrep Hplain. unfold CL.processInputsAndStructures.
  eapply returns_importFromGlobKey; [done|done|].
  eapply returns_importFromGlobKey; [done|done|].
  destruct (reads_prop _ _ _ "_inputs" Hrep) as (inputs & Hread & Hr1).
  eapply returns_getProp_bind; [done|].
  eapply returns_bind.
  { eapply plain_processInputsKey; [exact Hr1|].
    by apply (plain_get (S fuel)). }
  intros st1 Hg1. apply (reads_grown _ _ _ (Some (JObj ms)) Hg1) in Hrep.
  simpl in Hrep.
  destruct (reads_prop _ _ _ "_structures" Hrep) as (structures & Hread' & Hr2).
  eapply returns_getProp_bind; [done|].
  eapply plain_processStructuresKey; [exact Hr2|].
  by apply (plain_get (S fuel)).
Qed.

Lemma plain_processSchemas fuel st collection ms :
  represents (heap st) collection (JObj ms) → plain (S fuel) (Some (JObj ms)) →
  returns st (CL.processSchemas localeCompare options fuel collection) tt.
Proof.
  intros Hrep Hplain. unfold CL.processSchemas.
  destruct (reads_prop _ _ _ "schemas" Hrep) as (schemas & Hread & Hr1).
  eapply returns_getProp_bind; [done|].
  pose proof (plain_get _ _ "schemas" Hplain) as Hp1. simpl in Hp1.
  apply returns_gets_bind.
  destruct (Props.get "schemas" ms) as [[| | | |js1|ms1]|].
  1-4: (destruct (reads_prim _ _ _ Hr1 I) as [-> _]; apply returns_ret).
  { destruct (reads_array _ _ _ Hr1) as [-> _]. apply returns_ret. }
  2: { destruct (reads_undefined _ _ Hr1) as [-> _]. apply returns_ret. }
  destruct (reads_object _ _ _ Hr1) as (-> & _ & ps & Hps & Hrel).
  apply returns_gets_bind. rewrite Hps.
  apply returns_forM_. intros schemaValue st1 Hin Hg1.
  destruct (related_values _ _ _ _ Hrel Hin) as (k2 & j2 & Hm2 & Hr2).
  destruct (plain_member _ _ _ _ Hp1 Hm2) as (_ & Hno2 & Hh2).
  apply (reads_grown _ _ _ (Some j2) Hg1) in Hr2. simpl in Hr2.
  apply returns_gets_bind. destruct j2 as [| | | |js2|ms2].
  1-4: (destruct (reads_prim _ _ _ Hr2 I) as [-> _]; apply returns_ret).
  { destruct (reads_array _ _ _ Hr2) as [-> _]. apply returns_ret. }
  destruct (reads_object _ _ _ Hr2) as (-> & _ & _). simpl.
  apply (plain_processInputsAndStructures _ _ _ ms2); [done|].
  split; [done|lia].
Qed.

Lemma plain_processCollections fuel st root ms :
  represents (heap st) root (JObj ms) → plain (S fuel) (Some (JObj ms)) →
  returns st (CL.processCollections localeCompare options fuel root) tt.
Proof.
  intros Hrep Hplain. unfold CL.processCollections.
  destruct (reads_prop _ _ _ "collections_config" Hrep) as (cc & Hread & Hr1).
  eapply returns_getProp_bind; [done|].
  pose proof (plain_get _ _ "collections_config" Hplain) as Hp1. simpl in Hp1.
  apply returns_gets_bind.
  destruct (Props.get "collections_config" ms) as [[| | | |js1|ms1]|] eqn:Hcc.
  1-4: (destruct (reads_prim _ _ _ Hr1 I) as [-> _]; apply returns_ret).
  { destruct (reads_array _ _ _ Hr1) as [-> _]. apply returns_ret. }
  2: { destruct (reads_undefined _ _ Hr1) as [-> _]. apply returns_ret. }
  destruct (reads_object _ _ _ Hr1) as (-> & _ & ps & Hps & Hrel).
  apply returns_gets_bind. rewrite Hps.
  apply returns_forM_. intros [collectionKey collectionConfig] st1 Hin Hg1.
  destruct (related_entries _ _ _ _ _ Hrel Hin) as (j2 & Hm2 & Hr2).
  destruct (plain_member _ _ _ _ Hp1 Hm2) as (_ & Hno2 & Hh2).
  apply (reads_grown _ _ _ (Some j2) Hg1) in Hr2. simpl in Hr2.
  apply (reads_grown _ _ _ (Some (JObj ms)) Hg1) in Hrep. simpl in Hrep.
  apply (reads_grown _ _ _ (Some (JObj ms1)) Hg1) in Hr1. simpl in Hr1.
  apply returns_gets_bind. destruct j2 as [| | | |js2|ms2].
  1-4: (destruct (reads_prim _ _ _ Hr2 I) as [-> _]; apply returns_ret).
  { destruct (reads_array _ _ _ Hr2) as [-> _]. apply returns_ret. }
  destruct (reads_object _ _ _ Hr2) as (-> & _ & _).
  assert (plain fuel (Some (JObj ms2))) as Hp2 by (split; [done|lia]).
  apply returns_gets_bind. rewrite (reads_has_prop _ _ _ _ Hr2).
  assert (Props.has "schemas_from_glob" ms2 = false) as ->.
  { unfold Props.has.
    pose proof (plain_no_key _ _ schemas_from_glob Hp2) as Hnone.
    simpl in Hnone. by rewrite Hnone. }
  simpl. apply returns_ret_bind.
  destruct (reads_prop _ _ _ "collections_config" Hrep) as (cc' & Hread' & Hr1').
  eapply returns_getProp_bind; [done|]. rewrite Hcc in Hr1'. simpl in Hr1'.
  destruct (reads_prop _ _ _ collectionKey Hr1') as (collection & Hread3 & Hr3).
  eapply returns_getProp_bind; [done|].
  rewrite (plain_get_member _ _ _ _ Hp1 Hm2) in Hr3. simpl in Hr3.
  eapply returns_bind.
  { apply (plain_processInputsAndStructures _ _ _ ms2); [exact Hr3|].
    eapply plain_weaken; [exact Hp2|lia]. }
  intros st2 Hg2. apply (reads_grown _ _ _ (Some (JObj ms2)) Hg2) in Hr3.
  apply (plain_processSchemas _ _ _ ms2); [exact Hr3|].
  eapply plain_weaken; [exact Hp2|lia].
Qed.

Lemma plain_processSnippets fuel st root ms :
  represents (heap st) root (JObj ms) → plain (S fuel) (Some (JObj ms)) →
  returns st (CL.processSnippets localeCompare options fuel root) tt.
Proof.
  intros Hrep Hplain. unfold CL.processSnippets.
  destruct (reads_prop _ _ _ "_snippets" Hrep) as (snippets & Hread & Hr1).
  eapply returns_getProp_bind; [done|].
  pose proof (plain_get _ _ "_snippets" Hplain) as Hp1. simpl in Hp1.
  apply returns_gets_bind.
  destruct (Props.get "_snippets" ms) as [[| | | |js1|ms1]|].
  1-4: (destruct (reads_prim _ _ _ Hr1 I) as [-> _]; apply returns_ret).
  { destruct (reads_array _ _ _ Hr1) as [-> _]. apply returns_ret. }
  2: { destruct (reads_undefined _ _ Hr1) as [-> _]. apply returns_ret. }
  destruct (reads_object _ _ _ Hr1) as (-> & _ & ps & Hps & Hrel).
  eapply returns_importFromGlobKey; [done|done|].
  apply returns_gets_bind. rewrite Hps.
  apply returns_forM_. intros snippetConfig st1 Hin Hg1.
  destruct (related_values _ _ _ _ Hrel Hin) as (k2 & j2 & Hm2 & Hr2).
  destruct (plain_member _ _ _ _ Hp1 Hm2) as (_ & Hno2 & Hh2).
  apply (reads_grown _ _ _ (Some j2) Hg1) in Hr2. simpl in Hr2.
  apply returns_gets_bind. destruct j2 as [| | | |js2|ms2].
  1-4: (destruct (reads_prim _ _ _ Hr2 I) as [-> _]; apply returns_ret).
  { destruct (reads_array _ _ _ Hr2) as [-> _]. apply returns_ret. }
  destruct (reads_object _ _ _ Hr2) as (-> & _ & _). simpl.
  apply (plain_processInputsAndStructures _ _ _ ms2); [done|].
  split; [done|lia].
Qed.

Lemma plain_mergeConfiguration fuel st root ms :
  represents (heap st) root (JObj ms) → plain (S fuel) (Some (JObj ms)) →
  warnings st = no_warnings → globPatterns st = [] →
  returns st (CL.mergeConfiguration localeCompare options fuel root) root.
Proof.
  intros Hrep Hplain Hw Hg. unfold CL.mergeConfiguration.
  assert (with_warnings (λ _, no_warnings) st = st) as Hw'
    by (destruct st; simpl in *; by subst).
  assert (with_globPatterns (λ _, []) st = st) as Hg'
    by (destruct st; simpl in *; by subst).
  unfold returns. rewrite bind_eq. unfold modify at 1. rewrite Hw'.
  rewrite bind_eq. unfold modify at 1. rewrite Hg'.
  fold (returns st
    (forM_ CL.root_keys (λ '(globKey, targetKey),
       CL.importFromGlobKey localeCompare options root globKey targetKey
         false None);;
     inputs ← getProp root "_inputs";
     CL.processInputsKey localeCompare options fuel inputs None;;
     structures ← getProp root "_structures";
     CL.processStructuresKey localeCompare options fuel structures None;;
     CL.processCollections localeCompare options fuel root;;
     CL.processSnippets localeCompare options fuel root;;
     mret root) root).
  eapply returns_bind.
  { apply returns_forM_. intros [globKey targetKey] st1 _ Hg1.
    apply (reads_grown _ _ _ (Some (JObj ms)) Hg1) in Hrep. simpl in Hrep.
    exists st1. split; [by eapply plain_importFromGlobKey|apply grown_refl]. }
  intros st1 Hg1. apply (reads_grown _ _ _ (Some (JObj ms)) Hg1) in Hrep.
  simpl in Hrep.
  destruct (reads_prop _ _ _ "_inputs" Hrep) as (inputs & Hread & Hr1).
  eapply returns_getProp_bind; [done|].
  eapply returns_bind.
  { eapply plain_processInputsKey; [exact Hr1|]. by apply (plain_get (S fuel)). }
  intros st2 Hg2. apply (reads_grown _ _ _ (Some (JObj ms)) Hg2) in Hrep.
  simpl in Hrep.
  destruct (reads_prop _ _ _ "_structures" Hrep) as (structures & Hread' & Hr2).
  eapply returns_getProp_bind; [done|].
  eapply returns_bind.
  { eapply plain_processStructuresKey; [exact Hr2|].
    by apply (plain_get (S fuel)). }
  intros st3 Hg3. apply (reads_grown _ _ _ (Some (JObj ms)) Hg3) in Hrep.
  simpl in Hrep.
  eapply returns_bind; [by eapply plain_processCollections|].
  intros st4 Hg4. apply (reads_grown _ _ _ (Some (JObj ms)) Hg4) in Hrep.
  simpl in Hrep.
  eapply returns_bind; [by eapply plain_processSnippets|].
  intros st5 Hg5. apply returns_ret.
Qed.

End Plain.

(** C2, amended. A configuration object without reference keys at any
    nesting level comes back as JSON writes it: with fuel for its depth,
    [mergeConfiguration] returns, the tree it returns is, cell by cell, the
    document that the input serialises to, all three warning lists are
    empty, and no collaborator was called.  So the returned tree has the
    structure of the input when the input is that document itself, and it
    is the input without what JSON does not write when it is not. *)
Theorem no_reference_keys_identity localeCompare options fuel s input members :
  JSON_stringify s input = Some (JObj members) →
  no_reference_keys (JObj members) = true →
  unique_keys (JObj members) = true →
  height (JObj members) ≤ fuel →
  ∃ r st,
    mergeConfiguration localeCompare fuel s input options = Ok r st ∧
    represents (heap st) (config r) (JObj members) ∧
    JSON_stringify (heap st) (config r) = Some (JObj members) ∧
    result_warnings r = no_warnings ∧
    calls st = [] ∧
    (represents s input (JObj members) →
     ∀ document, represents s input document
                 ↔ represents (heap st) (config r) document).
Proof.
  intros Hser Hno Hu Hfuel.
  unfold mergeConfiguration. rewrite bind_eq.
  unfold deepCopy at 1. rewrite bind_eq. unfold gets at 1.
  change (heap (new_loader s)) with s. rewrite Hser. unfold JSON_parse.
  change (heap (new_loader s)) with s.
  destruct (alloc_json (JObj members) s) as [copy s1] eqn:Halloc.
  set (st1 := with_heap (λ _, s1) (new_loader s)).
  assert (represents (heap st1) copy (JObj members)) as Hrep.
  { eapply alloc_json_represents; [exact Halloc|]. by intros a _ _. }
  destruct (plain_mergeConfiguration localeCompare options fuel st1 copy members)
    as (st2 & Hrun & [ext ->]); try done.
  { split; [done|]. lia. }
  rewrite bind_eq, Hrun. rewrite bind_eq. simpl.
  assert (represents (heap st1 ++ ext) copy (JObj members)) as Hout
    by (by apply represents_app).
  eexists _, _. split; [done|]. simpl. split; [done|]. split.
  { apply represents_ser; [done|].
    pose proof (alloc_json_length _ _ _ _ Halloc) as Hlen.
    rewrite length_app. lia. }
  split; [done|]. split; [done|]. intros Hin document. split.
  - intros Hdoc. by rewrite (represents_unique _ _ _ _ Hdoc Hin).
  - intros Hdoc. by rewrite (represents_unique _ _ _ _ Hdoc Hout).
Qed.


(** ** Names that every object inherits

    [pathsToGlobKey] starts as [{}], and [this.pathsToGlobKey[filePath]]
    answers a function for a [filePath] that names a property of
    [Object.prototype]; the embedding reads own properties only.  Where a
    statement depends on that read, the paths are taken to be [own_name]s. *)

Definition Object_prototype_names : list string :=
  [ "constructor"; "hasOwnProperty"; "isPrototypeOf"; "propertyIsEnumerable";
    "toLocaleString"; "toString"; "valueOf"; "__proto__";
    "__defineGetter__"; "__defineSetter__"; "__lookupGetter__";
    "__lookupSetter__" ].

Definition own_name (name : string) : bool :=
  negb (existsb (String.eqb name) Object_prototype_names).

(** [findFilesMatchingGlobs] never answers with an inherited name. *)
Definition own_names_matched (options : MergeConfigurationOptions) : Prop :=
  ∀ history globs files,
    findFilesMatchingGlobs options history globs = Some files →
    Forall (λ f, own_name f = true) files.

(** ** One path of [loadFilesFromGlobs]

    What the loop body does to the loader, case by case.  The checks and
    the claim run without suspension; the collaborator is consulted on the
    history as it stands when the path is claimed. *)

Section Step.
Variable options : MergeConfigurationOptions.

(** The path is in the chain that is being expanded. *)
Definition in_chain (st : Loader) (visited : option addr) (filePath : string)
  : bool :=
  match visited with
  | Some vis => StrSet.has filePath (set_elems (heap st) vis)
  | None => false
  end.

Definition chain_of (st : Loader) (visited : option addr) : list string :=
  match visited with
  | Some vis => set_elems (heap st) vis
  | None => []
  end.

(** The path is owned by another reference key. *)
Definition owned_by_other (st : Loader) (globKey : GlobTypeKey)
    (filePath : string) : option GlobTypeKey :=
  match Props.get filePath (pathsToGlobKey st) with
  | Some existing => if bool_decide (existing ≠ globKey) then Some existing else None
  | None => None
  end.

Definition add_cycle (w : CycleWarning) (st : Loader) : Loader :=
  with_warnings (λ ws, {| cycles := cycles ws ++ [w];
                          multipleGlobKeys := multipleGlobKeys ws;
                          arrayValues := arrayValues ws |}) st.

Definition add_multi (w : MultipleGlobKeysWarning) (st : Loader) : Loader :=
  with_warnings (λ ws, {| cycles := cycles ws;
                          multipleGlobKeys := multipleGlobKeys ws ++ [w];
                          arrayValues := arrayValues ws |}) st.

Definition add_array (w : ArrayValueWarning) (st : Loader) : Loader :=
  with_warnings (λ ws, {| cycles := cycles ws;
                          multipleGlobKeys := multipleGlobKeys ws;
                          arrayValues := arrayValues ws ++ [w] |}) st.

(** The loader once the path is claimed and [loadConfigFile] is called. *)
Definition claimed (globKey : GlobTypeKey) (visited : option addr)
    (filePath : string) (st : Loader) : Loader :=
  with_calls (λ h, h ++ [LoadCall filePath])
    (match visited with
     | Some vis =>
         with_heap (update_cell vis (λ c, match c with
                                          | CSet elems => CSet (StrSet.add filePath elems)
                                          | _ => c
                                          end))
     | None => id
     end
       (with_globKeyToPaths (add_path globKey filePath)
          (with_pathsToGlobKey (Props.set filePath globKey) st))).

(** The loader once the loaded document is cloned. *)
Definition cloned (document : json) (st : Loader) : val * Loader :=
  let '(v, s) := alloc_json document (heap st) in (v, with_heap (λ _, s) st).

Lemma loadFile_cycle st globKey visited loadedData filePath :
  in_chain st visited filePath = true →
  CL.loadFile options globKey visited loadedData filePath st
  = Ok loadedData
      (add_cycle {| cycle_path := filePath; chain := chain_of st visited |} st).
Proof.
  intros Hin. unfold CL.loadFile. destruct visited as [vis|]; [|done].
  simpl in Hin. rewrite bind_eq. unfold setHas at 1, gets at 1. by rewrite Hin.
Qed.

Lemma loadFile_conflict st globKey visited loadedData filePath existing :
  in_chain st visited filePath = false →
  owned_by_other st globKey filePath = Some existing →
  CL.loadFile options globKey visited loadedData filePath st
  = Ok loadedData
      (add_multi {| multi_path := filePath; type1 := existing;
                    type2 := globKey |} st).
Proof.
  intros Hin Hown. unfold CL.loadFile. rewrite bind_eq.
  assert (match visited with
          | Some vis => setHas vis filePath
          | None => mret false
          end st = Ok false st) as ->.
  { destruct visited; [|done]. simpl in Hin. unfold setHas, gets. by rewrite Hin. }
  rewrite bind_eq. unfold gets at 1. unfold owned_by_other in Hown.
  destruct (Props.get filePath (pathsToGlobKey st)) as [k|]; [|done].
  destruct (bool_decide (k ≠ globKey)); [|done]. by injection Hown as ->.
Qed.

Lemma loadFile_claim st globKey visited loadedData filePath :
  in_chain st visited filePath = false →
  owned_by_other st globKey filePath = None →
  CL.loadFile options globKey visited loadedData filePath st
  = CL.claimAndLoad options globKey visited loadedData filePath st.
Proof.
  intros Hin Hown. unfold CL.loadFile. rewrite bind_eq.
  assert (match visited with
          | Some vis => setHas vis filePath
          | None => mret false
          end st = Ok false st) as ->.
  { destruct visited; [|done]. simpl in Hin. unfold setHas, gets. by rewrite Hin. }
  rewrite bind_eq. unfold gets at 1. unfold owned_by_other in Hown.
  destruct (Props.get filePath (pathsToGlobKey st)) as [k|]; [|done].
  by destruct (bool_decide (k ≠ globKey)).
Qed.

(** What [claimAndLoad] does, by what [loadConfigFile] answers on the
    history at the time of the call. *)
Lemma claimAndLoad_eq st globKey visited loadedData filePath :
  CL.claimAndLoad options globKey visited loadedData filePath st
  = let st1 := claimed globKey visited filePath st in
    match loadConfigFile options (calls st) filePath with
    | Rejects | Resolves None => Ok loadedData st1
    | Resolves (Some document) =>
        let '(v, st2) := cloned document st1 in
        match array_items (heap st2) v with
        | Some _ => Ok loadedData (add_array {| array_path := filePath |} st2)
        | None => Ok (loadedData ++ [(v, filePath)]) st2
        end
    end.
Proof.
  unfold CL.claimAndLoad, CL.claimUntilAwait, CL.awaitLoad, CL.resumeLoad,
    claimed, cloned, mbind, M_bind, modify, CL.callLoadConfigFile.
  destruct visited as [vis|]; simpl.
  all: destruct (loadConfigFile options (calls st) filePath) as [|[document|]];
    try done.
  all: unfold JSON_parse, arrayItems, gets; simpl;
    destruct (alloc_json _ _) as [v s']; simpl;
    by destruct (array_items _ v).
Qed.

End Step.

(** ** Computations that only touch the store

    Merging and assigning never touch a field of the loader: whatever their
    outcome, the loader they leave is the one they found, with another
    store. *)

Definition heap_only {A} (m : M A) : Prop :=
  ∀ st, ∃ s, final (m st) = with_heap (λ _, s) st.

Lemma with_heap_id st : with_heap (λ _, heap st) st = st.
Proof. by destruct st. Qed.

Lemma heap_only_ret {A} (a : A) : heap_only (mret a).
Proof. intros st. exists (heap st). simpl. by rewrite with_heap_id. Qed.

Lemma heap_only_throw {A} e : heap_only (@throw A e).
Proof. intros st. exists (heap st). simpl. by rewrite with_heap_id. Qed.

Lemma heap_only_gets {A} (f : Loader → A) : heap_only (gets f).
Proof. intros st. exists (heap st). simpl. by rewrite with_heap_id. Qed.

Lemma heap_only_bind {A B} (m : M A) (f : A → M B) :
  heap_only m → (∀ a, heap_only (f a)) → heap_only (m ≫= f).
Proof.
  intros Hm Hf st. rewrite bind_eq. destruct (Hm st) as [s1 Hs1].
  destruct (m st) as [a st1|e st1|st1]; simpl in *; try (by exists s1).
  subst st1. destruct (Hf a (with_heap (λ _, s1) st)) as [s2 Hs2].
  exists s2. by rewrite Hs2.
Qed.

Lemma heap_only_foldM {A B} (f : B → A → M B) (l : list A) :
  (∀ b x, heap_only (f b x)) → ∀ b, heap_only (foldM f b l).
Proof.
  intros Hf. induction l as [|x l IH]; intros b; simpl.
  - apply heap_only_ret.
  - apply heap_only_bind; auto.
Qed.

Lemma heap_only_getProp o k : heap_only (getProp o k).
Proof.
  intros st. exists (heap st). unfold getProp.
  destruct (read_prop _ _ _); simpl; by rewrite with_heap_id.
Qed.

Lemma heap_only_modify_heap f : heap_only (modify (with_heap f)).
Proof. intros st. by exists (f (heap st)). Qed.

Lemma heap_only_on_object o f : heap_only (on_object o f).
Proof.
  destruct o; try apply heap_only_ret. apply heap_only_modify_heap.
Qed.

Lemma heap_only_alloc c : heap_only (alloc c).
Proof. intros st. by exists (heap st ++ [c]). Qed.

Lemma heap_only_withSource value source : heap_only (CL.withSource value source).
Proof.
  apply heap_only_bind; [apply heap_only_gets|]. intros. apply heap_only_alloc.
Qed.

Lemma heap_only_mergeObjectValues base loaded :
  heap_only (CL.mergeObjectValues base loaded).
Proof.
  apply heap_only_bind; [apply heap_only_gets|]. intros copy.
  apply heap_only_bind; [|intros; apply heap_only_alloc].
  apply heap_only_foldM. intros result [item source].
  apply heap_only_bind; [apply heap_only_gets|]. intros [];
    [|apply heap_only_ret].
  apply heap_only_bind; [apply heap_only_gets|]. intros entries.
  apply heap_only_foldM. intros result' [key value].
  apply heap_only_bind; [apply heap_only_gets|]. intros [];
    [|apply heap_only_ret].
  apply heap_only_bind; [apply heap_only_withSource|]. intros.
  apply heap_only_ret.
Qed.

Lemma heap_only_pushElement source result element :
  heap_only (CL.pushElement source result element).
Proof.
  apply heap_only_bind; [apply heap_only_gets|]. intros [];
    [|apply heap_only_ret].
  apply heap_only_bind; [apply heap_only_withSource|]. intros.
  apply heap_only_ret.
Qed.

Lemma heap_only_mergeArrayValues base loaded :
  heap_only (CL.mergeArrayValues base loaded).
Proof.
  apply heap_only_bind; [apply heap_only_gets|]. intros spread.
  apply heap_only_bind.
  { destruct spread; [apply heap_only_ret|apply heap_only_throw]. }
  intros copy. apply heap_only_bind; [|intros; apply heap_only_alloc].
  apply heap_only_foldM. intros result [item source].
  apply heap_only_bind; [apply heap_only_gets|]. intros [elements|].
  - apply heap_only_foldM. intros. apply heap_only_pushElement.
  - apply heap_only_pushElement.
Qed.

(** What follows the loop in [importFromGlobKey]. *)
Definition mergeAndAssign (owner : val) (globKey : GlobTypeKey)
    (targetKey : string) (isArray : bool) (loaded : list (val * string))
  : M unit :=
  target ← getProp owner targetKey;
  merged ←
    (if isArray then
       base ← (if truthy target then mret target else alloc (CArr []));
       CL.mergeArrayValues base loaded
     else
       base ← (if truthy target then mret target else alloc (CObj []));
       CL.mergeObjectValues base loaded);
  setProp owner targetKey merged;;
  deleteProp owner (key_name globKey).

Lemma heap_only_mergeAndAssign owner globKey targetKey isArray loaded :
  heap_only (mergeAndAssign owner globKey targetKey isArray loaded).
Proof.
  apply heap_only_bind; [apply heap_only_getProp|]. intros target.
  apply heap_only_bind.
  - destruct isArray.
    + apply heap_only_bind.
      * destruct (truthy target); [apply heap_only_ret|apply heap_only_alloc].
      * intros. apply heap_only_mergeArrayValues.
    + apply heap_only_bind.
      * destruct (truthy target); [apply heap_only_ret|apply heap_only_alloc].
      * intros. apply heap_only_mergeObjectValues.
  - intros merged. apply heap_only_bind; [apply heap_only_on_object|].
    intros. apply heap_only_on_object.
Qed.

(** [importFromGlobKey], once the reference key is found to hold an array:
    track the patterns, resolve them, load the files in sorted order, merge
    and assign. *)
Lemma importFromGlobKey_eq localeCompare options st owner globKey targetKey
    isArray visited globs patterns :
  read_prop (heap st) owner (key_name globKey) = Some globs →
  array_items (heap st) globs = Some patterns →
  CL.importFromGlobKey localeCompare options owner globKey targetKey isArray
    visited st
  = (forM_ patterns CL.trackPattern;;
     matchingFiles ← CL.callFindFilesMatchingGlobs options patterns;
     loaded ← foldM (CL.loadFile options globKey visited) []
                (CL.sort localeCompare matchingFiles);
     mergeAndAssign owner globKey targetKey isArray loaded) st.
Proof.
  intros Hglobs Hitems. unfold CL.importFromGlobKey.
  rewrite bind_eq. unfold getProp at 1. rewrite Hglobs.
  rewrite bind_eq. unfold arrayItems at 1, gets. rewrite Hitems.
  rewrite !bind_eq. destruct (forM_ _ _ _); try done.
  unfold CL.loadFilesFromGlobs. rewrite !bind_eq.
  destruct (CL.callFindFilesMatchingGlobs _ _ _); try done.
Qed.

(** ** [removeDuplicateWarnings] *)

Section Dedup.
Context {A : Type} (same : A → A → bool).

(** [same warning w] holds of [w = warning] only. *)
Hypothesis same_eq : ∀ warning w, same warning w = true ↔ w = warning.

Lemma dedup_from (l result : list A) :
  NoDup result →
  let out := fold_left (λ result warning,
                          if existsb (same warning) result then result
                          else result ++ [warning]) l result in
  NoDup out ∧ ∀ x, x ∈ out ↔ x ∈ result ∨ x ∈ l.
Proof.
  revert result. induction l as [|w l IH]; intros result Hnd; simpl.
  - split; [done|]. intros x. rewrite elem_of_nil. tauto.
  - destruct (existsb (same w) result) eqn:E.
    + destruct (IH result Hnd) as [Hnd' Hin]. split; [done|].
      intros x. rewrite Hin, elem_of_cons.
      apply existsb_exists in E as (y & Hy & Hsame).
      apply same_eq in Hsame. subst y. apply list_elem_of_In in Hy.
      split; [tauto|]. intros [?|[->|?]]; auto.
    + assert (w ∉ result) as Hw.
      { intros Hw. apply list_elem_of_In in Hw.
        assert (existsb (same w) result = true); [|congruence].
        apply existsb_exists. exists w. split; [done|]. by apply same_eq. }
      destruct (IH (result ++ [w])) as [Hnd' Hin].
      { apply NoDup_app. split; [done|]. split; [|apply NoDup_singleton].
        intros x Hx ->%list_elem_of_singleton. done. }
      split; [done|]. intros x.
      rewrite Hin, elem_of_app, list_elem_of_singleton, elem_of_cons. tauto.
Qed.

(** The list without repetition: each warning of [l], once. *)
Lemma dedup_once (l : list A) :
  NoDup (dedup same l) ∧ ∀ x, x ∈ dedup same l ↔ x ∈ l.
Proof.
  destruct (dedup_from l [] (NoDup_nil_2)) as [Hnd Hin]. split; [done|].
  intros x. unfold dedup. rewrite Hin, elem_of_nil. tauto.
Qed.

End Dedup.

Lemma same_multi_eq warning w : same_multi warning w = true ↔ w = warning.
Proof.
  unfold same_multi. destruct warning as [p1 a1 b1], w as [p2 a2 b2]. simpl.
  rewrite !andb_true_iff, String.eqb_eq, !bool_decide_eq_true.
  split; [intros [[-> ->] ->]; done|by intros [= -> -> ->]].
Qed.

Lemma same_array_eq warning w : same_array warning w = true ↔ w = warning.
Proof.
  unfold same_array. destruct warning as [p1], w as [p2]. simpl.
  rewrite String.eqb_eq. split; [by intros ->|by intros [= ->]].
Qed.

(** ** The three diagnostics *)

Lemma has_In x l : StrSet.has x l = true → In x l.
Proof.
  unfold StrSet.has. intros (y & Hy & ->%String.eqb_eq)%existsb_exists. done.
Qed.

Lemma forM_trackPattern_final patterns st :
  ∃ st1, forM_ patterns CL.trackPattern st = Ok tt st1 ∧
         heap st1 = heap st ∧ calls st1 = calls st ∧
         warnings st1 = warnings st ∧ pathsToGlobKey st1 = pathsToGlobKey st ∧
         globKeyToPaths st1 = globKeyToPaths st.
Proof.
  destruct (forM_trackPattern patterns st) as [tracked ->]. by eexists.
Qed.


(** C5, amended. A path that is owned by one reference key and resolved
    under another, when it is not in the visitation chain of that
    resolution: the loop body records one [multipleGlobKeys] diagnostic
    with the owner first, claims nothing, loads nothing and returns the
    payloads it was given.  In every later state the path still belongs to
    its first owner, and [removeDuplicateWarnings] keeps the diagnostic
    exactly once. *)
Theorem ownership_conflict_rejected options st globKey visited loadedData
    filePath existing :
  in_chain st visited filePath = false →
  owned_by_other st globKey filePath = Some existing →
  let warning :=
    {| multi_path := filePath; type1 := existing; type2 := globKey |} in
  CL.loadFile options globKey visited loadedData filePath st
  = Ok loadedData (add_multi warning st) ∧
  existing ≠ globKey ∧
  Props.get filePath (pathsToGlobKey st) = Some existing ∧
  ∀ later, fields_step (add_multi warning st) later →
    Props.get filePath (pathsToGlobKey later) = Some existing ∧
    let returned :=
      multipleGlobKeys (removeDuplicateWarnings (warnings later)) in
    warning ∈ returned ∧ NoDup returned.
Proof.
  intros Hin Hown warning.
  assert (Props.get filePath (pathsToGlobKey st) = Some existing
          ∧ existing ≠ globKey) as [Hget Hne].
  { unfold owned_by_other in Hown.
    destruct (Props.get filePath (pathsToGlobKey st)) as [k|]; [|done].
    case_bool_decide; [|done]. by injection Hown as ->. }
  split; [by apply loadFile_conflict|]. split; [done|]. split; [done|].
  intros later Hlater. split; [by apply (fs_paths _ _ Hlater)|]. simpl.
  destruct (dedup_once same_multi same_multi_eq
              (multipleGlobKeys (warnings later))) as [Hnd Hmem].
  split; [|done]. apply Hmem.
  destruct (fs_multi _ _ Hlater) as [more ->].
  simpl. rewrite !elem_of_app, list_elem_of_singleton. auto.
Qed.





(** ** The loop of [loadFilesFromGlobs]

    What a pass of the loop over [files] may change of the loader: it
    allocates, it adds [files] to the chain and to the ownership map, and it
    leaves every object and every array as it is. *)

Record loop_step (files : list string) (st st' : Loader) : Prop :=
  { ls_length : length (heap st) ≤ length (heap st');
    ls_data : ∀ a c, heap st !! a = Some c → (∀ elems, c ≠ CSet elems) →
      heap st' !! a = Some c;
    ls_sets : ∀ a elems, heap st !! a = Some (CSet elems) →
      ∃ elems', heap st' !! a = Some (CSet elems') ∧
        ∀ p, p ∉ files → StrSet.has p elems' = StrSet.has p elems;
    ls_paths : ∀ p, p ∉ files →
      Props.get p (pathsToGlobKey st') = Props.get p (pathsToGlobKey st) }.

Lemma loop_step_grown files st st' :
  (∃ new, heap st' = heap st ++ new) →
  pathsToGlobKey st' = pathsToGlobKey st →
  loop_step files st st'.
Proof.
  intros [new Hheap] Hpaths. split.
  - rewrite Hheap, length_app. lia.
  - intros a c Ha _. rewrite Hheap. by apply lookup_app_l_Some.
  - intros a elems Ha. exists elems. rewrite Hheap.
    split; [by apply lookup_app_l_Some|done].
  - intros p _. by rewrite Hpaths.
Qed.

Lemma loop_step_refl files st : loop_step files st st.
Proof. apply loop_step_grown; [|done]. exists []. by rewrite app_nil_r. Qed.

Lemma loop_step_trans files1 files2 st1 st2 st3 :
  loop_step files1 st1 st2 → loop_step files2 st2 st3 →
  loop_step (files1 ++ files2) st1 st3.
Proof.
  intros [N1 D1 S1 P1] [N2 D2 S2 P2]. split.
  - lia.
  - eauto.
  - intros a elems Ha. destruct (S1 _ _ Ha) as (e1 & H1 & K1).
    destruct (S2 _ _ H1) as (e2 & H2 & K2). exists e2. split; [done|].
    intros p Hp. rewrite not_elem_of_app in Hp. destruct Hp.
    rewrite K2, K1; done.
  - intros p Hp. rewrite not_elem_of_app in Hp. destruct Hp.
    rewrite P2, P1; done.
Qed.

Lemma has_add_other p q elems :
  p ≠ q → StrSet.has p (StrSet.add q elems) = StrSet.has p elems.
Proof.
  intros Hne. unfold StrSet.add. destruct (StrSet.has q elems); [done|].
  unfold StrSet.has. rewrite existsb_app. simpl.
  apply String.eqb_neq in Hne. rewrite Hne. by rewrite !orb_false_r.
Qed.

Lemma loop_step_claimed globKey visited filePath st :
  loop_step [filePath] st (claimed globKey visited filePath st).
Proof.
  assert (∀ p, p ∉ [filePath] → p ≠ filePath) as Hne.
  { intros p Hp ->. apply Hp. by apply list_elem_of_singleton. }
  split.
  - unfold claimed. destruct visited; simpl; [|done].
    by rewrite update_cell_length.
  - intros a c Ha Hc. unfold claimed. destruct visited as [vis|]; simpl;
      [|done].
    rewrite update_cell_lookup. case_decide as Hd; [|done]. subst a.
    rewrite Ha. simpl. destruct c; try done. by destruct (Hc elems).
  - intros a elems Ha. unfold claimed. destruct visited as [vis|]; simpl.
    + rewrite update_cell_lookup. case_decide as Hd.
      * subst a. rewrite Ha. simpl. eexists. split; [done|].
        intros p Hp. apply has_add_other. auto.
      * by exists elems.
    + by exists elems.
  - intros p Hp. unfold claimed. destruct visited; simpl;
      apply PropsFacts.get_set_other; intros Heq; by apply (Hne p Hp).
Qed.

Lemma loop_step_cloned files document st :
  loop_step files st (cloned document st).2.
Proof.
  unfold cloned. destruct (alloc_json _ _) as [v s] eqn:E.
  apply loop_step_grown; [|done]. simpl. by apply alloc_json_extends in E.
Qed.

(** One iteration returns, whatever [loadConfigFile] answers; a load that
    throws adds no payload and no [arrayValues] diagnostic. *)
Lemma loadFile_step options globKey visited loadedData filePath st :
  ∃ loaded st',
    CL.loadFile options globKey visited loadedData filePath st = Ok loaded st' ∧
    loop_step [filePath] st st' ∧
    (loadConfigFile options (calls st) filePath = Rejects →
     loaded = loadedData ∧
     arrayValues (warnings st') = arrayValues (warnings st)).
Proof.
  destruct (in_chain st visited filePath) eqn:Hin.
  { rewrite (loadFile_cycle options _ _ _ _ _ Hin). eexists _, _.
    split; [done|]. split; [|done]. by apply loop_step_grown; [exists []; rewrite app_nil_r|]. }
  destruct (owned_by_other st globKey filePath) as [existing|] eqn:Hown.
  { rewrite (loadFile_conflict options _ _ _ _ _ _ Hin Hown). eexists _, _.
    split; [done|]. split; [|done]. by apply loop_step_grown; [exists []; rewrite app_nil_r|]. }
  rewrite (loadFile_claim options _ _ _ _ _ Hin Hown), claimAndLoad_eq.
  cbv zeta. pose proof (loop_step_claimed globKey visited filePath st) as Hc.
  assert (arrayValues (warnings (claimed globKey visited filePath st))
          = arrayValues (warnings st)) as Hw by (by destruct visited).
  destruct (loadConfigFile options (calls st) filePath) as [|[document|]];
    [by eauto 10| |by eexists _, _].
  assert (loop_step [filePath] st
            (cloned document (claimed globKey visited filePath st)).2) as Hcl.
  { change [filePath] with ([filePath] ++ []). eapply loop_step_trans; [done|].
    apply loop_step_cloned. }
  destruct document; try (by eexists _, _).
  all: destruct (cloned _ _) as [v st2] eqn:E; simpl in Hcl;
    destruct (array_items (heap st2) v); eexists _, _;
    (split; [done|]); (split; [|done]); try done.
  all: destruct Hcl; split; done.
Qed.

Lemma loadFiles_run options globKey visited files :
  ∀ loadedData st, ∃ loaded st',
    foldM (CL.loadFile options globKey visited) loadedData files st
    = Ok loaded st' ∧
    loop_step files st st' ∧
    ((∀ history filePath, loadConfigFile options history filePath = Rejects) →
     loaded = loadedData ∧
     arrayValues (warnings st') = arrayValues (warnings st)).
Proof.
  induction files as [|filePath files IH]; intros loadedData st; simpl.
  { exists loadedData, st. split; [done|]. split; [apply loop_step_refl|done]. }
  destruct (loadFile_step options globKey visited loadedData filePath st)
    as (loaded1 & st1 & Hrun1 & Hstep1 & Hrej1).
  destruct (IH loaded1 st1) as (loaded2 & st2 & Hrun2 & Hstep2 & Hrej2).
  exists loaded2, st2. rewrite bind_eq, Hrun1. split; [done|]. split.
  - change (filePath :: files) with ([filePath] ++ files).
    by eapply loop_step_trans.
  - intros Hall. destruct (Hrej1 (Hall _ _)) as [-> <-].
    by destruct (Hrej2 Hall) as [-> <-].
Qed.

(** ** [mergeObjectValues], fragment by fragment *)

(** The body of [for (const [key, value] of Object.entries(item))]. *)
Definition assignEntry (source : string) (result : Props.props val)
    (entry : string * val) : M (Props.props val) :=
  let '(key, value) := entry in
  valueIsObject ← isObject value;
  if valueIsObject : bool then
    stamped ← CL.withSource value source;
    mret (Props.set key stamped result)
  else mret (Props.set key value result).

(** The body of [for (const { data: item, source } of loaded)]. *)
Definition mergeItem (result : Props.props val) (payload : val * string)
  : M (Props.props val) :=
  let '(item, source) := payload in
  itemIsObject ← isObject item;
  if itemIsObject : bool then
    entries ← ownProps item;
    foldM (assignEntry source) result entries
  else mret result.

Lemma mergeObjectValues_eq base loaded :
  CL.mergeObjectValues base loaded
  = (copy ← ownProps base;
     result ← foldM mergeItem copy loaded;
     alloc (CObj result)).
Proof. reflexivity. Qed.

Lemma foldM_app {A B} (f : B → A → M B) l1 l2 : ∀ b st,
  foldM f b (l1 ++ l2) st = (b' ← foldM f b l1; foldM f b' l2) st.
Proof.
  induction l1 as [|x l1 IH]; intros b st; simpl; [done|].
  rewrite !bind_eq. destruct (f b x st) as [b1 st1| |]; [|done..].
  by rewrite IH, bind_eq.
Qed.

Lemma foldM_cons {A B} (f : B → A → M B) x l b st :
  foldM f b (x :: l) st = (b' ← f b x; foldM f b' l) st.
Proof. reflexivity. Qed.

Lemma grown_lookup st st' a c :
  grown st st' → heap st !! a = Some c → heap st' !! a = Some c.
Proof. intros [ext ->] H. simpl. by apply lookup_app_l_Some. Qed.

Lemma grown_length st st' : grown st st' → length (heap st) ≤ length (heap st').
Proof. intros [ext ->]. simpl. rewrite length_app. lia. Qed.

Lemma grown_alloc c st : grown st (with_heap (λ s, s ++ [c]) st).
Proof. by exists [c]. Qed.

Lemma assignEntry_grown source result key value st :
  ∃ result' st',
    assignEntry source result (key, value) st = Ok result' st' ∧
    grown st st' ∧
    ∀ k, k ≠ key → Props.get k result' = Props.get k result.
Proof.
  unfold assignEntry. rewrite bind_eq. unfold isObject at 1, gets at 1.
  destruct (is_object (heap st) value).
  - eexists _, _. split; [reflexivity|]. split; [apply grown_alloc|].
    intros k Hk. by apply PropsFacts.get_set_other.
  - eexists _, _. split; [reflexivity|]. split; [apply grown_refl|].
    intros k Hk. by apply PropsFacts.get_set_other.
Qed.

Lemma assignEntries_grown source entries : ∀ result st,
  ∃ result' st',
    foldM (assignEntry source) result entries st = Ok result' st' ∧
    grown st st' ∧
    ∀ k, k ∉ map fst entries → Props.get k result' = Props.get k result.
Proof.
  induction entries as [|[key value] entries IH]; intros result st.
  { exists result, st. split; [done|]. split; [apply grown_refl|done]. }
  destruct (assignEntry_grown source result key value st)
    as (result1 & st1 & Hrun1 & Hg1 & Hk1).
  destruct (IH result1 st1) as (result2 & st2 & Hrun2 & Hg2 & Hk2).
  exists result2, st2. rewrite foldM_cons, bind_eq, Hrun1. split; [done|].
  split; [by eapply grown_trans|].
  intros k Hk. simpl in Hk. rewrite not_elem_of_cons in Hk. destruct Hk.
  rewrite Hk2, Hk1; done.
Qed.

Lemma distinct_cons x l :
  distinct (x :: l) = true → distinct l = true ∧ x ∉ l.
Proof.
  simpl. intros [Hx Hl]%andb_prop. split; [done|].
  intros Hin%list_elem_of_In. apply negb_true_iff in Hx.
  assert (existsb (String.eqb x) l = true); [|congruence].
  apply existsb_exists. exists x. split; [done|apply String.eqb_refl].
Qed.


Lemma mergeItem_grown result payload st :
  ∃ result' st', mergeItem result payload st = Ok result' st' ∧ grown st st'.
Proof.
  destruct payload as [item source]. unfold mergeItem. rewrite bind_eq.
  unfold isObject at 1, gets at 1. destruct (is_object (heap st) item).
  - rewrite bind_eq. unfold ownProps at 1, gets at 1.
    destruct (assignEntries_grown source (own_props (heap st) item) result st)
      as (result' & st' & Hrun & Hg & _).
    by exists result', st'.
  - exists result, st. split; [done|apply grown_refl].
Qed.

Lemma mergeItems_grown loaded : ∀ result st,
  ∃ result' st', foldM mergeItem result loaded st = Ok result' st' ∧ grown st st'.
Proof.
  induction loaded as [|payload loaded IH]; intros result st.
  { exists result, st. split; [done|apply grown_refl]. }
  destruct (mergeItem_grown result payload st) as (result1 & st1 & Hrun1 & Hg1).
  destruct (IH result1 st1) as (result2 & st2 & Hrun2 & Hg2).
  exists result2, st2. rewrite foldM_cons, bind_eq, Hrun1. split; [done|].
  by eapply grown_trans.
Qed.

(** [mergeObjectValues] returns a new object. *)
Lemma mergeObjectValues_grown base loaded st :
  ∃ result st1,
    foldM mergeItem (own_props (heap st) base) loaded st = Ok result st1 ∧
    grown st st1 ∧
    CL.mergeObjectValues base loaded st
    = Ok (VRef (length (heap st1)))
        (with_heap (λ s, s ++ [CObj result]) st1).
Proof.
  destruct (mergeItems_grown loaded (own_props (heap st) base) st)
    as (result & st1 & Hrun & Hg).
  exists result, st1. split; [done|]. split; [done|].
  rewrite mergeObjectValues_eq, bind_eq. unfold ownProps at 1, gets at 1.
  by rewrite bind_eq, Hrun.
Qed.


(** [config[targetKey] = merged; delete config[globKey]] *)
Lemma assign_and_delete owner ps globKey targetKey merged st :
  heap st !! owner = Some (CObj ps) →
  (setProp (VRef owner) targetKey merged;;
   deleteProp (VRef owner) (key_name globKey)) st
  = Ok tt (with_heap
             (λ s, <[owner := CObj (Props.remove (key_name globKey)
                                      (Props.set targetKey merged ps))]> s) st).
Proof.
  intros Hcell. rewrite bind_eq. unfold setProp, deleteProp, on_object, modify.
  simpl. f_equal. unfold with_heap. simpl. f_equal.
  unfold update_cell. rewrite Hcell.
  rewrite list_lookup_insert_eq by (by eapply lookup_lt_Some).
  by rewrite list_insert_insert_eq.
Qed.

(** ** [mergeArrayValues], fragment by fragment *)

(** The body of [for (const { data: item, source } of loaded)]. *)
Definition appendItem (result : list val) (payload : val * string)
  : M (list val) :=
  let '(item, source) := payload in
  elements ← arrayItems item;
  match elements with
  | Some elements => foldM (CL.pushElement source) result elements
  | None => CL.pushElement source result item
  end.

Lemma mergeArrayValues_eq base loaded :
  CL.mergeArrayValues base loaded
  = (spread ← gets (λ st, iterate (heap st) base);
     copy ← match spread with
            | Some items => mret items
            | None => throw TypeError
            end;
     result ← foldM appendItem copy loaded;
     alloc (CArr result)).
Proof. reflexivity. Qed.

Lemma pushElement_grown source result element st :
  ∃ result' st',
    CL.pushElement source result element st = Ok result' st' ∧ grown st st'.
Proof.
  unfold CL.pushElement. rewrite bind_eq. unfold isObject at 1, gets at 1.
  destruct (is_object (heap st) element).
  - eexists _, _. split; [reflexivity|apply grown_alloc].
  - eexists _, _. split; [reflexivity|apply grown_refl].
Qed.

Lemma pushElements_grown source elements : ∀ result st,
  ∃ result' st',
    foldM (CL.pushElement source) result elements st = Ok result' st' ∧
    grown st st'.
Proof.
  induction elements as [|element elements IH]; intros result st.
  { exists result, st. split; [done|apply grown_refl]. }
  destruct (pushElement_grown source result element st)
    as (result1 & st1 & Hrun1 & Hg1).
  destruct (IH result1 st1) as (result2 & st2 & Hrun2 & Hg2).
  exists result2, st2. rewrite foldM_cons, bind_eq, Hrun1. split; [done|].
  by eapply grown_trans.
Qed.

Lemma appendItem_grown result payload st :
  ∃ result' st', appendItem result payload st = Ok result' st' ∧ grown st st'.
Proof.
  destruct payload as [item source]. unfold appendItem. rewrite bind_eq.
  unfold arrayItems at 1, gets at 1. destruct (array_items (heap st) item).
  - apply pushElements_grown.
  - apply pushElement_grown.
Qed.

Lemma appendItems_grown loaded : ∀ result st,
  ∃ result' st', foldM appendItem result loaded st = Ok result' st' ∧ grown st st'.
Proof.
  induction loaded as [|payload loaded IH]; intros result st.
  { exists result, st. split; [done|apply grown_refl]. }
  destruct (appendItem_grown result payload st) as (result1 & st1 & Hrun1 & Hg1).
  destruct (IH result1 st1) as (result2 & st2 & Hrun2 & Hg2).
  exists result2, st2. rewrite foldM_cons, bind_eq, Hrun1. split; [done|].
  by eapply grown_trans.
Qed.

(** [mergeArrayValues] returns a new array, unless its base cannot be
    spread. *)
Lemma mergeArrayValues_run base loaded st :
  match iterate (heap st) base with
  | Some items =>
      ∃ result st1,
        foldM appendItem items loaded st = Ok result st1 ∧
        grown st st1 ∧
        CL.mergeArrayValues base loaded st
        = Ok (VRef (length (heap st1)))
            (with_heap (λ s, s ++ [CArr result]) st1)
  | None => CL.mergeArrayValues base loaded st = Thrown TypeError st
  end.
Proof.
  rewrite mergeArrayValues_eq.
  destruct (iterate (heap st) base) as [items|] eqn:Hspread.
  - destruct (appendItems_grown loaded items st) as (result & st1 & Hrun & Hg).
    exists result, st1. split; [done|]. split; [done|].
    rewrite bind_eq. unfold gets at 1. rewrite Hspread.
    rewrite bind_eq. unfold mret at 1, M_ret at 1. by rewrite bind_eq, Hrun.
  - rewrite bind_eq. unfold gets at 1. by rewrite Hspread.
Qed.

(** The value that [importFromGlobKey] assigns to the target key. *)
Definition mergeWithBase (isArray : bool) (target : val)
    (loaded : list (val * string)) : M val :=
  if isArray then
    base ← (if truthy target then mret target else alloc (CArr []));
    CL.mergeArrayValues base loaded
  else
    base ← (if truthy target then mret target else alloc (CObj []));
    CL.mergeObjectValues base loaded.

Lemma mergeAndAssign_eq owner globKey targetKey isArray loaded :
  mergeAndAssign owner globKey targetKey isArray loaded
  = (target ← getProp owner targetKey;
     merged ← mergeWithBase isArray target loaded;
     setProp owner targetKey merged;;
     deleteProp owner (key_name globKey)).
Proof. reflexivity. Qed.

(** When it returns, it returns a new cell and has only allocated. *)
Lemma mergeWithBase_grown isArray target loaded st merged st' :
  mergeWithBase isArray target loaded st = Ok merged st' →
  grown st st' ∧ ∃ a, merged = VRef a ∧ length (heap st) ≤ a.
Proof.
  unfold mergeWithBase. destruct isArray; rewrite bind_eq.
  - assert (∃ base st1, (if truthy target then mret target
                         else alloc (CArr [])) st = Ok base st1 ∧ grown st st1)
      as (base & st1 & -> & Hg1).
    { destruct (truthy target); eexists _, _;
        (split; [reflexivity|]); [apply grown_refl|apply grown_alloc]. }
    pose proof (mergeArrayValues_run base loaded st1) as Hrun.
    destruct (iterate (heap st1) base); [|by rewrite Hrun].
    destruct Hrun as (result & st2 & _ & Hg2 & ->). intros [= <- <-].
    split.
    + eapply grown_trans; [done|]. eapply grown_trans; [done|apply grown_alloc].
    + eexists. split; [done|]. apply grown_length in Hg1, Hg2. lia.
  - assert (∃ base st1, (if truthy target then mret target
                         else alloc (CObj [])) st = Ok base st1 ∧ grown st st1)
      as (base & st1 & -> & Hg1).
    { destruct (truthy target); eexists _, _;
        (split; [reflexivity|]); [apply grown_refl|apply grown_alloc]. }
    destruct (mergeObjectValues_grown base loaded st1)
      as (result & st2 & _ & Hg2 & ->). intros [= <- <-].
    split.
    + eapply grown_trans; [done|]. eapply grown_trans; [done|apply grown_alloc].
    + eexists. split; [done|]. apply grown_length in Hg1, Hg2. lia.
Qed.

(** [importFromGlobKey] up to the loop: the patterns are tracked and
    resolved. *)
Lemma importFromGlobKey_resolved localeCompare options st owner globKey
    targetKey isArray visited globs patterns :
  read_prop (heap st) owner (key_name globKey) = Some globs →
  array_items (heap st) globs = Some patterns →
  ∃ st0,
    heap st0 = heap st ∧ warnings st0 = warnings st ∧
    pathsToGlobKey st0 = pathsToGlobKey st ∧
    calls st0 = calls st ++ [FindCall patterns] ∧
    CL.importFromGlobKey localeCompare options owner globKey targetKey isArray
      visited st
    = match findFilesMatchingGlobs options (calls st) patterns with
      | Some files =>
          (loaded ← foldM (CL.loadFile options globKey visited) []
                      (CL.sort localeCompare files);
           mergeAndAssign owner globKey targetKey isArray loaded) st0
      | None => Thrown CollaboratorFault st0
      end.
Proof.
  intros Hglobs Hitems.
  rewrite (importFromGlobKey_eq _ _ _ _ _ _ _ _ _ _ Hglobs Hitems).
  rewrite bind_eq.
  destruct (forM_trackPattern_final patterns st)
    as (st1 & -> & Hheap & Hcalls & Hw & Hp & _).
  exists (with_calls (λ h, h ++ [FindCall patterns]) st1). simpl.
  rewrite Hcalls. do 4 (split; [done|]).
  rewrite bind_eq. unfold CL.callFindFilesMatchingGlobs at 1. rewrite Hcalls.
  by destruct (findFilesMatchingGlobs options (calls st) patterns).
Qed.

Lemma targets_not_references k :
  In k target_keys → is_reference_key k = false.
Proof.
  simpl. intros H. repeat (destruct H as [<-|H]; [reflexivity|]). done.
Qed.

(** C8, amended. A reference key that holds a sequence of patterns is
    deleted from its containing structure when [importFromGlobKey] returns
    for it, whatever the shape of the target and whatever was loaded; and
    an object that exists when [mergeConfiguration] starts and lacks a
    reference key still lacks it when [mergeConfiguration] ends.  The
    objects that a merge creates are no such objects: they hold the keys
    of the fragments, whatever these are. *)
Theorem resolved_reference_key_deleted localeCompare options :
  (∀ st owner ps globKey targetKey isArray visited globs patterns st',
     heap st !! owner = Some (CObj ps) →
     Props.get (key_name globKey) ps = Some globs →
     array_items (heap st) globs = Some patterns →
     CL.importFromGlobKey localeCompare options (VRef owner) globKey targetKey
       isArray visited st = Ok tt st' →
     ∃ ps', heap st' !! owner = Some (CObj ps') ∧
            Props.get (key_name globKey) ps' = None ∧
            ∀ k, k ≠ key_name globKey → k ≠ targetKey →
                 Props.get k ps' = Props.get k ps) ∧
  (∀ fuel root st a ps k,
     warnings st = no_warnings →
     heap st !! a = Some (CObj ps) →
     is_reference_key k = true →
     Props.get k ps = None →
     ∃ ps',
       heap (final (CL.mergeConfiguration localeCompare options fuel root st))
         !! a = Some (CObj ps') ∧
       Props.get k ps' = None).
Proof.
  split.
  - intros st owner ps globKey targetKey isArray visited globs patterns st'
      Hcell Hglobs Hitems.
    destruct (importFromGlobKey_resolved localeCompare options st (VRef owner)
                globKey targetKey isArray visited globs patterns)
      as (st0 & Hheap & _ & _ & _ & ->); [|done|].
    { simpl. by rewrite Hcell, Hglobs. }
    destruct (findFilesMatchingGlobs options (calls st) patterns)
      as [files|]; [|done].
    rewrite bind_eq.
    destruct (loadFiles_run options globKey visited
                (CL.sort localeCompare files) [] st0)
      as (loaded & st1 & -> & Hloop & _).
    assert (heap st1 !! owner = Some (CObj ps)) as Hcell1.
    { apply (ls_data _ _ _ Hloop); [by rewrite Hheap|done]. }
    rewrite mergeAndAssign_eq, bind_eq. unfold getProp at 1, read_prop.
    rewrite Hcell1. rewrite bind_eq.
    destruct (mergeWithBase isArray _ loaded st1) as [merged st2| |] eqn:Hmerge;
      [|done..].
    apply mergeWithBase_grown in Hmerge as [Hg _]. cbv beta iota.
    rewrite (assign_and_delete owner ps)
      by (by apply (grown_lookup _ _ _ _ Hg)).
    intros [= <-]. eexists. simpl. split.
    { apply list_lookup_insert_eq. apply grown_length in Hg.
      apply lookup_lt_Some in Hcell1. lia. }
    split; [apply PropsFacts.get_remove_same|].
    intros k Hk Hk'.
    rewrite PropsFacts.get_remove_other, PropsFacts.get_set_other; done.
  - intros fuel root st a ps k Hw Hcell Hk Hnone.
    pose proof (sound_mergeConfiguration 0 is_reference_key localeCompare
                  options targets_not_references fuel root st (inv_0 st)
                  (fresh_0 root) Hw) as Hrun.
    apply run_ok_final in Hrun as [_ [Hstep _]].
    destruct (hs_objects _ _ _ _ Hstep _ _ Hcell) as (ps' & Hcell' & Hkeep).
    exists ps'. split; [done|]. by apply Hkeep.
Qed.




(** ** Loads that fail, against patterns that match nothing

    When every call of [loadConfigFile] throws, a run differs from the run
    in which no pattern matches a file in what the loader records about
    paths (ownership, chains, calls, the diagnostics of the two checks),
    and in nothing that the walker reads.  The two runs are followed side
    by side. *)


(** Two cells are the same up to the elements of a set. *)
Definition same_cell (c1 c2 : cell) : Prop :=
  match c1, c2 with
  | CSet _, CSet _ => True
  | _, _ => c1 = c2
  end.

Definition alike (s1 s2 : store) : Prop := Forall2 same_cell s1 s2.

Definition is_set (c : cell) : bool :=
  match c with CSet _ => true | _ => false end.



















Section Twin.
Variable n0 : nat.

Local Abbreviation fresh := (fresh_val n0).

(** A value of the tree: a primitive, or an object or an array that the
    loader allocated; not a visitation set. *)
Definition data_val (s : store) (v : val) : Prop :=
  match v with
  | VRef b => n0 ≤ b ∧ ∃ c, s !! b = Some c ∧ is_set c = false
  | _ => True
  end.

Definition data_cell (s : store) (c : cell) : Prop :=
  match c with
  | CObj ps => Forall (λ p, data_val s p.2) ps
  | CArr items => Forall (data_val s) items
  | CSet _ => True
  end.

(** The cells that the loader allocated hold values of the tree only: no
    visitation set is ever stored. *)
Definition tidy (s : store) : Prop :=
  n0 ≤ length s ∧ ∀ a c, n0 ≤ a → s !! a = Some c → data_cell s c.




















(** *** Two loaders side by side *)

Record twin (st1 st2 : Loader) : Prop :=
  { tw_alike : alike (heap st1) (heap st2);
    tw_tidy : tidy (heap st1);
    tw_patterns : globPatterns st1 = globPatterns st2;
    tw_arrays : arrayValues (warnings st1) = [];
    tw_arrays' : arrayValues (warnings st2) = [] }.





Lemma twin_fields st1 st2 (g : Loader → Loader) :
  (∀ st, heap (g st) = heap st) →
  (∀ st, globPatterns (g st) = globPatterns st) →
  (∀ st, arrayValues (warnings (g st)) = arrayValues (warnings st)) →
  twin st1 st2 → twin (g st1) (g st2).
Proof.
  intros Hh Hp Hw [Ha Ht Hpat Hw1 Hw2]. split; rewrite ?Hh, ?Hp, ?Hw; done.
Qed.



(** [sim m1 m2 Q]: from two loaders side by side, [m1] and [m2] end in the
    same way: both return, the same result, which satisfies [Q], and
    leave two loaders side by side; or both throw a [TypeError]; or both
    run out of fuel. *)
Definition sim {A} (m1 m2 : M A) (Q : A → Prop) : Prop :=
  ∀ st1 st2, twin st1 st2 →
    match m1 st1, m2 st2 with
    | Ok a1 st1', Ok a2 st2' => a1 = a2 ∧ twin st1' st2' ∧ Q a1
    | Thrown e1 _, Thrown e2 _ => e1 = TypeError ∧ e2 = TypeError
    | OutOfFuel _, OutOfFuel _ => True
    | _, _ => False
    end.



Lemma sim_weaken {A} (m1 m2 : M A) (P Q : A → Prop) :
  sim m1 m2 P → (∀ a, P a → Q a) → sim m1 m2 Q.
Proof.
  intros Hm HPQ st1 st2 Htw. specialize (Hm st1 st2 Htw).
  destruct (m1 st1), (m2 st2); try done.
  destruct Hm as (? & ? & ?). eauto.
Qed.






(** *** The store *)








(** [simOn pre m1 m2 Q]: as [sim], from a store where [pre] holds, to a
    result and a store where [Q] holds. *)
Definition simOn {A} (pre : store → Prop) (m1 m2 : M A)
    (Q : A → store → Prop) : Prop :=
  ∀ st1 st2, twin st1 st2 → pre (heap st1) →
    match m1 st1, m2 st2 with
    | Ok a1 st1', Ok a2 st2' => a1 = a2 ∧ twin st1' st2' ∧ Q a1 (heap st1')
    | Thrown e1 _, Thrown e2 _ => e1 = TypeError ∧ e2 = TypeError
    | OutOfFuel _, OutOfFuel _ => True
    | _, _ => False
    end.


Lemma simOn_sim {A} (m1 m2 : M A) pre (Q : A → Prop) :
  sim m1 m2 Q → simOn pre m1 m2 (λ a _, Q a).
Proof. intros H st1 st2 Htw _. by apply H. Qed.











(** *** The loop, when every load fails *)






(** *** The walker, side by side *)

Variable localeCompare : string → string → Z.
Variables run other : MergeConfigurationOptions.

Hypothesis run_rejects : ∀ history p, loadConfigFile run history p = Rejects.
Hypothesis other_rejects :
  ∀ history p, loadConfigFile other history p = Rejects.
Hypothesis run_answers :
  ∀ history patterns, findFilesMatchingGlobs run history patterns ≠ None.
Hypothesis other_answers :
  ∀ history patterns, findFilesMatchingGlobs other history patterns ≠ None.

Local Abbreviation quiet := (λ _ : unit, True).












End Twin.



(** ** The sort of the matched paths *)

Lemma sort_insert_Permutation localeCompare x l :
  CL.sort_insert localeCompare x l ≡ₚ x :: l.
Proof.
  induction l as [|y l IH]; simpl; [done|].
  destruct (localeCompare x y <=? 0)%Z; [done|].
  rewrite IH. apply Permutation_swap.
Qed.

Lemma sort_Permutation localeCompare l : CL.sort localeCompare l ≡ₚ l.
Proof.
  unfold CL.sort. induction l as [|x l IH]; simpl; [done|].
  by rewrite sort_insert_Permutation, IH.
Qed.




(** ** The payload of a fragment, once cloned *)

(** The clone of an object is a new object; every cell of the clone is new,
    and the clone stays the document as long as its cells are not
    written. *)
Lemma clone_object members s :
  ∃ root ps new,
    alloc_json (JObj members) s = (VRef root, s ++ new) ∧
    length s ≤ root ∧
    (s ++ new) !! root = Some (CObj ps) ∧
    (∀ k inner, In (k, VRef inner) ps → length s ≤ inner) ∧
    ∀ s', agree (length s) (length (s ++ new)) (s ++ new) s' →
          represents s' (VRef root) (JObj members).
Proof.
  destruct (alloc_json (JObj members) s) as [v s1] eqn:E.
  pose proof E as Hobj. rewrite alloc_json_obj in Hobj.
  destruct (alloc_members members s) as [ps s2] eqn:Emem.
  unfold alloc_cell in Hobj. injection Hobj as <- <-.
  destruct (alloc_members_extends _ _ _ _ Emem) as [new2 ->].
  exists (length (s ++ new2)), ps, (new2 ++ [CObj ps]).
  rewrite app_assoc. split; [done|].
  split; [rewrite length_app; lia|].
  split; [by rewrite lookup_app_r, Nat.sub_diag by lia|].
  split; [|by apply (alloc_json_represents _ _ _ _ E)].
  intros k inner Hin. rewrite <- app_assoc in E.
  destruct (alloc_json_fresh (length s) _ _ _ _ (Nat.le_refl _) E)
    as [_ Hnew].
  rewrite Forall_forall in Hnew.
  assert (fresh_cell (length s) (CObj ps)) as Hcell.
  { apply Hnew, elem_of_app. right. by apply list_elem_of_singleton. }
  simpl in Hcell. rewrite Forall_forall in Hcell.
  by apply (Hcell (k, VRef inner)), list_elem_of_In.
Qed.








(** ** A structure value that names the glob that is being expanded *)

Section Nested.
Variable localeCompare : string → string → Z.
Variable options : MergeConfigurationOptions.





End Nested.


(** ** Scenarios of [loader.test.ts] *)

Module Scenario.

(** A collation: code-unit order.  The paths of the scenarios differ at a
    lower-case letter, where it orders as the collations of the runtime
    do. *)
Definition byCodeUnit (a b : string) : Z :=
  match String.compare a b with
  | Lt => (-1)%Z
  | Eq => 0%Z
  | Gt => 1%Z
  end.

(** A collaborator that resolves every pattern list to [files]. *)
Definition resolveTo (files : list string) : list Call → list val → option (list string) :=
  λ _ _, Some files.

(** A collaborator that reads [files], a list of paths with their contents;
    a path that is not listed resolves to [undefined]. *)
Definition readFrom (files : list (string * json)) : list Call → string → LoadResult :=
  λ _ path, Resolves (Props.get path files).

(** The caller's value for a configuration document, in an empty store. *)
Definition parsed (document : json) : val * store := alloc_json document [].

(** 'does not mutate the original config' *)
Definition existingConfig : json :=
  JObj [ ("collections_config",
          JObj [("existing", JObj [("path", JStr "content/existing")])]);
         ("collections_config_from_glob",
          JArr [JStr "/.cloudcannon/collections/*.yml"]) ].

Definition postsOptions : MergeConfigurationOptions :=
  {| findFilesMatchingGlobs := resolveTo ["/.cloudcannon/collections/posts.yml"];
     loadConfigFile := λ _ _,
       Resolves (Some (JObj [("posts", JObj [("path", JStr "content/posts")])])) |}.

(** What a caller sees of a run: the returned tree as a document, the
    warnings, the ownership map and the calls that were made. *)
Definition observed (run : outcome GlobResult)
  : option (option json * GlobLoaderWarnings * Props.props GlobTypeKey
            * list Call) :=
  match run with
  | Ok r st => Some (JSON_stringify (heap st) (config r), result_warnings r,
                     result_pathsToGlobKey r, calls st)
  | _ => None
  end.

(** The loader as the exported function starts it, on a document. *)
Definition started (document : json) : Loader := new_loader (parsed document).2.
Definition root (document : json) : val := (parsed document).1.

(** After 'merges inputs from glob patterns': two files, with a key in
    both. *)
Definition inputsConfig : json :=
  JObj [("_inputs_from_glob", JArr [JStr "/.cloudcannon/inputs/*.yml"])].

Definition seoInputs : json :=
  JObj [("title", JObj [("type", JStr "text")]);
        ("description", JObj [("type", JStr "textarea")])].

Definition blogInputs : json :=
  JObj [("title", JObj [("type", JStr "markdown"); ("comment", JStr "Blog")])].

Definition inputsOptions : MergeConfigurationOptions :=
  {| findFilesMatchingGlobs :=
       resolveTo ["/.cloudcannon/inputs/seo.yml"; "/.cloudcannon/inputs/blog.yml"];
     loadConfigFile :=
       readFrom [("/.cloudcannon/inputs/blog.yml", blogInputs);
                 ("/.cloudcannon/inputs/seo.yml", seoInputs)] |}.



(** 'returns config unchanged when no glob keys present' *)
Definition plainConfig : json :=
  JObj [("source", JStr "src");
        ("collections_config",
         JObj [("posts", JObj [("path", JStr "content/posts")])]);
        ("_inputs",
         JObj [("title", JObj [("type", JStr "text");
                               ("options", JObj [("structures",
                                  JObj [("values", JArr [JObj [("label", JStr "A")]])])])])])].

(** 'warns when a structure value references a file already in the chain':
    a structure whose nested input options name the glob that is being
    expanded. *)
Definition hero : string := "/.cloudcannon/structures/hero.yml".
Definition structuresGlob : json := JArr [JStr "/.cloudcannon/structures/*.yml"].

Definition nestedStructures : json :=
  JObj [("values_from_glob", structuresGlob)].

(** The store when the nested structures of [hero] are expanded: the
    patterns, the structures object and the chain, which holds [hero]. *)
Definition expandingHero : Loader :=
  with_heap (λ s, s ++ [CSet [hero]]) (started nestedStructures).

Definition heroOptions : MergeConfigurationOptions :=
  {| findFilesMatchingGlobs := resolveTo [hero];
     loadConfigFile := readFrom [(hero, JObj [("label", JStr "Hero")])] |}.

(** 'warns when same file matches multiple glob types' *)
Definition shared : string := "/.cloudcannon/config.yml".

Definition twoKeysConfig : json :=
  JObj [("collections_config_from_glob", JArr [JStr "/.cloudcannon/*.yml"]);
        ("_inputs_from_glob", JArr [JStr "/.cloudcannon/*.yml"])].

Definition sharedOptions : MergeConfigurationOptions :=
  {| findFilesMatchingGlobs := resolveTo [shared];
     loadConfigFile :=
       readFrom [(shared, JObj [("posts", JObj [("path", JStr "content/posts")])])] |}.

(** The loader once [collections_config_from_glob] is imported. *)
Definition collectionsImported : Loader :=
  final (CL.importFromGlobKey byCodeUnit sharedOptions (root twoKeysConfig)
           collections_config_from_glob "collections_config" false None
           (started twoKeysConfig)).

(** 'warns about array values in config files' *)
Definition arrayFile : string := "/.cloudcannon/collections/invalid.yml".

Definition arrayOptions : MergeConfigurationOptions :=
  {| findFilesMatchingGlobs := resolveTo [arrayFile];
     loadConfigFile := readFrom [(arrayFile, JArr [JObj [("path", JStr "content/posts")]])] |}.

(** 'handles file load errors gracefully' *)
Definition broken : string := "/.cloudcannon/inputs/broken.yml".

Definition brokenOptions : MergeConfigurationOptions :=
  {| findFilesMatchingGlobs := resolveTo [broken];
     loadConfigFile := λ _ _, Rejects |}.

(** A fragment of [_inputs_from_glob] with a reference key of its own. *)
Definition nestedKeyOptions : MergeConfigurationOptions :=
  {| findFilesMatchingGlobs := resolveTo ["/.cloudcannon/inputs/seo.yml"];
     loadConfigFile :=
       readFrom
         [("/.cloudcannon/inputs/seo.yml",
           JObj [("title", JObj [("type", JStr "text")]);
                 ("_structures_from_glob",
                  JArr [JStr "/.cloudcannon/structures/*.yml"])])] |}.

(** A reference key that holds one pattern, not a sequence of patterns. *)
Definition patternConfig : json :=
  JObj [("_inputs_from_glob", JStr "/.cloudcannon/inputs/*.yml")].

(** 'excludes negation patterns from tracked glob patterns' *)
Definition negatedConfig : json :=
  JObj [("collections_config_from_glob",
         JArr [JStr "/.cloudcannon/collections/*.yml";
               JStr "!/.cloudcannon/collections/draft.yml"])].

(** A structure whose values come from a fragment that imports its inputs
    from the fragment itself. *)
Definition selfImporting : json :=
  JObj [("_structures",
         JObj [("blocks", JObj [("values_from_glob", JArr [JStr hero])])])].

Definition selfImportingOptions : MergeConfigurationOptions :=
  {| findFilesMatchingGlobs := resolveTo [hero];
     loadConfigFile :=
       readFrom [(hero, JObj [("label", JStr "Hero");
                              ("_inputs_from_glob", JArr [JStr hero])])] |}.



(** The warnings that a run returns. *)
Definition reported (run : outcome GlobResult) : option GlobLoaderWarnings :=
  match run with
  | Ok r _ => Some (result_warnings r)
  | _ => None
  end.

Definition blocksConfig : json :=
  JObj [("_structures", JObj [("blocks", JObj [("values_from_glob", structuresGlob)])])].

Definition nestedHeroOptions : MergeConfigurationOptions :=
  {| findFilesMatchingGlobs := resolveTo [hero];
     loadConfigFile :=
       readFrom
         [(hero,
           JObj [("label", JStr "Hero");
                 ("_inputs",
                  JObj [("nested_blocks",
                         JObj [("type", JStr "array");
                               ("options",
                                JObj [("structures", nestedStructures)])])])])] |}.

Definition collectionsGlobConfig : json :=
  JObj [("collections_config_from_glob",
         JArr [JStr "/.cloudcannon/collections/*.yml"])].



End Scenario.

(** ** The theorems at work on the scenarios *)

Lemma input_never_mutated_witness :
  let s := (Scenario.parsed Scenario.existingConfig).2 in
  let input := Scenario.root Scenario.existingConfig in
  let after :=
    final (mergeConfiguration Scenario.byCodeUnit 1 s input Scenario.postsOptions) in
  (∀ a, a < length s → heap after !! a = s !! a) ∧
  JSON_stringify (heap after) input = JSON_stringify s input.
Proof.
  apply (input_never_mutated Scenario.byCodeUnit 1
           (Scenario.parsed Scenario.existingConfig).2
           (Scenario.root Scenario.existingConfig) Scenario.postsOptions);
    vm_compute; reflexivity.
Defined.


Lemma no_reference_keys_identity_witness :
  ∃ r st,
    mergeConfiguration Scenario.byCodeUnit 7
      (Scenario.parsed Scenario.plainConfig).2 (Scenario.root Scenario.plainConfig)
      Scenario.postsOptions = Ok r st ∧
    represents (heap st) (config r) Scenario.plainConfig ∧
    JSON_stringify (heap st) (config r) = Some Scenario.plainConfig ∧
    result_warnings r = no_warnings ∧ calls st = [] ∧
    (represents (Scenario.parsed Scenario.plainConfig).2
       (Scenario.root Scenario.plainConfig) Scenario.plainConfig →
     ∀ document,
       represents (Scenario.parsed Scenario.plainConfig).2
         (Scenario.root Scenario.plainConfig) document
       ↔ represents (heap st) (config r) document).
Proof.
  apply (no_reference_keys_identity Scenario.byCodeUnit Scenario.postsOptions 7
           (Scenario.parsed Scenario.plainConfig).2
           (Scenario.root Scenario.plainConfig));
    [reflexivity|reflexivity|reflexivity|vm_compute; lia].
Defined.


Lemma ownership_conflict_rejected_witness :
  let warning :=
    {| multi_path := Scenario.shared; type1 := collections_config_from_glob;
       type2 := _inputs_from_glob |} in
  CL.loadFile Scenario.sharedOptions _inputs_from_glob None [] Scenario.shared
    Scenario.collectionsImported
  = Ok [] (add_multi warning Scenario.collectionsImported) ∧
  collections_config_from_glob ≠ _inputs_from_glob ∧
  Props.get Scenario.shared (pathsToGlobKey Scenario.collectionsImported)
  = Some collections_config_from_glob ∧
  ∀ later, fields_step (add_multi warning Scenario.collectionsImported) later →
    Props.get Scenario.shared (pathsToGlobKey later)
    = Some collections_config_from_glob ∧
    let returned :=
      multipleGlobKeys (removeDuplicateWarnings (warnings later)) in
    warning ∈ returned ∧ NoDup returned.
Proof.
  apply (ownership_conflict_rejected Scenario.sharedOptions
           Scenario.collectionsImported _inputs_from_glob None []
           Scenario.shared collections_config_from_glob);
    reflexivity.
Defined.



Lemma resolved_reference_key_deleted_witness :
  ∃ ps',
    heap Scenario.collectionsImported !! 2 = Some (CObj ps') ∧
    Props.get "collections_config_from_glob" ps' = None ∧
    ∀ k, k ≠ "collections_config_from_glob" → k ≠ "collections_config" →
         Props.get k ps'
         = Props.get k [("collections_config_from_glob", VRef 0);
                        ("_inputs_from_glob", VRef 1)].
Proof.
  apply (proj1 (resolved_reference_key_deleted Scenario.byCodeUnit
                  Scenario.sharedOptions)
           (Scenario.started Scenario.twoKeysConfig) 2
           [("collections_config_from_glob", VRef 0);
            ("_inputs_from_glob", VRef 1)]
           collections_config_from_glob "collections_config" false None
           (VRef 0) [VStr "/.cloudcannon/*.yml"] Scenario.collectionsImported);
    vm_compute; reflexivity.
Defined.

Lemma negated_patterns_untracked_and_passed_witness :
  ∃ rest,
    calls (final (CL.importFromGlobKey Scenario.byCodeUnit Scenario.postsOptions
                    (VRef 1) collections_config_from_glob "collections_config"
                    false None (Scenario.started Scenario.negatedConfig)))
    = [] ++ FindCall [VStr "/.cloudcannon/collections/*.yml";
                      VStr "!/.cloudcannon/collections/draft.yml"] :: rest.
Proof.
  apply (proj2 (negated_patterns_untracked_and_passed Scenario.byCodeUnit
                  Scenario.postsOptions)
           (Scenario.started Scenario.negatedConfig) (VRef 1)
           collections_config_from_glob "collections_config" false None
           (VRef 0));
    reflexivity.
Defined.


(** ** Runs that the specification does not describe *)

(** C2. A key of the configuration holds [undefined]: the configuration has
    no reference key, and the tree that is returned lacks the key. *)
Lemma undefined_valued_key_is_dropped :
  let s := [CObj [("title", VStr "Site"); ("draft", VUndef)]] in
  (own_props s (VRef 0),
   match mergeConfiguration Scenario.byCodeUnit 3 s (VRef 0)
           Scenario.postsOptions with
   | Ok r st => Some (own_props (heap st) (config r), result_warnings r,
                      calls st)
   | _ => None
   end)
  = ([("title", VStr "Site"); ("draft", VUndef)],
     Some ([("title", VStr "Site")], no_warnings, [])).
Proof. vm_compute. reflexivity. Qed.

(** C5. The fragment of [values_from_glob] imports its inputs from itself:
    its path is resolved under [values_from_glob], then under
    [_inputs_from_glob] inside the chain of the first resolution.  The second
    resolution is reported as a cycle; no [multipleGlobKeys] diagnostic is
    recorded. *)
Lemma conflict_inside_chain_reported_as_cycle :
  Scenario.observed
    (mergeConfiguration Scenario.byCodeUnit 3
       (Scenario.parsed Scenario.selfImporting).2
       (Scenario.root Scenario.selfImporting) Scenario.selfImportingOptions)
  = Some
      (Some (JObj [("_structures",
               JObj [("blocks",
                 JObj [("values",
                   JArr [JObj [("label", JStr "Hero");
                               ("__source__", JStr Scenario.hero);
                               ("_inputs", JObj [])]])])])]),
       {| cycles := [{| cycle_path := Scenario.hero; chain := [Scenario.hero] |}];
          multipleGlobKeys := [];
          arrayValues := [] |},
       [(Scenario.hero, values_from_glob)],
       [FindCall [VStr Scenario.hero]; LoadCall Scenario.hero;
        FindCall [VStr Scenario.hero]]).
Proof. vm_compute. reflexivity. Qed.


(** C8. A reference key that holds one pattern rather than a sequence of
    patterns is not resolved, and the returned tree holds it. *)
Lemma reference_key_with_one_pattern_is_returned :
  Scenario.observed
    (mergeConfiguration Scenario.byCodeUnit 3
       (Scenario.parsed Scenario.patternConfig).2
       (Scenario.root Scenario.patternConfig) Scenario.brokenOptions)
  = Some
      (Some (JObj [("_inputs_from_glob", JStr "/.cloudcannon/inputs/*.yml")]),
       no_warnings, [], []).
Proof. vm_compute. reflexivity. Qed.

(** A reference key of a fragment is copied into the target with the other
    keys of the fragment, at a place where it is not resolved: the returned
    tree holds it. *)
Example fragment_reference_key_is_copied :
  Scenario.observed
    (mergeConfiguration Scenario.byCodeUnit 3
       (Scenario.parsed Scenario.inputsConfig).2
       (Scenario.root Scenario.inputsConfig) Scenario.nestedKeyOptions)
  = Some
      (Some (JObj [("_inputs",
               JObj [("title",
                      JObj [("type", JStr "text");
                            ("__source__", JStr "/.cloudcannon/inputs/seo.yml")]);
                     ("_structures_from_glob",
                      JArr [JStr "/.cloudcannon/structures/*.yml"])])]),
       no_warnings,
       [("/.cloudcannon/inputs/seo.yml", _inputs_from_glob)],
       [FindCall [VStr "/.cloudcannon/inputs/*.yml"];
        LoadCall "/.cloudcannon/inputs/seo.yml"]).
Proof. vm_compute. reflexivity. Qed.


(** ** The unit tests, replayed *)

(** 'warns when a structure value references a file already in the chain' *)
Example structure_value_in_the_chain :
  Scenario.reported
    (mergeConfiguration Scenario.byCodeUnit 3
       (Scenario.parsed Scenario.blocksConfig).2
       (Scenario.root Scenario.blocksConfig) Scenario.nestedHeroOptions)
  = Some {| cycles := [{| cycle_path := Scenario.hero;
                          chain := [Scenario.hero] |}];
            multipleGlobKeys := [];
            arrayValues := [] |}.
Proof. vm_compute. reflexivity. Qed.

(** 'warns when same file matches multiple glob types' *)
Example same_file_matches_two_keys :
  Scenario.reported
    (mergeConfiguration Scenario.byCodeUnit 3
       (Scenario.parsed Scenario.twoKeysConfig).2
       (Scenario.root Scenario.twoKeysConfig) Scenario.sharedOptions)
  = Some {| cycles := [];
            multipleGlobKeys :=
              [{| multi_path := Scenario.shared;
                  type1 := collections_config_from_glob;
                  type2 := _inputs_from_glob |}];
            arrayValues := [] |}.
Proof. vm_compute. reflexivity. Qed.

(** 'warns about array values in config files' *)
Example array_values_in_config_files :
  Scenario.reported
    (mergeConfiguration Scenario.byCodeUnit 3
       (Scenario.parsed Scenario.collectionsGlobConfig).2
       (Scenario.root Scenario.collectionsGlobConfig) Scenario.arrayOptions)
  = Some {| cycles := [];
            multipleGlobKeys := [];
            arrayValues := [{| array_path := Scenario.arrayFile |}] |}.
Proof. vm_compute. reflexivity. Qed.

(** * More of the loader

    ** Invariants of the loader's fields

    [preserves I m]: however [m] ends, it leaves a loader that satisfies
    [I] when it is started on one. *)

Definition preserves (I : Loader → Prop) {A} (m : M A) : Prop :=
  ∀ st, I st → I (final (m st)).

Section Preserves.
Variable I : Loader → Prop.

Lemma preserves_ret {A} (a : A) : preserves I (mret a).
Proof. by intros st. Qed.

Lemma preserves_throw {A} e : preserves I (@throw A e).
Proof. by intros st. Qed.

Lemma preserves_out_of_fuel {A} : preserves I (@out_of_fuel A).
Proof. by intros st. Qed.

Lemma preserves_gets {A} (f : Loader → A) : preserves I (gets f).
Proof. by intros st. Qed.

Lemma preserves_bind {A B} (m : M A) (f : A → M B) :
  preserves I m → (∀ a, preserves I (f a)) → preserves I (m ≫= f).
Proof.
  intros Hm Hf st HI. rewrite bind_eq. specialize (Hm st HI).
  destruct (m st) as [a st'|e st'|st']; simpl in *; [|done..].
  by apply Hf.
Qed.

Lemma preserves_when (b : bool) (m : M unit) :
  preserves I m → preserves I (when b m).
Proof. destruct b; [done|]. intros _. apply preserves_ret. Qed.

Lemma preserves_forM_ {A} (l : list A) (f : A → M unit) :
  (∀ x, preserves I (f x)) → preserves I (forM_ l f).
Proof.
  intros Hf. induction l as [|x l IH]; simpl; [apply preserves_ret|].
  apply preserves_bind; auto.
Qed.

Lemma preserves_forM_In {A} (l : list A) (f : A → M unit) :
  (∀ x, In x l → preserves I (f x)) → preserves I (forM_ l f).
Proof.
  induction l as [|x l IH]; intros Hf; simpl; [apply preserves_ret|].
  apply preserves_bind; [apply Hf; by left|].
  intros _. apply IH. intros y Hy. apply Hf. by right.
Qed.

Lemma preserves_foldM {A B} (f : B → A → M B) (l : list A) :
  (∀ b x, preserves I (f b x)) → ∀ b, preserves I (foldM f b l).
Proof.
  intros Hf. induction l as [|x l IH]; intros b; simpl; [apply preserves_ret|].
  apply preserves_bind; auto.
Qed.

Lemma preserves_getProp o k : preserves I (getProp o k).
Proof. intros st. unfold getProp. by destruct (read_prop _ _ _). Qed.

(** The store is no part of [I]. *)
Hypothesis I_heap : ∀ f st, I st → I (with_heap f st).

Lemma preserves_heap_only {A} (m : M A) : heap_only m → preserves I m.
Proof. intros Hm st HI. destruct (Hm st) as [s ->]. by apply I_heap. Qed.

Lemma preserves_on_object o f : preserves I (on_object o f).
Proof. apply preserves_heap_only, heap_only_on_object. Qed.

Lemma preserves_alloc c : preserves I (alloc c).
Proof. apply preserves_heap_only, heap_only_alloc. Qed.

Lemma preserves_visitedOrNew visited : preserves I (CL.visitedOrNew visited).
Proof.
  destruct visited; [apply preserves_ret|]. intros st HI. by apply I_heap.
Qed.

Section Walker.
Variable localeCompare : string → string → Z.
Variable options : MergeConfigurationOptions.

(** What is left to show of [I]: the three places where the loader writes
    a field.  No call of [importFromGlobKey] names [_editables_from_glob],
    so the loop body is only run for the other reference keys. *)
Hypothesis I_track : ∀ pattern, preserves I (CL.trackPattern pattern).
Hypothesis I_find : ∀ globs st,
  I st → I (with_calls (λ h, h ++ [FindCall globs]) st).
Hypothesis I_loadFile : ∀ globKey visited loadedData filePath,
  globKey ≠ _editables_from_glob →
  preserves I (CL.loadFile options globKey visited loadedData filePath).

Lemma preserves_loadFilesFromGlobs globs globKey visited :
  globKey ≠ _editables_from_glob →
  preserves I (CL.loadFilesFromGlobs localeCompare options globs globKey visited).
Proof.
  intros Hkey. apply preserves_bind.
  - intros st HI. unfold CL.callFindFilesMatchingGlobs.
    destruct (findFilesMatchingGlobs _ _ _); by apply I_find.
  - intros files. apply preserves_foldM. intros. by apply I_loadFile.
Qed.

Lemma preserves_importFromGlobKey owner globKey targetKey isArray visited :
  globKey ≠ _editables_from_glob →
  preserves I (CL.importFromGlobKey localeCompare options owner globKey
                 targetKey isArray visited).
Proof.
  intros Hkey.
  apply preserves_bind; [apply preserves_getProp|]. intros globs.
  apply preserves_bind; [apply preserves_gets|].
  intros [patterns|]; [|apply preserves_ret].
  apply preserves_bind; [by apply preserves_forM_|]. intros _.
  apply preserves_bind; [by apply preserves_loadFilesFromGlobs|]. intros loaded.
  apply (preserves_heap_only
           (mergeAndAssign owner globKey targetKey isArray loaded)).
  apply heap_only_mergeAndAssign.
Qed.

Lemma preserves_processStructureValueWith processInputsKey value visited :
  (∀ inputs vis, preserves I (processInputsKey inputs vis)) →
  preserves I (CL.processStructureValueWith localeCompare options
                 processInputsKey value visited).
Proof.
  intros Hrec. apply preserves_bind; [apply preserves_gets|].
  intros []; [|apply preserves_ret].
  apply preserves_bind; [apply preserves_getProp|]. intros inputsFromGlob.
  apply preserves_bind;
    [by apply preserves_when, preserves_importFromGlobKey|]. intros _.
  apply preserves_bind; [apply preserves_getProp|]. intros inputs.
  apply preserves_when, Hrec.
Qed.

Lemma preserves_processInputsKey fuel : ∀ inputs visited,
  preserves I (CL.processInputsKey localeCompare options fuel inputs visited).
Proof.
  induction fuel as [|fuel IH]; intros inputs visited;
    [apply preserves_out_of_fuel|]. simpl.
  apply preserves_bind; [apply preserves_gets|].
  intros []; [|apply preserves_ret].
  apply preserves_bind; [apply preserves_gets|]. intros inputValues.
  apply preserves_forM_. intros inputValue.
  apply preserves_bind; [apply preserves_gets|].
  intros []; [|apply preserves_ret].
  apply preserves_bind; [apply preserves_getProp|]. intros inputOptions.
  apply preserves_bind; [apply preserves_gets|].
  intros []; [|apply preserves_ret].
  apply preserves_bind; [apply preserves_getProp|]. intros structures.
  apply preserves_bind; [apply preserves_visitedOrNew|]. intros visitedLocal.
  apply preserves_bind; [apply preserves_gets|].
  intros []; [|apply preserves_ret].
  apply preserves_bind; [apply preserves_getProp|]. intros valuesFromGlob.
  apply preserves_bind;
    [by apply preserves_when, preserves_importFromGlobKey|]. intros _.
  apply preserves_bind; [apply preserves_getProp|]. intros values.
  apply preserves_bind; [apply preserves_gets|].
  intros [items|]; [|apply preserves_ret].
  apply preserves_forM_. intros value.
  by apply preserves_processStructureValueWith.
Qed.

Lemma preserves_processStructuresKey fuel structures visited :
  preserves I (CL.processStructuresKey localeCompare options fuel structures
                 visited).
Proof.
  apply preserves_bind; [apply preserves_gets|].
  intros []; [|apply preserves_ret].
  apply preserves_bind; [apply preserves_gets|]. intros entries.
  apply preserves_forM_. intros structure.
  apply preserves_bind; [apply preserves_gets|].
  intros []; [|apply preserves_ret].
  apply preserves_bind; [apply preserves_visitedOrNew|]. intros visitedLocal.
  apply preserves_bind; [by apply preserves_importFromGlobKey|]. intros _.
  apply preserves_bind; [apply preserves_getProp|]. intros values.
  apply preserves_bind; [apply preserves_gets|].
  intros [items|]; [|apply preserves_ret].
  apply preserves_forM_. intros value.
  apply preserves_processStructureValueWith, preserves_processInputsKey.
Qed.

Lemma preserves_processInputsAndStructures fuel owner :
  preserves I (CL.processInputsAndStructures localeCompare options fuel owner).
Proof.
  apply preserves_bind; [by apply preserves_importFromGlobKey|]. intros _.
  apply preserves_bind; [by apply preserves_importFromGlobKey|]. intros _.
  apply preserves_bind; [apply preserves_getProp|]. intros inputs.
  apply preserves_bind; [apply preserves_processInputsKey|]. intros _.
  apply preserves_bind; [apply preserves_getProp|]. intros structures.
  apply preserves_processStructuresKey.
Qed.

Lemma preserves_processSchemas fuel collection :
  preserves I (CL.processSchemas localeCompare options fuel collection).
Proof.
  apply preserves_bind; [apply preserves_getProp|]. intros schemas.
  apply preserves_bind; [apply preserves_gets|].
  intros []; [|apply preserves_ret].
  apply preserves_bind; [apply preserves_gets|]. intros entries.
  apply preserves_forM_. intros schemaValue.
  apply preserves_bind; [apply preserves_gets|]. intros schemaIsObject.
  apply preserves_when, preserves_processInputsAndStructures.
Qed.

Lemma preserves_processCollections fuel root :
  preserves I (CL.processCollections localeCompare options fuel root).
Proof.
  apply preserves_bind; [apply preserves_getProp|]. intros collectionsConfig.
  apply preserves_bind; [apply preserves_gets|].
  intros []; [|apply preserves_ret].
  apply preserves_bind; [apply preserves_gets|]. intros entries.
  apply preserves_forM_. intros [collectionKey collectionConfig].
  apply preserves_bind; [apply preserves_gets|].
  intros []; [|apply preserves_ret].
  apply preserves_bind; [apply preserves_gets|]. intros hasSchemasFromGlob.
  apply preserves_bind;
    [by apply preserves_when, preserves_importFromGlobKey|]. intros _.
  apply preserves_bind; [apply preserves_getProp|]. intros current.
  apply preserves_bind; [apply preserves_getProp|]. intros collection.
  apply preserves_bind; [apply preserves_processInputsAndStructures|].
  intros _. apply preserves_processSchemas.
Qed.

Lemma preserves_processSnippets fuel root :
  preserves I (CL.processSnippets localeCompare options fuel root).
Proof.
  apply preserves_bind; [apply preserves_getProp|]. intros snippets.
  apply preserves_bind; [apply preserves_gets|].
  intros []; [|apply preserves_ret].
  apply preserves_bind; [by apply preserves_importFromGlobKey|]. intros _.
  apply preserves_bind; [apply preserves_gets|]. intros entries.
  apply preserves_forM_. intros snippetConfig.
  apply preserves_bind; [apply preserves_gets|]. intros snippetIsObject.
  apply preserves_when, preserves_processInputsAndStructures.
Qed.

(** [mergeConfiguration] starts by emptying the warnings and the tracked
    patterns. *)
Hypothesis I_reset : ∀ st,
  I st → I (with_globPatterns (λ _, []) (with_warnings (λ _, no_warnings) st)).

Lemma preserves_mergeConfiguration fuel root :
  preserves I (CL.mergeConfiguration localeCompare options fuel root).
Proof.
  intros st HI. apply I_reset in HI. revert HI.
  change (final (CL.mergeConfiguration localeCompare options fuel root st))
    with (final
            ((forM_ CL.root_keys (λ '(globKey, targetKey),
                CL.importFromGlobKey localeCompare options root globKey
                  targetKey false None);;
              inputs ← getProp root "_inputs";
              CL.processInputsKey localeCompare options fuel inputs None;;
              structures ← getProp root "_structures";
              CL.processStructuresKey localeCompare options fuel structures None;;
              CL.processCollections localeCompare options fuel root;;
              CL.processSnippets localeCompare options fuel root;;
              mret root)
               (with_globPatterns (λ _, [])
                  (with_warnings (λ _, no_warnings) st)))).
  generalize (with_globPatterns (λ _, []) (with_warnings (λ _, no_warnings) st)).
  change (preserves I
            (forM_ CL.root_keys (λ '(globKey, targetKey),
                CL.importFromGlobKey localeCompare options root globKey
                  targetKey false None);;
              inputs ← getProp root "_inputs";
              CL.processInputsKey localeCompare options fuel inputs None;;
              structures ← getProp root "_structures";
              CL.processStructuresKey localeCompare options fuel structures None;;
              CL.processCollections localeCompare options fuel root;;
              CL.processSnippets localeCompare options fuel root;;
              mret root)).
  apply preserves_bind.
  { apply preserves_forM_In. intros [globKey targetKey] Hin.
    apply preserves_importFromGlobKey. simpl in Hin.
    repeat (destruct Hin as [[= <- <-]|Hin]; [done|]). done. }
  intros _. apply preserves_bind; [apply preserves_getProp|]. intros inputs.
  apply preserves_bind; [apply preserves_processInputsKey|]. intros _.
  apply preserves_bind; [apply preserves_getProp|]. intros structures.
  apply preserves_bind; [apply preserves_processStructuresKey|]. intros _.
  apply preserves_bind; [apply preserves_processCollections|]. intros _.
  apply preserves_bind; [apply preserves_processSnippets|]. intros _.
  apply preserves_ret.
Qed.

(** The exported function: once the configuration is copied, the loader
    runs from the fields it was made with. *)
Lemma preserves_exported fuel s input :
  I (new_loader s) →
  I (final (mergeConfiguration localeCompare fuel s input options)).
Proof.
  intros HI. unfold mergeConfiguration.
  assert (preserves I
    (copy ← deepCopy input;
     result ← CL.mergeConfiguration localeCompare options fuel copy;
     loader ← gets id;
     mret {| config := result;
             result_warnings := removeDuplicateWarnings (warnings loader);
             result_globPatterns := globPatterns loader;
             result_pathsToGlobKey := pathsToGlobKey loader;
             result_globKeyToPaths := globKeyToPaths loader |})) as Hrun.
  { apply preserves_bind.
    - intros st Hst. unfold deepCopy. rewrite bind_eq. unfold gets at 1.
      destruct (JSON_stringify _ _); [|done]. unfold JSON_parse.
      destruct (alloc_json _ _). by apply I_heap.
    - intros copy. apply preserves_bind; [apply preserves_mergeConfiguration|].
      intros result. apply preserves_bind; [apply preserves_gets|].
      intros loader. apply preserves_ret. }
  by apply Hrun.
Qed.

End Walker.
End Preserves.

(** ** The loop body, by what it leaves of the fields *)

(** The fields once a path is claimed and [loadConfigFile] is called. *)
Definition claimedFields (globKey : GlobTypeKey) (filePath : string)
    (st : Loader) : Loader :=
  with_calls (λ h, h ++ [LoadCall filePath])
    (with_globKeyToPaths (add_path globKey filePath)
       (with_pathsToGlobKey (Props.set filePath globKey) st)).

(** One iteration of the loop ends in one of four ways. *)
Lemma loadFile_final options globKey visited loadedData filePath st :
  let st' := final (CL.loadFile options globKey visited loadedData filePath st) in
  (in_chain st visited filePath = true ∧
   st' = add_cycle {| cycle_path := filePath;
                      chain := chain_of st visited |} st) ∨
  (∃ existing,
     owned_by_other st globKey filePath = Some existing ∧
     st' = add_multi {| multi_path := filePath; type1 := existing;
                        type2 := globKey |} st) ∨
  (owned_by_other st globKey filePath = None ∧
   ∃ s, st' = with_heap (λ _, s) (claimedFields globKey filePath st)) ∨
  (owned_by_other st globKey filePath = None ∧
   ∃ s, st' = with_heap (λ _, s)
                (add_array {| array_path := filePath |}
                   (claimedFields globKey filePath st))).
Proof.
  intros st'. subst st'.
  destruct (in_chain st visited filePath) eqn:Hin.
  { left. by rewrite (loadFile_cycle options _ _ _ _ _ Hin). }
  right. destruct (owned_by_other st globKey filePath) as [existing|] eqn:Hown.
  { left. exists existing.
    by rewrite (loadFile_conflict options _ _ _ _ _ _ Hin Hown). }
  right. rewrite (loadFile_claim options _ _ _ _ _ Hin Hown), claimAndLoad_eq.
  cbv zeta.
  assert (∃ s, claimed globKey visited filePath st
               = with_heap (λ _, s) (claimedFields globKey filePath st))
    as [s1 Hclaimed] by (destruct visited; by eexists).
  assert (∀ document, ∃ v s,
            cloned document (claimed globKey visited filePath st)
            = (v, with_heap (λ _, s) (claimedFields globKey filePath st)))
    as Hcloned.
  { intros document. unfold cloned. rewrite Hclaimed.
    destruct (alloc_json _ _) as [v s]. by exists v, s. }
  destruct (loadConfigFile options (calls st) filePath) as [|[document|]];
    [left; split; [done|]; by exists s1| |left; split; [done|]; by exists s1].
  destruct document; try (left; split; [done|]; by exists s1).
  all: match goal with
       | |- context [cloned ?d _] => destruct (Hcloned d) as (v & s & ->)
       end.
  all: destruct (array_items _ v);
    [right; split; [done|]; by exists s|left; split; [done|]; by exists s].
Qed.

(** An invariant that does not read the store is kept by the loop body
    when it is kept by the four ways in which the body ends. *)
Lemma preserves_loadFile (I : Loader → Prop) options :
  (∀ f st, I st → I (with_heap f st)) →
  (∀ st visited filePath,
     I st → in_chain st visited filePath = true →
     I (add_cycle {| cycle_path := filePath;
                     chain := chain_of st visited |} st)) →
  (∀ st globKey filePath existing,
     I st → owned_by_other st globKey filePath = Some existing →
     I (add_multi {| multi_path := filePath; type1 := existing;
                     type2 := globKey |} st)) →
  (∀ st globKey filePath,
     I st → owned_by_other st globKey filePath = None →
     I (claimedFields globKey filePath st) ∧
     I (add_array {| array_path := filePath |}
          (claimedFields globKey filePath st))) →
  ∀ globKey visited loadedData filePath,
    preserves I (CL.loadFile options globKey visited loadedData filePath).
Proof.
  intros Hheap Hcycle Hmulti Hclaim globKey visited loadedData filePath st HI.
  destruct (loadFile_final options globKey visited loadedData filePath st)
    as [[Hin ->]|[(existing & Hown & ->)|[[Hown [s ->]]|[Hown [s ->]]]]].
  - by apply Hcycle.
  - by apply Hmulti.
  - by apply Hheap, Hclaim.
  - by apply Hheap, Hclaim.
Qed.

(** The same for the reference keys that satisfy [used]. *)
Lemma preserves_loadFile_for (I : Loader → Prop) (used : GlobTypeKey → Prop)
    options :
  (∀ f st, I st → I (with_heap f st)) →
  (∀ st visited filePath,
     I st → in_chain st visited filePath = true →
     I (add_cycle {| cycle_path := filePath;
                     chain := chain_of st visited |} st)) →
  (∀ st globKey filePath existing,
     I st → owned_by_other st globKey filePath = Some existing →
     I (add_multi {| multi_path := filePath; type1 := existing;
                     type2 := globKey |} st)) →
  (∀ st globKey filePath,
     used globKey → I st → owned_by_other st globKey filePath = None →
     I (claimedFields globKey filePath st) ∧
     I (add_array {| array_path := filePath |}
          (claimedFields globKey filePath st))) →
  ∀ globKey visited loadedData filePath,
    used globKey →
    preserves I (CL.loadFile options globKey visited loadedData filePath).
Proof.
  intros Hheap Hcycle Hmulti Hclaim globKey visited loadedData filePath Hused
    st HI.
  destruct (loadFile_final options globKey visited loadedData filePath st)
    as [[Hin ->]|[(existing & Hown & ->)|[[Hown [s ->]]|[Hown [s ->]]]]].
  - by apply Hcycle.
  - by apply Hmulti.
  - by apply Hheap, Hclaim.
  - by apply Hheap, Hclaim.
Qed.

(** An invariant that reads neither the store nor the tracked patterns is
    kept by [trackPattern]. *)
Lemma preserves_trackPattern (I : Loader → Prop) :
  (∀ f st, I st → I (with_globPatterns f st)) →
  ∀ pattern, preserves I (CL.trackPattern pattern).
Proof.
  intros Hpatterns pattern st HI.
  destruct (forM_trackPattern [pattern] st) as [tracked Hrun].
  simpl in Hrun. rewrite bind_eq in Hrun.
  destruct (CL.trackPattern pattern st) as [[] st1| |] eqn:E; try done.
  injection Hrun as ->. by apply Hpatterns.
Qed.

(** ** The two ownership maps *)

Lemma add_path_keys k p (m : list (GlobTypeKey * list string)) :
  map fst (add_path k p m) = map fst m.
Proof.
  unfold add_path. induction m as [|[k0 ps] m IH]; [done|].
  rewrite fmap_cons, !map_cons, IH. by destruct (bool_decide _).
Qed.

Lemma paths_of_add_path_other k k' p (m : list (GlobTypeKey * list string)) :
  k' ≠ k → paths_of k' (add_path k p m) = paths_of k' m.
Proof.
  intros Hne. unfold paths_of, add_path.
  induction m as [|[k0 ps] m IH]; simpl; [done|].
  destruct (bool_decide (k0 = k)) eqn:E; simpl.
  - apply bool_decide_eq_true in E. subst k0.
    rewrite (bool_decide_eq_false_2 (k = k')) by done. apply IH.
  - destruct (bool_decide (k0 = k')); [done|apply IH].
Qed.

Lemma paths_of_add_path_eq k p (m : list (GlobTypeKey * list string)) :
  In k (map fst m) → paths_of k (add_path k p m) = StrSet.add p (paths_of k m).
Proof.
  unfold paths_of, add_path. induction m as [|[k0 ps] m IH]; simpl; [done|].
  destruct (bool_decide (k0 = k)) eqn:E; simpl; rewrite E; simpl; [done|].
  apply bool_decide_eq_false in E. intros [?|Hin]; [done|auto].
Qed.

Lemma elem_of_add x p l : x ∈ StrSet.add p l ↔ x = p ∨ x ∈ l.
Proof.
  unfold StrSet.add. destruct (StrSet.has p l) eqn:E.
  - split; [auto|]. intros [->|?]; [|done]. by apply list_elem_of_In, has_In.
  - rewrite elem_of_app, list_elem_of_singleton. tauto.
Qed.

Lemma In_all_glob_keys k : In k all_glob_keys.
Proof. destruct k; simpl; tauto. Qed.

(** [pathsToGlobKey] and [globKeyToPaths] say the same: a path is owned by a
    reference key exactly when it is in the set of that key. *)
Definition consistent (st : Loader) : Prop :=
  map fst (globKeyToPaths st) = all_glob_keys ∧
  ∀ p k, Props.get p (pathsToGlobKey st) = Some k
         ↔ p ∈ paths_of k (globKeyToPaths st).

Lemma consistent_new_loader s : consistent (new_loader s).
Proof.
  split.
  - reflexivity.
  - intros p k. simpl. split; [done|].
    unfold paths_of. destruct k; simpl; by intros ?%elem_of_nil.
Qed.

Lemma consistent_claimedFields st globKey filePath :
  consistent st → owned_by_other st globKey filePath = None →
  consistent (claimedFields globKey filePath st).
Proof.
  intros [Hkeys Hmaps] Hown. split; simpl; [by rewrite add_path_keys|].
  assert (In globKey (map fst (globKeyToPaths st))) as Hin
    by (rewrite Hkeys; apply In_all_glob_keys).
  intros p k. destruct (decide (k = globKey)) as [->|Hk].
  - rewrite paths_of_add_path_eq, elem_of_add, <- Hmaps by done.
    destruct (decide (p = filePath)) as [->|Hp].
    + rewrite PropsFacts.get_set_same. tauto.
    + rewrite PropsFacts.get_set_other by done. tauto.
  - rewrite paths_of_add_path_other, <- Hmaps by done.
    destruct (decide (p = filePath)) as [->|Hp].
    + rewrite PropsFacts.get_set_same. unfold owned_by_other in Hown.
      destruct (Props.get filePath (pathsToGlobKey st)) as [existing|].
      * case_bool_decide as Hd; [done|].
        assert (existing = globKey) as -> by (by destruct (decide (existing = globKey)); [|destruct Hd]).
        split; intros [= ->]; done.
      * split; [intros [= ->]; done|done].
    + by rewrite PropsFacts.get_set_other.
Qed.

Lemma preserves_consistent localeCompare options fuel s input :
  consistent (final (mergeConfiguration localeCompare fuel s input options)).
Proof.
  apply (preserves_exported consistent); try done.
  - by apply preserves_trackPattern.
  - intros key chain data path _. apply preserves_loadFile; try done.
    intros st globKey filePath Hst Hown.
    by split; apply consistent_claimedFields.
  - apply consistent_new_loader.
Qed.

(** The paths that are owned are the paths that [loadConfigFile] was
    called with. *)
Definition owned_are_loaded (st : Loader) : Prop :=
  ∀ p, LoadCall p ∈ calls st ↔ is_Some (Props.get p (pathsToGlobKey st)).

Lemma preserves_owned_are_loaded localeCompare options fuel s input :
  owned_are_loaded (final (mergeConfiguration localeCompare fuel s input options)).
Proof.
  apply (preserves_exported owned_are_loaded); try done.
  - by apply preserves_trackPattern.
  - intros globs st Hst p. specialize (Hst p). simpl.
    rewrite <- Hst, elem_of_app, list_elem_of_singleton.
    split; [|auto]. by intros [?|?].
  - intros key chain data path _. apply preserves_loadFile; try done.
    intros st globKey filePath Hst Hown.
    assert (owned_are_loaded (claimedFields globKey filePath st));
      [|by split].
    intros p. specialize (Hst p). simpl.
    rewrite elem_of_app, list_elem_of_singleton, Hst.
    destruct (decide (p = filePath)) as [->|Hp].
    + rewrite PropsFacts.get_set_same. split; [by eexists|auto].
    + rewrite PropsFacts.get_set_other by done. split; [|auto].
      intros [?|[= ?]]; done.
  - intros p. simpl. split; [by intros ?%elem_of_nil|by intros [? ?]].
Qed.

(** Every [multipleGlobKeys] diagnostic names two different keys, and the
    path is owned by the first. *)
Definition conflicts_name_the_owner (st : Loader) : Prop :=
  ∀ w, w ∈ multipleGlobKeys (warnings st) →
       type1 w ≠ type2 w ∧
       Props.get (multi_path w) (pathsToGlobKey st) = Some (type1 w).

Lemma owned_by_other_Some st globKey filePath existing :
  owned_by_other st globKey filePath = Some existing →
  existing ≠ globKey ∧
  Props.get filePath (pathsToGlobKey st) = Some existing.
Proof.
  unfold owned_by_other.
  destruct (Props.get filePath (pathsToGlobKey st)) as [k|]; [|done].
  case_bool_decide; [|done]. by intros [= ->].
Qed.

Lemma owned_by_other_None st globKey filePath k :
  owned_by_other st globKey filePath = None →
  Props.get filePath (pathsToGlobKey st) = Some k → k = globKey.
Proof.
  unfold owned_by_other. intros Hown Hget. rewrite Hget in Hown.
  case_bool_decide as Hd; [done|].
  destruct (decide (k = globKey)); [done|by destruct Hd].
Qed.

Lemma preserves_conflicts_name_the_owner localeCompare options fuel s input :
  conflicts_name_the_owner
    (final (mergeConfiguration localeCompare fuel s input options)).
Proof.
  apply (preserves_exported conflicts_name_the_owner); try done.
  - by apply preserves_trackPattern.
  - intros key chain data path _. apply preserves_loadFile; try done.
    + intros st globKey filePath existing Hst Hown w. simpl.
      rewrite elem_of_app, list_elem_of_singleton. intros [Hw| ->]; [auto|].
      simpl. by apply owned_by_other_Some in Hown.
    + intros st globKey filePath Hst Hown.
      assert (conflicts_name_the_owner (claimedFields globKey filePath st));
        [|by split].
      intros w Hw. destruct (Hst w Hw) as [Hne Hget]. split; [done|]. simpl.
      destruct (decide (multi_path w = filePath)) as [Hp|Hp].
      * rewrite Hp in *. rewrite PropsFacts.get_set_same.
        by rewrite (owned_by_other_None _ _ _ _ Hown Hget).
      * by rewrite PropsFacts.get_set_other.
  - intros st Hst w. simpl. by intros ?%elem_of_nil.
  - intros w. simpl. by intros ?%elem_of_nil.
Qed.

(** Every [arrayValues] diagnostic is about a path that is owned. *)
Definition arrays_are_owned (st : Loader) : Prop :=
  ∀ w, w ∈ arrayValues (warnings st) →
       is_Some (Props.get (array_path w) (pathsToGlobKey st)).

Lemma preserves_arrays_are_owned localeCompare options fuel s input :
  arrays_are_owned (final (mergeConfiguration localeCompare fuel s input options)).
Proof.
  apply (preserves_exported arrays_are_owned); try done.
  - by apply preserves_trackPattern.
  - intros key chain data path _. apply preserves_loadFile; try done.
    intros st globKey filePath Hst Hown.
    assert (arrays_are_owned (claimedFields globKey filePath st)) as Hclaimed.
    { intros w Hw. simpl.
      destruct (decide (array_path w = filePath)) as [->|Hp].
      - rewrite PropsFacts.get_set_same. by eexists.
      - rewrite PropsFacts.get_set_other by done. by apply Hst. }
    split; [done|]. intros w. simpl.
    rewrite elem_of_app, list_elem_of_singleton. intros [Hw| ->].
    + by apply Hclaimed.
    + simpl. rewrite PropsFacts.get_set_same. by eexists.
  - intros st Hst w. simpl. by intros ?%elem_of_nil.
  - intros w. simpl. by intros ?%elem_of_nil.
Qed.

(** ** [removeDuplicateWarnings], as a filter *)

Section Filter.
Context {A : Type} (same : A → A → bool).

(** The body of the loop of [removeDuplicateWarnings]. *)
Definition keep (result : list A) (warning : A) : list A :=
  if existsb (same warning) result then result else result ++ [warning].

Lemma dedup_eq l : dedup same l = fold_left keep l [].
Proof. reflexivity. Qed.

Lemma keep_extends l : ∀ result,
  ∃ extra, fold_left keep l result = result ++ extra ∧ extra `sublist_of` l.
Proof.
  induction l as [|w l IH]; intros result; simpl.
  { exists []. by rewrite app_nil_r. }
  destruct (IH (keep result w)) as (extra & -> & Hsub). unfold keep.
  destruct (existsb (same w) result).
  - exists extra. split; [done|]. by apply sublist_cons.
  - exists (w :: extra). rewrite <- app_assoc. split; [done|].
    by apply sublist_skip.
Qed.

(** No element is [same] as one before it. *)
Definition separate (l : list A) : Prop :=
  ∀ i x, l !! i = Some x → existsb (same x) (take i l) = false.

Lemma separate_keep result w :
  separate result → existsb (same w) result = false →
  separate (result ++ [w]).
Proof.
  intros Hsep Hw i x Hx.
  destruct (decide (i < length result)) as [Hi|Hi].
  - rewrite lookup_app_l in Hx by done.
    rewrite take_app_le by lia. by apply Hsep.
  - pose proof (lookup_lt_Some _ _ _ Hx) as Hlt.
    rewrite length_app in Hlt. simpl in Hlt.
    assert (i = length result) as -> by lia.
    rewrite lookup_app_r, Nat.sub_diag in Hx by lia. injection Hx as <-.
    by rewrite take_app_length.
Qed.

Lemma separate_fold l : ∀ result,
  separate result → separate (fold_left keep l result).
Proof.
  induction l as [|w l IH]; intros result Hsep; simpl; [done|].
  apply IH. unfold keep. destruct (existsb (same w) result) eqn:E; [done|].
  by apply separate_keep.
Qed.

Lemma fold_separate l : ∀ result,
  separate (result ++ l) → fold_left keep l result = result ++ l.
Proof.
  induction l as [|w l IH]; intros result Hsep; simpl.
  { by rewrite app_nil_r. }
  assert (existsb (same w) result = false) as Hw.
  { specialize (Hsep (length result) w).
    rewrite take_app_length in Hsep. apply Hsep.
    by rewrite lookup_app_r, Nat.sub_diag by lia. }
  unfold keep at 2. rewrite Hw. rewrite IH; rewrite <- app_assoc; done.
Qed.

Lemma dedup_separate l : separate (dedup same l).
Proof. apply separate_fold. intros i x Hx. by rewrite lookup_nil in Hx. Qed.

Lemma dedup_idempotent l : dedup same (dedup same l) = dedup same l.
Proof.
  rewrite (dedup_eq (dedup same l)). apply (fold_separate _ []).
  apply dedup_separate.
Qed.

Lemma dedup_sublist l : dedup same l `sublist_of` l.
Proof. destruct (keep_extends l []) as (extra & Heq & Hsub). by rewrite dedup_eq, Heq. Qed.

Hypothesis same_refl : ∀ x, same x x = true.

Lemma keep_covers l : ∀ result w,
  w ∈ l ∨ existsb (same w) result = true →
  existsb (same w) (fold_left keep l result) = true.
Proof.
  induction l as [|x l IH]; intros result w; simpl.
  { intros [?%elem_of_nil|?]; done. }
  intros Hw. apply IH. rewrite elem_of_cons in Hw.
  destruct Hw as [[->|Hw]|Hw]; [|by left|].
  - right. unfold keep. destruct (existsb (same x) result) eqn:E; [done|].
    rewrite existsb_app. simpl. by rewrite same_refl, orb_true_r.
  - right. unfold keep. destruct (existsb (same x) result); [done|].
    by rewrite existsb_app, Hw.
Qed.

Lemma dedup_covers l w : w ∈ l → existsb (same w) (dedup same l) = true.
Proof. intros Hw. apply keep_covers. by left. Qed.

End Filter.

(** X1. [removeDuplicateWarnings] only removes: each list it returns is the
    list it was given without some elements, in the same order.  It loses
    no diagnostic: every cycle it was given has one with the same path and
    the same joined chain in the result, and the other two lists keep the
    elements they had.  Applied to its result, it changes nothing. *)
Theorem removeDuplicateWarnings_filters ws :
  let out := removeDuplicateWarnings ws in
  removeDuplicateWarnings out = out ∧
  cycles out `sublist_of` cycles ws ∧
  multipleGlobKeys out `sublist_of` multipleGlobKeys ws ∧
  arrayValues out `sublist_of` arrayValues ws ∧
  (∀ w, w ∈ cycles ws →
        ∃ w', w' ∈ cycles out ∧ cycle_path w' = cycle_path w ∧
              join " → " (chain w') = join " → " (chain w)) ∧
  (∀ w, w ∈ multipleGlobKeys out ↔ w ∈ multipleGlobKeys ws) ∧
  (∀ w, w ∈ arrayValues out ↔ w ∈ arrayValues ws).
Proof.
  simpl. split.
  { unfold removeDuplicateWarnings. simpl. by rewrite !dedup_idempotent. }
  do 3 (split; [apply dedup_sublist|]). split.
  { intros w Hw.
    assert (existsb (same_cycle w) (dedup same_cycle (cycles ws)) = true) as Hex.
    { apply dedup_covers; [|done]. intros x. unfold same_cycle.
      by rewrite !String.eqb_refl. }
    apply existsb_exists in Hex as (w' & Hin & Hsame).
    exists w'. split; [by apply list_elem_of_In|].
    unfold same_cycle in Hsame. apply andb_prop in Hsame as [H1 H2].
    by apply String.eqb_eq in H1, H2. }
  split.
  - intros w.
    destruct (dedup_once same_multi same_multi_eq (multipleGlobKeys ws))
      as [_ Hmem]. apply Hmem.
  - intros w.
    destruct (dedup_once same_array same_array_eq (arrayValues ws))
      as [_ Hmem]. apply Hmem.
Qed.

(** ** What [mergeConfiguration] returns of the ownership maps *)

(** X2. The two maps that are returned say the same: [globKeyToPaths] has a
    set for each of the ten reference keys, and [pathsToGlobKey] sends a
    path to a reference key exactly when the set of that key holds the
    path.  In particular no path is in the sets of two keys. *)
Theorem ownership_maps_agree localeCompare fuel s input options r st :
  mergeConfiguration localeCompare fuel s input options = Ok r st →
  map fst (result_globKeyToPaths r) = all_glob_keys ∧
  ∀ p k, Props.get p (result_pathsToGlobKey r) = Some k
         ↔ p ∈ paths_of k (result_globKeyToPaths r).
Proof.
  intros Hrun.
  pose proof (preserves_consistent localeCompare options fuel s input) as H.
  rewrite Hrun in H. simpl in H.
  apply exported_result in Hrun as (_ & _ & -> & ->). done.
Qed.

(** X3. The paths of the returned [pathsToGlobKey] are the paths that
    [loadConfigFile] was called with: a path is owned when a load of it
    was attempted, whatever the load gave, and only then. *)
Theorem owned_paths_are_the_loaded_paths localeCompare fuel s input options r st :
  mergeConfiguration localeCompare fuel s input options = Ok r st →
  ∀ p, LoadCall p ∈ calls st ↔ is_Some (Props.get p (result_pathsToGlobKey r)).
Proof.
  intros Hrun.
  pose proof (preserves_owned_are_loaded localeCompare options fuel s input) as H.
  rewrite Hrun in H. simpl in H.
  apply exported_result in Hrun as (_ & _ & -> & _). done.
Qed.

(** X4. When no matched path is an inherited name, every [multipleGlobKeys]
    diagnostic that is returned names two different reference keys; the
    path is owned by the first, [type1], and was loaded for it. *)
Theorem conflict_diagnostics_name_the_owner localeCompare fuel s input options
    r st :
  own_names_matched options →
  mergeConfiguration localeCompare fuel s input options = Ok r st →
  ∀ w, w ∈ multipleGlobKeys (result_warnings r) →
       type1 w ≠ type2 w ∧
       Props.get (multi_path w) (result_pathsToGlobKey r) = Some (type1 w) ∧
       LoadCall (multi_path w) ∈ calls st.
Proof.
  intros _ Hrun w Hw.
  pose proof (preserves_conflicts_name_the_owner localeCompare options fuel s
                input) as H.
  pose proof (preserves_owned_are_loaded localeCompare options fuel s input)
    as Hloaded.
  rewrite Hrun in H, Hloaded. simpl in H, Hloaded.
  apply exported_result in Hrun as (Hwarnings & _ & -> & _).
  rewrite Hwarnings in Hw. simpl in Hw.
  destruct (dedup_once same_multi same_multi_eq
              (multipleGlobKeys (warnings st))) as [_ Hmem].
  apply Hmem in Hw. destruct (H w Hw) as [Hne Hget].
  split; [done|]. split; [done|]. apply Hloaded. by rewrite Hget.
Qed.

(** X5. Every [arrayValues] diagnostic that is returned is about a path that
    is owned: the file was claimed and loaded before it was found to hold
    a sequence. *)
Theorem array_diagnostics_are_owned localeCompare fuel s input options r st :
  mergeConfiguration localeCompare fuel s input options = Ok r st →
  ∀ w, w ∈ arrayValues (result_warnings r) →
       ∃ k, Props.get (array_path w) (result_pathsToGlobKey r) = Some k ∧
            array_path w ∈ paths_of k (result_globKeyToPaths r) ∧
            LoadCall (array_path w) ∈ calls st.
Proof.
  intros Hrun w Hw.
  pose proof (preserves_arrays_are_owned localeCompare options fuel s input)
    as H.
  pose proof (preserves_owned_are_loaded localeCompare options fuel s input)
    as Hloaded.
  pose proof (preserves_consistent localeCompare options fuel s input)
    as [_ Hmaps].
  rewrite Hrun in H, Hloaded, Hmaps. simpl in H, Hloaded, Hmaps.
  apply exported_result in Hrun as (Hwarnings & _ & Hpaths & Hsets).
  rewrite Hwarnings in Hw. simpl in Hw.
  destruct (dedup_once same_array same_array_eq (arrayValues (warnings st)))
    as [_ Hmem].
  apply Hmem in Hw. destruct (H w Hw) as [k Hget]. exists k.
  rewrite Hpaths, Hsets. split; [done|]. split.
  - by apply Hmaps.
  - apply Hloaded. by rewrite Hget.
Qed.

(** ** Every matched path is accounted for *)

Definition load_paths (history : list Call) : list string :=
  omap (λ c, match c with LoadCall p => Some p | FindCall _ => None end) history.

(** The paths that the loader has met: those of the [cycles] and
    [multipleGlobKeys] diagnostics and those it called [loadConfigFile]
    with. *)
Definition met (st : Loader) : list string :=
  (cycle_path <$> cycles (warnings st))
  ++ (multi_path <$> multipleGlobKeys (warnings st))
  ++ load_paths (calls st).

Lemma load_paths_app h1 h2 : load_paths (h1 ++ h2) = load_paths h1 ++ load_paths h2.
Proof. apply omap_app. Qed.

Lemma met_loadFile options globKey visited loadedData filePath st :
  met (final (CL.loadFile options globKey visited loadedData filePath st))
  ≡ₚ met st ++ [filePath].
Proof.
  destruct (loadFile_final options globKey visited loadedData filePath st)
    as [[_ ->]|[(existing & _ & ->)|[[_ [s ->]]|[_ [s ->]]]]];
    unfold met; simpl; rewrite ?fmap_app, ?load_paths_app; simpl;
    solve_Permutation.
Qed.

Lemma met_loadFiles options globKey visited files : ∀ loadedData st,
  met (final (foldM (CL.loadFile options globKey visited) loadedData files st))
  ≡ₚ met st ++ files.
Proof.
  induction files as [|filePath files IH]; intros loadedData st.
  { simpl. by rewrite app_nil_r. }
  rewrite foldM_cons, bind_eq.
  pose proof (met_loadFile options globKey visited loadedData filePath st)
    as Hstep.
  destruct (loadFile_step options globKey visited loadedData filePath st)
    as (loaded1 & st1 & Hrun & _). rewrite Hrun in *. simpl in Hstep.
  rewrite IH, Hstep. by rewrite <- app_assoc.
Qed.

(** X6. No matched path is dropped in silence: when [importFromGlobKey] has
    resolved the patterns of a reference key, each path that
    [findFilesMatchingGlobs] gave is met once more, by a [cycles]
    diagnostic, by a [multipleGlobKeys] diagnostic or by a call of
    [loadConfigFile], whatever the collation and however the merge that
    follows ends. *)
Theorem every_match_is_accounted_for localeCompare options st owner globKey
    targetKey isArray visited globs patterns files :
  read_prop (heap st) owner (key_name globKey) = Some globs →
  array_items (heap st) globs = Some patterns →
  findFilesMatchingGlobs options (calls st) patterns = Some files →
  met (final (CL.importFromGlobKey localeCompare options owner globKey
                targetKey isArray visited st))
  ≡ₚ met st ++ files.
Proof.
  intros Hglobs Hitems Hfind.
  destruct (importFromGlobKey_resolved localeCompare options st owner globKey
              targetKey isArray visited globs patterns Hglobs Hitems)
    as (st0 & _ & Hw & _ & Hcalls & ->).
  rewrite Hfind, bind_eq.
  pose proof (met_loadFiles options globKey visited
                (CL.sort localeCompare files) [] st0) as Hloop.
  destruct (loadFiles_run options globKey visited
              (CL.sort localeCompare files) [] st0)
    as (loaded & st1 & Hrun & _). rewrite Hrun in *. simpl in Hloop.
  destruct (heap_only_mergeAndAssign owner globKey targetKey isArray loaded st1)
    as [s' ->].
  assert (met st0 = met st) as Hmet.
  { unfold met. rewrite Hw, Hcalls, load_paths_app. simpl.
    by rewrite app_nil_r. }
  change (met (with_heap (λ _, s') st1)) with (met st1).
  by rewrite Hloop, Hmet, sort_Permutation.
Qed.

(** ** A chain is never shortened *)

Lemma In_has x l : In x l → StrSet.has x l = true.
Proof.
  intros Hin. unfold StrSet.has. apply existsb_exists. exists x.
  split; [done|apply String.eqb_refl].
Qed.

Lemma in_chain_step n0 guarded st st' vis filePath :
  heap_step n0 guarded (heap st) (heap st') →
  in_chain st (Some vis) filePath = true →
  in_chain st' (Some vis) filePath = true.
Proof.
  intros Hstep. simpl. unfold set_elems.
  destruct (heap st !! vis) as [[| |elems]|] eqn:E; try done.
  destruct (hs_sets _ _ _ _ Hstep _ _ E) as (elems' & -> & Hsub).
  intros Hin%has_In%list_elem_of_In. by apply In_has, list_elem_of_In, Hsub.
Qed.

(** X7. Nothing is ever removed from a visitation chain: a path that is in a
    chain is still in it after any further work of the walker, on that
    chain or on another.  So every later resolution of the path with that
    chain is skipped with a [cycles] diagnostic, also when it comes from a
    sibling of the value that loaded the path and not from a
    descendant. *)
Theorem chain_is_never_shortened localeCompare options fuel st vis filePath :
  in_chain st (Some vis) filePath = true →
  ∀ after,
    (∃ inputs visited,
       after = final (CL.processInputsKey localeCompare options fuel inputs
                        visited st)) ∨
    (∃ structures visited,
       after = final (CL.processStructuresKey localeCompare options fuel
                        structures visited st)) ∨
    (∃ owner globKey targetKey isArray visited,
       after = final (CL.importFromGlobKey localeCompare options owner globKey
                        targetKey isArray visited st)) →
    in_chain after (Some vis) filePath = true ∧
    ∀ globKey loadedData,
      CL.loadFile options globKey (Some vis) loadedData filePath after
      = Ok loadedData
          (add_cycle {| cycle_path := filePath;
                        chain := set_elems (heap after) vis |} after).
Proof.
  intros Hin after Hafter.
  assert (in_chain after (Some vis) filePath = true) as Hin'.
  { assert (evolves 0 unguarded st after) as [Hstep _].
    { destruct Hafter as [(inputs & visited & ->)|
                          [(structures & visited & ->)|
                           (owner & globKey & targetKey & isArray & visited & ->)]].
      - eapply run_ok_final.
        apply (sound_processInputsKey 0 unguarded localeCompare options
                 (λ _ _, eq_refl) fuel inputs visited (fresh_0 _)
                 (fresh_set_0 _) st (inv_0 st)).
      - eapply run_ok_final.
        apply (sound_processStructuresKey 0 unguarded localeCompare options
                 (λ _ _, eq_refl) fuel structures visited (fresh_0 _)
                 (fresh_set_0 _) st (inv_0 st)).
      - eapply run_ok_final.
        apply (sound_importFromGlobKey 0 unguarded localeCompare options
                 owner globKey targetKey isArray visited
                 (fresh_0 _) eq_refl (fresh_set_0 _) st (inv_0 st)). }
    by eapply in_chain_step. }
  split; [done|]. intros globKey loadedData.
  by apply (loadFile_cycle options after globKey (Some vis)).
Qed.

(** ** What the loop hands to the merge functions *)

Lemma alloc_json_below j s v s' :
  alloc_json j s = (v, s') → val_below (length s') v = true.
Proof.
  destruct j as [| | | |items|members]; try (by intros [= <- <-]).
  - rewrite alloc_json_arr. destruct (alloc_items items s) as [vs s1].
    unfold alloc_cell. intros [= <- <-]. simpl. rewrite length_app. simpl.
    apply Nat.ltb_lt. lia.
  - rewrite alloc_json_obj. destruct (alloc_members members s) as [ps s1].
    unfold alloc_cell. intros [= <- <-]. simpl. rewrite length_app. simpl.
    apply Nat.ltb_lt. lia.
Qed.

Lemma alloc_json_defined j s v s' :
  alloc_json j s = (v, s') → v ≠ VUndef.
Proof.
  destruct j as [| | | |items|members]; try (by intros [= <- <-]).
  - rewrite alloc_json_arr. destruct (alloc_items items s) as [vs s1].
    unfold alloc_cell. by intros [= <- <-].
  - rewrite alloc_json_obj. destruct (alloc_members members s) as [ps s1].
    unfold alloc_cell. by intros [= <- <-].
Qed.

(** A payload as the loop hands it over: a value of the store that is not
    a sequence and not [undefined].  It is [null] when the data that was
    loaded is written as [null] in JSON without being [null]. *)
Definition payload (s : store) (item : val) : Prop :=
  val_below (length s) item = true ∧ array_items s item = None ∧
  item ≠ VUndef.

Lemma payload_loop files st st' item :
  loop_step files st st' → payload (heap st) item → payload (heap st') item.
Proof.
  intros Hloop (Hbelow & Harr & Hdef). split; [|split; [|done]].
  - destruct item; try done. simpl in *. apply Nat.ltb_lt in Hbelow.
    apply Nat.ltb_lt. pose proof (ls_length _ _ _ Hloop). lia.
  - destruct item as [| | | | |a]; try done. simpl in *.
    apply Nat.ltb_lt, lookup_lt_is_Some in Hbelow as [c Hc].
    rewrite Hc in Harr. destruct c as [ps|items|elems]; [|done|].
    + by rewrite (ls_data _ _ _ Hloop _ _ Hc).
    + by destruct (ls_sets _ _ _ Hloop _ _ Hc) as (elems' & -> & _).
Qed.

Lemma loadFile_payloads options globKey visited filePath loadedData st :
  ∃ loaded st',
    CL.loadFile options globKey visited loadedData filePath st = Ok loaded st' ∧
    loop_step [filePath] st st' ∧
    (loaded = loadedData ∨
     ∃ item, loaded = loadedData ++ [(item, filePath)] ∧
             payload (heap st') item).
Proof.
  destruct (in_chain st visited filePath) eqn:Hin.
  { rewrite (loadFile_cycle options _ _ _ _ _ Hin). eexists _, _.
    split; [done|]. split; [|by left].
    apply loop_step_grown; [exists []; by rewrite app_nil_r|done]. }
  destruct (owned_by_other st globKey filePath) as [existing|] eqn:Hown.
  { rewrite (loadFile_conflict options _ _ _ _ _ _ Hin Hown). eexists _, _.
    split; [done|]. split; [|by left].
    apply loop_step_grown; [exists []; by rewrite app_nil_r|done]. }
  rewrite (loadFile_claim options _ _ _ _ _ Hin Hown), claimAndLoad_eq.
  cbv zeta. pose proof (loop_step_claimed globKey visited filePath st) as Hc.
  destruct (loadConfigFile options (calls st) filePath) as [|[document|]];
    [by eauto 10| |by eauto 10].
  assert (loop_step [filePath] st
            (cloned document (claimed globKey visited filePath st)).2) as Hcl.
  { change [filePath] with ([filePath] ++ []). eapply loop_step_trans; [done|].
    apply loop_step_cloned. }
  assert (∃ v st2,
            cloned document (claimed globKey visited filePath st) = (v, st2) ∧
            val_below (length (heap st2)) v = true ∧ v ≠ VUndef)
    as (v & st2 & Hcloned & Hbelow & Hdef).
  { unfold cloned. destruct (alloc_json _ _) as [v s2] eqn:E.
    exists v, (with_heap (λ _, s2) (claimed globKey visited filePath st)).
    split; [done|]. split; [by apply alloc_json_below in E|].
    by eapply alloc_json_defined. }
  rewrite Hcloned in Hcl. simpl in Hcl. rewrite Hcloned.
  destruct (array_items (heap st2) v) eqn:Harr.
  - eexists _, _. split; [done|]. split; [|by left].
    destruct Hcl; by split.
  - eexists _, _. split; [done|]. split; [done|]. right. by exists v.
Qed.

(** X8. The loop of [loadFilesFromGlobs] runs to its end, and it only hands
    payloads to the merge functions that are neither sequences nor
    [undefined] (a payload may be [null]), each with the path of a matched
    file as its source and in the order of the files; so the branch of
    [mergeArrayValues] for a payload that is a sequence is never taken. *)
Theorem loaded_payloads_are_not_sequences options globKey visited files st :
  ∃ loaded st',
    foldM (CL.loadFile options globKey visited) [] files st = Ok loaded st' ∧
    Forall (λ p, payload (heap st') p.1) loaded ∧
    loaded.*2 `sublist_of` files.
Proof.
  assert (∀ loadedData st,
            Forall (λ p, payload (heap st) p.1) loadedData →
            ∃ loaded st' sources,
              foldM (CL.loadFile options globKey visited) loadedData files st
              = Ok loaded st' ∧
              Forall (λ p, payload (heap st') p.1) loaded ∧
              loaded.*2 = loadedData.*2 ++ sources ∧
              sources `sublist_of` files) as Hgen.
  { induction files as [|filePath files IH]; intros loadedData st0 Hall.
    { exists loadedData, st0, []. by rewrite app_nil_r. }
    destruct (loadFile_payloads options globKey visited filePath loadedData st0)
      as (loaded1 & st1 & Hrun1 & Hstep1 & Hload).
    rewrite foldM_cons, bind_eq, Hrun1.
    assert (Forall (λ p, payload (heap st1) p.1) loadedData) as Hall1.
    { eapply Forall_impl; [done|]. intros p. by apply (payload_loop [filePath]). }
    destruct Hload as [->|(item & -> & Hitem)].
    - destruct (IH loadedData st1 Hall1)
        as (loaded2 & st2 & sources & Hrun2 & Hall2 & Hsrc & Hsub).
      exists loaded2, st2, sources. do 3 (split; [done|]).
      by apply sublist_cons.
    - destruct (IH (loadedData ++ [(item, filePath)]) st1)
        as (loaded2 & st2 & sources & Hrun2 & Hall2 & Hsrc & Hsub).
      { apply Forall_app. split; [done|]. by apply Forall_singleton. }
      exists loaded2, st2, (filePath :: sources). do 2 (split; [done|]).
      split; [|by apply sublist_skip].
      rewrite Hsrc, fmap_app. simpl. by rewrite <- app_assoc. }
  destruct (Hgen [] st) as (loaded & st' & sources & Hrun & Hall & Hsrc & Hsub);
    [done|].
  exists loaded, st'. split; [done|]. split; [done|]. by rewrite Hsrc.
Qed.

(** ** [mergeArrayValues] appends *)

Lemma is_object_app s ext v :
  val_below (length s) v = true → is_object (s ++ ext) v = is_object s v.
Proof.
  destruct v as [| | | | |a]; try done. simpl. intros Ha%Nat.ltb_lt.
  by rewrite lookup_app_l.
Qed.

Lemma own_props_app s ext v :
  val_below (length s) v = true → own_props (s ++ ext) v = own_props s v.
Proof.
  destruct v as [| | | | |a]; try done. simpl. intros Ha%Nat.ltb_lt.
  by rewrite lookup_app_l.
Qed.

Lemma array_items_app s ext v :
  val_below (length s) v = true → array_items (s ++ ext) v = array_items s v.
Proof.
  destruct v as [| | | | |a]; try done. simpl. intros Ha%Nat.ltb_lt.
  by rewrite lookup_app_l.
Qed.

(** What [mergeArrayValues] appends for a payload: the payload itself, or,
    for an object, a new object with the entries of the payload and its
    source. *)
Definition appended (s s' : store) (p : val * string) (x : val) : Prop :=
  if is_object s p.1 then
    ∃ a, x = VRef a ∧ length s ≤ a ∧
         s' !! a = Some (CObj (Props.set "__source__" (VStr p.2)
                                 (own_props s p.1)))
  else x = p.1.

Lemma appended_grown s st1 st2 p x :
  grown st1 st2 → appended s (heap st1) p x → appended s (heap st2) p x.
Proof.
  intros Hg. unfold appended. destruct (is_object s p.1); [|done].
  intros (a & -> & Hlen & Hcell). exists a. split; [done|]. split; [done|].
  by apply (grown_lookup _ _ _ _ Hg).
Qed.

Lemma appendItems_spec st loaded : ∀ st1 result,
  grown st st1 →
  Forall (λ p, val_below (length (heap st)) p.1 = true ∧
               array_items (heap st) p.1 = None) loaded →
  ∃ st2 added,
    foldM appendItem result loaded st1 = Ok (result ++ added) st2 ∧
    grown st1 st2 ∧
    Forall2 (appended (heap st) (heap st2)) loaded added.
Proof.
  induction loaded as [|[item source] loaded IH]; intros st1 result Hg Hall.
  { exists st1, []. rewrite app_nil_r. split; [done|].
    split; [apply grown_refl|constructor]. }
  apply Forall_cons in Hall as [(Hbelow & Harr) Hall].
  simpl in Hbelow, Harr.
  destruct Hg as [ext ->].
  assert (∃ x st1',
            appendItem result (item, source) (with_heap (λ s, s ++ ext) st)
            = Ok (result ++ [x]) st1' ∧
            grown (with_heap (λ s, s ++ ext) st) st1' ∧
            appended (heap st) (heap st1') (item, source) x)
    as (x & st1' & Hrun & Hg1 & Hx).
  { unfold appendItem. rewrite bind_eq. unfold arrayItems at 1, gets at 1.
    simpl. rewrite array_items_app, Harr by done.
    unfold CL.pushElement. rewrite bind_eq. unfold isObject at 1, gets at 1.
    simpl. rewrite is_object_app by done. unfold appended. simpl.
    destruct (is_object (heap st) item).
    - eexists _, _. split; [reflexivity|]. split; [apply grown_alloc|].
      eexists. split; [done|]. simpl. split; [rewrite length_app; lia|].
      rewrite lookup_app_r, Nat.sub_diag by lia. simpl.
      by rewrite own_props_app.
    - eexists _, _. split; [reflexivity|]. split; [apply grown_refl|done]. }
  destruct (IH st1' (result ++ [x])) as (st2 & added & Hrun2 & Hg2 & Hadded);
    [|done|].
  { eapply grown_trans; [|done]. by exists ext. }
  exists st2, (x :: added). rewrite foldM_cons, bind_eq, Hrun, Hrun2.
  rewrite <- app_assoc. split; [done|]. split; [by eapply grown_trans|].
  constructor; [|done]. by eapply appended_grown.
Qed.

(** X9. On payloads of the store that are not sequences, [mergeArrayValues]
    is an append: it returns a new array that holds the elements of the
    base, in order, followed by one element for each payload, in order;
    the element for an object is a new object with the entries of the
    payload and [__source__], any other payload, [null] and [undefined]
    included, is appended as it is.  Nothing that existed is written: the
    base and the payloads are as they were. *)
Theorem array_merge_appends base loaded st items :
  iterate (heap st) base = Some items →
  Forall (λ p, val_below (length (heap st)) p.1 = true ∧
               array_items (heap st) p.1 = None) loaded →
  ∃ merged st' added,
    CL.mergeArrayValues base loaded st = Ok (VRef merged) st' ∧
    grown st st' ∧ length (heap st) ≤ merged ∧
    heap st' !! merged = Some (CArr (items ++ added)) ∧
    Forall2 (appended (heap st) (heap st')) loaded added.
Proof.
  intros Hbase Hall.
  pose proof (mergeArrayValues_run base loaded st) as Hrun.
  rewrite Hbase in Hrun. destruct Hrun as (result & st1 & Hfold & Hg & ->).
  destruct (appendItems_spec st loaded st items (grown_refl st) Hall)
    as (st2 & added & Hfold' & _ & Hadded).
  rewrite Hfold in Hfold'. injection Hfold' as -> ->.
  exists (length (heap st2)), (with_heap (λ s, s ++ [CArr (items ++ added)]) st2),
    added.
  split; [done|]. split; [eapply grown_trans; [done|apply grown_alloc]|].
  split; [by apply grown_length|]. split.
  - simpl. by rewrite lookup_app_r, Nat.sub_diag by lia.
  - eapply Forall2_impl; [done|]. intros p x.
    apply appended_grown, grown_alloc.
Qed.

(** ** [mergeObjectValues] on the keys it does not replace *)

Lemma get_None_keys {A} k (ps : Props.props A) :
  Props.get k ps = None → k ∉ map fst ps.
Proof.
  induction ps as [|[k' v] ps IH]; simpl; [by intros _ ?%elem_of_nil|].
  destruct (String.eqb k k') eqn:E; [done|]. intros Hget.
  apply String.eqb_neq in E. rewrite not_elem_of_cons. auto.
Qed.

Lemma mergeItems_other_keys st k loaded : ∀ st1 result,
  grown st st1 →
  Forall (λ p, val_below (length (heap st)) p.1 = true) loaded →
  Forall (λ p, Props.get k (own_props (heap st) p.1) = None) loaded →
  ∃ result' st2,
    foldM mergeItem result loaded st1 = Ok result' st2 ∧ grown st1 st2 ∧
    Props.get k result' = Props.get k result.
Proof.
  induction loaded as [|[item source] loaded IH]; intros st1 result Hg Hall Hk.
  { exists result, st1. split; [done|]. split; [apply grown_refl|done]. }
  apply Forall_cons in Hall as [Hbelow Hall].
  apply Forall_cons in Hk as [Hitem Hk]. simpl in Hbelow, Hitem.
  assert (∃ result1 st1',
            mergeItem result (item, source) st1 = Ok result1 st1' ∧
            grown st1 st1' ∧ Props.get k result1 = Props.get k result)
    as (result1 & st1' & Hrun & Hg1 & Hk1).
  { destruct Hg as [ext ->]. unfold mergeItem. rewrite bind_eq.
    unfold isObject at 1, gets at 1. destruct (is_object _ item).
    - rewrite bind_eq. unfold ownProps at 1, gets at 1. simpl.
      rewrite own_props_app by done.
      destruct (assignEntries_grown source (own_props (heap st) item) result
                  (with_heap (λ s, s ++ ext) st))
        as (result1 & st1' & Hrun & Hg1 & Hkeep).
      exists result1, st1'. split; [done|]. split; [done|].
      by apply Hkeep, get_None_keys.
    - exists result, (with_heap (λ s, s ++ ext) st).
      split; [done|]. split; [apply grown_refl|done]. }
  destruct (IH st1' result1) as (result2 & st2 & Hrun2 & Hg2 & Hk2);
    [by eapply grown_trans|done|done|].
  exists result2, st2. rewrite foldM_cons, bind_eq, Hrun.
  split; [done|]. split; [by eapply grown_trans|]. by rewrite Hk2.
Qed.

(** X10. On payloads of the store, whatever they are, [mergeObjectValues]
    returns a new object and writes nothing that existed.  A key that no
    payload has keeps the value that the base has for it, the very value
    and not a copy of it, and is absent when the base does not have it:
    the merge replaces keys, it does not remove any. *)
Theorem object_merge_keeps_other_keys base loaded st k :
  Forall (λ p, val_below (length (heap st)) p.1 = true) loaded →
  Forall (λ p, Props.get k (own_props (heap st) p.1) = None) loaded →
  ∃ merged st' result,
    CL.mergeObjectValues base loaded st = Ok (VRef merged) st' ∧
    grown st st' ∧ length (heap st) ≤ merged ∧
    heap st' !! merged = Some (CObj result) ∧
    Props.get k result = Props.get k (own_props (heap st) base).
Proof.
  intros Hall Hk.
  destruct (mergeObjectValues_grown base loaded st)
    as (result & st1 & Hfold & Hg & ->).
  destruct (mergeItems_other_keys st k loaded st (own_props (heap st) base)
              (grown_refl st) Hall Hk) as (result' & st2 & Hfold' & _ & Hget).
  rewrite Hfold in Hfold'. injection Hfold' as <- <-.
  exists (length (heap st1)), (with_heap (λ s, s ++ [CObj result]) st1), result.
  split; [done|]. split; [eapply grown_trans; [done|apply grown_alloc]|].
  split; [by apply grown_length|]. split; [|done].
  simpl. by rewrite lookup_app_r, Nat.sub_diag by lia.
Qed.

(** ** [mergeObjectValues] on values that are not objects *)

Lemma assignEntries_assigns source entries : ∀ result st k value,
  distinct (map fst entries) = true →
  In (k, value) entries →
  val_below (length (heap st)) value = true →
  is_object (heap st) value = false →
  ∃ result' st',
    foldM (assignEntry source) result entries st = Ok result' st' ∧
    grown st st' ∧ Props.get k result' = Some value.
Proof.
  induction entries as [|[key value0] entries IH];
    intros result st k value Hd Hin Hbelow Hobj; [done|].
  simpl in Hd. apply distinct_cons in Hd as [Hd Hfirst].
  destruct Hin as [[= -> ->]|Hin].
  - rewrite foldM_cons, bind_eq. unfold assignEntry at 1. rewrite bind_eq.
    unfold isObject at 1, gets at 1. rewrite Hobj.
    unfold mret at 1, M_ret at 1.
    destruct (assignEntries_grown source entries (Props.set k value result) st)
      as (result2 & st2 & Hrun2 & Hg2 & Hk2).
    exists result2, st2. split; [done|]. split; [done|].
    rewrite Hk2 by done. apply PropsFacts.get_set_same.
  - rewrite foldM_cons, bind_eq.
    destruct (assignEntry_grown source result key value0 st)
      as (result1 & st1 & Hrun1 & Hg1 & _).
    rewrite Hrun1. destruct Hg1 as [ext ->].
    destruct (IH result1 (with_heap (λ s, s ++ ext) st) k value Hd Hin)
      as (result2 & st2 & Hrun2 & Hg2 & Hget).
    { destruct value; try done. simpl in *. apply Nat.ltb_lt in Hbelow.
      apply Nat.ltb_lt. rewrite length_app. lia. }
    { simpl. by rewrite is_object_app. }
    exists result2, st2. split; [done|]. split; [|done].
    eapply grown_trans; [|done]. by exists ext.
Qed.

(** X11. A key of the last payload, other than [__proto__], whose value is
    not an object, a primitive or a sequence, is assigned as it is: the
    target holds the very value, and no [__source__] is recorded for
    it. *)
Theorem values_that_are_not_objects_carry_no_source base loaded item source
    entries k value st :
  k ≠ "__proto__" →
  heap st !! item = Some (CObj entries) →
  distinct (map fst entries) = true →
  In (k, value) entries →
  val_below (length (heap st)) value = true →
  is_object (heap st) value = false →
  ∃ merged st' result,
    CL.mergeObjectValues base (loaded ++ [(VRef item, source)]) st
    = Ok (VRef merged) st' ∧
    grown st st' ∧
    heap st' !! merged = Some (CObj result) ∧
    Props.get k result = Some value.
Proof.
  intros _ Hitem Hd Hin Hbelow Hobj.
  destruct (mergeObjectValues_grown base (loaded ++ [(VRef item, source)]) st)
    as (result & st1 & Hfold & Hg & ->).
  exists (length (heap st1)), (with_heap (λ s, s ++ [CObj result]) st1), result.
  split; [done|]. split; [eapply grown_trans; [done|apply grown_alloc]|].
  split; [simpl; by rewrite lookup_app_r, Nat.sub_diag by lia|].
  rewrite foldM_app, bind_eq in Hfold.
  destruct (mergeItems_grown loaded (own_props (heap st) base) st)
    as (result0 & st0 & Hrun0 & [ext ->]).
  rewrite Hrun0, foldM_cons, bind_eq in Hfold.
  unfold mergeItem at 1 in Hfold. rewrite bind_eq in Hfold.
  unfold isObject at 1, gets at 1 in Hfold. simpl in Hfold.
  rewrite (lookup_app_l_Some _ _ _ _ Hitem) in Hfold.
  rewrite bind_eq in Hfold. unfold ownProps at 1, gets at 1 in Hfold.
  simpl in Hfold. rewrite (lookup_app_l_Some _ _ _ _ Hitem) in Hfold.
  destruct (assignEntries_assigns source entries result0
              (with_heap (λ s, s ++ ext) st) k value Hd Hin)
    as (result' & st' & Hrun & _ & Hget).
  { destruct value; try done. simpl in *. apply Nat.ltb_lt in Hbelow.
    apply Nat.ltb_lt. rewrite length_app. lia. }
  { simpl. by rewrite is_object_app. }
  rewrite Hrun in Hfold. by injection Hfold as <- <-.
Qed.

(** ** A target of [values_from_glob] that cannot be spread *)

(** X12. When the target key of an array-shaped reference key holds an object,
    [[...base]] throws.  The fault leaves [importFromGlobKey] after the
    files were processed: the matched paths are claimed, loaded or
    reported, but the containing structure is as it was, with its
    reference key and its target. *)
Theorem object_under_an_array_target_throws localeCompare options st owner ps
    globKey targetKey visited globs patterns files target entries :
  heap st !! owner = Some (CObj ps) →
  Props.get (key_name globKey) ps = Some globs →
  array_items (heap st) globs = Some patterns →
  findFilesMatchingGlobs options (calls st) patterns = Some files →
  Props.get targetKey ps = Some (VRef target) →
  heap st !! target = Some (CObj entries) →
  ∃ st',
    CL.importFromGlobKey localeCompare options (VRef owner) globKey targetKey
      true visited st = Thrown TypeError st' ∧
    heap st' !! owner = Some (CObj ps) ∧
    met st' ≡ₚ met st ++ files.
Proof.
  intros Hcell Hglobs Hitems Hfind Htarget Hentries.
  destruct (importFromGlobKey_resolved localeCompare options st (VRef owner)
              globKey targetKey true visited globs patterns)
    as (st0 & Hheap & Hw & _ & Hcalls & ->); [|done|].
  { simpl. by rewrite Hcell, Hglobs. }
  rewrite Hfind, bind_eq.
  pose proof (met_loadFiles options globKey visited
                (CL.sort localeCompare files) [] st0) as Hmet.
  destruct (loadFiles_run options globKey visited
              (CL.sort localeCompare files) [] st0)
    as (loaded & st1 & Hrun & Hloop & _). rewrite Hrun in *. simpl in Hmet.
  assert (heap st1 !! owner = Some (CObj ps)) as Hcell1.
  { apply (ls_data _ _ _ Hloop); [by rewrite Hheap|done]. }
  assert (heap st1 !! target = Some (CObj entries)) as Hentries1.
  { apply (ls_data _ _ _ Hloop); [by rewrite Hheap|done]. }
  exists st1. split; [|split; [done|]].
  - rewrite mergeAndAssign_eq, bind_eq. unfold getProp at 1, read_prop.
    rewrite Hcell1, Htarget. rewrite bind_eq. unfold mergeWithBase.
    rewrite bind_eq.
    change (default VUndef (Some (VRef target))) with (VRef target).
    change (truthy (VRef target)) with true. cbv beta iota.
    unfold mret at 1, M_ret at 1.
    pose proof (mergeArrayValues_run (VRef target) loaded st1) as Hthrow.
    simpl in Hthrow. rewrite Hentries1 in Hthrow. by rewrite Hthrow.
  - rewrite Hmet, sort_Permutation. unfold met.
    rewrite Hw, Hcalls, load_paths_app. simpl. by rewrite app_nil_r.
Qed.

(** ** The returned tree is new *)

(** X13. The tree that [mergeConfiguration] returns shares nothing with the
    configuration it was given: its root was allocated by the call, and
    every object and sequence that the call allocated points only to
    objects and sequences that the call allocated. *)
Theorem returned_tree_is_new localeCompare fuel s input options r st :
  mergeConfiguration localeCompare fuel s input options = Ok r st →
  fresh_val (length s) (config r) ∧
  length s ≤ length (heap st) ∧
  ∀ a c, length s ≤ a → heap st !! a = Some c → fresh_cell (length s) c.
Proof.
  intros Hrun.
  pose proof (run_ok_exported unguarded localeCompare fuel s input options
                (λ _ _, eq_refl)) as Hok.
  unfold run_ok in Hok.
  fold (mergeConfiguration localeCompare fuel s input options) in Hok.
  rewrite Hrun in Hok. destruct Hok as ([Hlen Hsep] & _ & Hroot).
  split; [done|]. split; [done|]. done.
Qed.

(** ** A fault of [findFilesMatchingGlobs] *)

Lemma imports_throw localeCompare options owner ps keys : ∀ st,
  heap st !! owner = Some (CObj ps) →
  (∀ history globs, findFilesMatchingGlobs options history globs = None) →
  (∃ globKey targetKey globs patterns,
     In (globKey, targetKey) keys ∧
     Props.get (key_name globKey) ps = Some globs ∧
     array_items (heap st) globs = Some patterns) →
  ∃ st',
    forM_ keys (λ '(globKey, targetKey),
      CL.importFromGlobKey localeCompare options (VRef owner) globKey
        targetKey false None) st
    = Thrown CollaboratorFault st' ∧
    load_paths (calls st') = load_paths (calls st) ∧
    heap st' = heap st.
Proof.
  induction keys as [|[globKey0 targetKey0] keys IH]; intros st Hcell Hfind
    (globKey & targetKey & globs & patterns & Hin & Hglobs & Hitems);
    [done|].
  simpl. rewrite bind_eq.
  set (globs0 := default VUndef (Props.get (key_name globKey0) ps)).
  assert (read_prop (heap st) (VRef owner) (key_name globKey0) = Some globs0)
    as Hglobs0 by (simpl; by rewrite Hcell).
  destruct (array_items (heap st) globs0) as [patterns0|] eqn:Hitems0.
  - destruct (importFromGlobKey_resolved localeCompare options st (VRef owner)
                globKey0 targetKey0 false None globs0 patterns0 Hglobs0 Hitems0)
      as (st0 & Hheap & _ & _ & Hcalls & ->).
    rewrite Hfind. exists st0. split; [done|]. split; [|done].
    rewrite Hcalls, load_paths_app. simpl. by rewrite app_nil_r.
  - assert (CL.importFromGlobKey localeCompare options (VRef owner) globKey0
              targetKey0 false None st = Ok tt st) as ->.
    { unfold CL.importFromGlobKey. rewrite bind_eq. unfold getProp at 1.
      rewrite Hglobs0, bind_eq. unfold arrayItems at 1, gets at 1.
      by rewrite Hitems0. }
    apply IH; [done|done|]. exists globKey, targetKey, globs, patterns.
    split; [|done]. destruct Hin as [[= <- <-]|Hin]; [|done].
    subst globs0. rewrite Hglobs in Hitems0. simpl in Hitems0. congruence.
Qed.

(** X14. A fault of [findFilesMatchingGlobs] is not caught: when the
    configuration has a root reference key that holds a sequence and
    [findFilesMatchingGlobs] throws, [mergeConfiguration] throws that
    fault, and no file was loaded. *)
Theorem glob_fault_propagates localeCompare fuel s input options members
    globKey targetKey patterns :
  JSON_stringify s input = Some (JObj members) →
  In (globKey, targetKey) CL.root_keys →
  Props.get (key_name globKey) members = Some (JArr patterns) →
  (∀ history globs, findFilesMatchingGlobs options history globs = None) →
  ∃ st,
    mergeConfiguration localeCompare fuel s input options
    = Thrown CollaboratorFault st ∧
    load_paths (calls st) = [].
Proof.
  intros Hser Hkey Hget Hfind.
  unfold mergeConfiguration. rewrite bind_eq.
  unfold deepCopy at 1. rewrite bind_eq. unfold gets at 1.
  change (heap (new_loader s)) with s. rewrite Hser. unfold JSON_parse.
  change (heap (new_loader s)) with s.
  destruct (alloc_json (JObj members) s) as [copy s1] eqn:Halloc.
  assert (represents s1 copy (JObj members)) as Hrep.
  { eapply alloc_json_represents; [exact Halloc|]. by intros a _ _. }
  apply represents_obj in Hrep as (owner & ps & -> & Hcell & Hrel).
  pose proof (PropsFacts.related_get _ (key_name globKey) _ _ Hrel) as Hk.
  rewrite Hget in Hk.
  destruct (Props.get (key_name globKey) ps) as [globs|] eqn:Hglobs; [|done].
  apply represents_arr in Hk as (a & items & -> & Ha & _).
  set (st1 := with_globPatterns (λ _, [])
                (with_warnings (λ _, no_warnings)
                   (with_heap (λ _, s1) (new_loader s)))).
  destruct (imports_throw localeCompare options owner ps CL.root_keys st1)
    as (st' & Hthrow & Hcalls & _); [done|done| |].
  { exists globKey, targetKey, (VRef a), items. split; [done|].
    split; [done|]. simpl. by rewrite Ha. }
  exists st'. split; [|done].
  rewrite bind_eq. unfold CL.mergeConfiguration. rewrite bind_eq.
  unfold modify at 1. rewrite bind_eq. unfold modify at 1.
  fold st1. rewrite bind_eq. by rewrite Hthrow.
Qed.

(** ** The tracked patterns *)

Lemma NoDup_add p l : NoDup l → NoDup (StrSet.add p l).
Proof.
  intros Hnd. unfold StrSet.add. destruct (StrSet.has p l) eqn:E; [done|].
  apply NoDup_app. split; [done|]. split; [|apply NoDup_singleton].
  intros x Hx ->%list_elem_of_singleton.
  apply list_elem_of_In, In_has in Hx. congruence.
Qed.

Lemma trackPattern_eq pattern st :
  CL.trackPattern pattern st
  = Ok tt (match pattern with
           | VStr p => if starts_with_bang p then st
                       else with_globPatterns (StrSet.add p) st
           | _ => st
           end).
Proof.
  destruct pattern; try done. simpl. by destruct (starts_with_bang s).
Qed.

(** X15. The list of patterns that is returned has no pattern twice. *)
Theorem tracked_patterns_are_not_repeated localeCompare fuel s input options
    r st :
  mergeConfiguration localeCompare fuel s input options = Ok r st →
  NoDup (result_globPatterns r).
Proof.
  intros Hrun.
  assert (NoDup (globPatterns
                   (final (mergeConfiguration localeCompare fuel s input
                             options)))) as H.
  { apply (preserves_exported (λ st, NoDup (globPatterns st))); try done.
    - intros pattern st0 Hst. rewrite trackPattern_eq. simpl.
      destruct pattern; try done. destruct (starts_with_bang s0); [done|].
      simpl. by apply NoDup_add.
    - intros key chain data path _. by apply preserves_loadFile.
    - intros st0 _. simpl. apply NoDup_nil_2.
    - simpl. apply NoDup_nil_2. }
  rewrite Hrun in H. simpl in H.
  apply exported_result in Hrun as (_ & -> & _). done.
Qed.

Lemma trackPatterns_tracks patterns : ∀ st,
  ∃ st1,
    forM_ patterns CL.trackPattern st = Ok tt st1 ∧
    (∀ p, p ∈ globPatterns st → p ∈ globPatterns st1) ∧
    (∀ p, VStr p ∈ patterns → starts_with_bang p = false →
          p ∈ globPatterns st1).
Proof.
  induction patterns as [|pattern patterns IH]; intros st.
  { exists st. split; [done|]. split; [done|]. by intros p ?%elem_of_nil. }
  simpl. rewrite bind_eq, trackPattern_eq.
  set (st0 := match pattern with VStr _ => _ | _ => _ end).
  assert (∀ p, p ∈ globPatterns st → p ∈ globPatterns st0) as Hold.
  { intros p Hp. subst st0. destruct pattern; try done.
    destruct (starts_with_bang s); [done|]. simpl. apply elem_of_add. auto. }
  assert (∀ p, pattern = VStr p → starts_with_bang p = false →
               p ∈ globPatterns st0) as Hnew.
  { intros p -> Hp. subst st0. rewrite Hp. simpl. apply elem_of_add. auto. }
  destruct (IH st0) as (st1 & -> & Hold1 & Hnew1).
  exists st1. split; [done|]. split; [by auto|].
  intros p [Hp|Hp]%elem_of_cons Hbang; [|by auto].
  by apply Hold1, Hnew.
Qed.

(** X16. [importFromGlobKey] tracks the patterns before it resolves them: every
    pattern of the reference key that is a string and does not start with
    [!] is tracked when [importFromGlobKey] ends, however it ends, also
    when [findFilesMatchingGlobs] throws or matches no file; and no
    pattern that was tracked is lost. *)
Theorem patterns_are_tracked_before_they_are_resolved localeCompare options st
    owner globKey targetKey isArray visited globs patterns :
  read_prop (heap st) owner (key_name globKey) = Some globs →
  array_items (heap st) globs = Some patterns →
  let after :=
    final (CL.importFromGlobKey localeCompare options owner globKey targetKey
             isArray visited st) in
  (∀ p, VStr p ∈ patterns → starts_with_bang p = false →
        p ∈ globPatterns after) ∧
  (∀ p, p ∈ globPatterns st → p ∈ globPatterns after).
Proof.
  intros Hglobs Hitems after. subst after.
  rewrite (importFromGlobKey_eq _ _ _ _ _ _ _ _ _ _ Hglobs Hitems).
  rewrite bind_eq.
  destruct (trackPatterns_tracks patterns st) as (st1 & -> & Hold & Hnew).
  set (rest := _ ≫= _).
  assert (preserves (λ st', ∀ p, p ∈ globPatterns st1 → p ∈ globPatterns st')
            rest) as Hrest.
  { apply preserves_bind.
    - intros st0 Hst. unfold CL.callFindFilesMatchingGlobs.
      by destruct (findFilesMatchingGlobs _ _ _).
    - intros files. apply preserves_bind.
      + apply preserves_foldM. intros loadedData filePath.
        by apply preserves_loadFile.
      + intros loaded. apply preserves_heap_only; [done|].
        apply heap_only_mergeAndAssign. }
  specialize (Hrest st1 (λ p Hp, Hp)). simpl in Hrest. split; by auto.
Qed.

(** ** A path that is resolved again under its own reference key *)

Lemma set_same {A} k (v : A) ps :
  Props.get k ps = Some v → ∀ k', Props.get k' (Props.set k v ps) = Props.get k' ps.
Proof.
  intros Hget k'. destruct (decide (k' = k)) as [->|Hne].
  - by rewrite PropsFacts.get_set_same.
  - by rewrite PropsFacts.get_set_other.
Qed.

(** X17. Ownership is no lock: a path that is owned by the reference key under
    which it is resolved, and is not in the chain, is loaded again and its
    payload is handed to the merge once more; no diagnostic is recorded
    and the ownership map is as it was. *)
Theorem own_path_is_loaded_again options st globKey visited loadedData filePath
    members :
  in_chain st visited filePath = false →
  Props.get filePath (pathsToGlobKey st) = Some globKey →
  loadConfigFile options (calls st) filePath = Resolves (Some (JObj members)) →
  ∃ item st',
    CL.loadFile options globKey visited loadedData filePath st
    = Ok (loadedData ++ [(item, filePath)]) st' ∧
    warnings st' = warnings st ∧
    calls st' = calls st ++ [LoadCall filePath] ∧
    (∀ p, Props.get p (pathsToGlobKey st') = Props.get p (pathsToGlobKey st)) ∧
    represents (heap st') item (JObj members).
Proof.
  intros Hin Hget Hload.
  assert (owned_by_other st globKey filePath = None) as Hown.
  { unfold owned_by_other. rewrite Hget. case_bool_decide; [done|done]. }
  rewrite (loadFile_claim options _ _ _ _ _ Hin Hown), claimAndLoad_eq.
  cbv zeta. rewrite Hload.
  set (st1 := claimed globKey visited filePath st).
  destruct (clone_object members (heap st1))
    as (root & entries & new & Hclone & _ & Hentries & _ & Hrep).
  unfold cloned. rewrite Hclone.
  assert (array_items (heap st1 ++ new) (VRef root) = None) as Harr
    by (unfold array_items; by rewrite Hentries).
  change (heap (with_heap (λ _, heap st1 ++ new) st1)) with (heap st1 ++ new).
  rewrite Harr.
  exists (VRef root), (with_heap (λ _, heap st1 ++ new) st1).
  split; [done|]. split; [by destruct visited|].
  split; [by destruct visited|]. split.
  - intros p. subst st1. destruct visited; simpl; by apply set_same.
  - apply Hrep. by intros a _ _.
Qed.

(** ** [_editables_from_glob] *)

Definition editables_unused (st : Loader) : Prop :=
  ∀ p, Props.get p (pathsToGlobKey st) ≠ Some _editables_from_glob.

Lemma preserves_editables_unused localeCompare options fuel s input :
  editables_unused (final (mergeConfiguration localeCompare fuel s input options)).
Proof.
  apply (preserves_exported editables_unused); try done.
  - by apply preserves_trackPattern.
  - apply (preserves_loadFile_for _ (λ k, k ≠ _editables_from_glob));
      try done.
    intros st globKey filePath Hkey Hst Hown.
    assert (editables_unused (claimedFields globKey filePath st)); [|by split].
    intros p. simpl. destruct (decide (p = filePath)) as [->|Hp].
    + rewrite PropsFacts.get_set_same. by intros [= ?].
    + rewrite PropsFacts.get_set_other by done. apply Hst.
Qed.

(** X18. [_editables_from_glob] is a reference key of [types.ts] that no call of
    [importFromGlobKey] names: in what [mergeConfiguration] returns, no
    path is owned by it and its set of paths is empty, whatever the
    configuration holds. *)
Theorem editables_key_owns_nothing localeCompare fuel s input options r st :
  mergeConfiguration localeCompare fuel s input options = Ok r st →
  (∀ p, Props.get p (result_pathsToGlobKey r) ≠ Some _editables_from_glob) ∧
  paths_of _editables_from_glob (result_globKeyToPaths r) = [].
Proof.
  intros Hrun.
  pose proof (preserves_editables_unused localeCompare options fuel s input)
    as H.
  pose proof (preserves_consistent localeCompare options fuel s input)
    as [_ Hmaps].
  rewrite Hrun in H, Hmaps. simpl in H, Hmaps.
  apply exported_result in Hrun as (_ & _ & -> & ->). split; [done|].
  destruct (paths_of _ _) as [|p l] eqn:E; [done|].
  destruct (H p). apply Hmaps. rewrite E. by left.
Qed.

(** ** The order of the loads *)

Lemma loads_in_order options globKey files : ∀ loadedData st,
  (∀ f, f ∈ files → owned_by_other st globKey f = None) →
  load_paths (calls (final (foldM (CL.loadFile options globKey None)
                              loadedData files st)))
  = load_paths (calls st) ++ files.
Proof.
  induction files as [|filePath files IH]; intros loadedData st Hown.
  { simpl. by rewrite app_nil_r. }
  rewrite foldM_cons, bind_eq.
  destruct (loadFile_step options globKey None loadedData filePath st)
    as (loaded1 & st1 & Hrun & _).
  pose proof (loadFile_final options globKey None loadedData filePath st)
    as Hfinal. rewrite Hrun in *. simpl in Hfinal.
  assert (owned_by_other st globKey filePath = None) as Hfirst
    by (apply Hown; by left).
  assert (calls st1 = calls st ++ [LoadCall filePath] ∧
          pathsToGlobKey st1
          = Props.set filePath globKey (pathsToGlobKey st)) as [Hcalls Hpaths].
  { destruct Hfinal as [[? _]|[(existing & Hx & _)|[[_ [s ->]]|[_ [s ->]]]]];
      [done|congruence|done|done]. }
  rewrite IH.
  - rewrite Hcalls, load_paths_app. simpl. by rewrite <- app_assoc.
  - intros f Hf. unfold owned_by_other. rewrite Hpaths.
    destruct (decide (f = filePath)) as [->|Hne].
    + rewrite PropsFacts.get_set_same. by rewrite bool_decide_eq_false_2 by auto.
    + rewrite PropsFacts.get_set_other by done.
      apply (Hown f). by right.
Qed.

(** X19. Without a chain, when no matched file is an inherited name and
    none is owned by another reference key, [loadConfigFile] is called
    once for each file that [findFilesMatchingGlobs] gave, a file that was
    given twice being loaded twice, in the order of the sort and not in
    the order in which the files were given. *)
Theorem files_are_loaded_in_sorted_order localeCompare options st owner globKey
    targetKey isArray globs patterns files :
  read_prop (heap st) owner (key_name globKey) = Some globs →
  array_items (heap st) globs = Some patterns →
  findFilesMatchingGlobs options (calls st) patterns = Some files →
  Forall (λ f, own_name f = true) files →
  (∀ f, f ∈ files → owned_by_other st globKey f = None) →
  load_paths (calls (final (CL.importFromGlobKey localeCompare options owner
                              globKey targetKey isArray None st)))
  = load_paths (calls st) ++ CL.sort localeCompare files.
Proof.
  intros Hglobs Hitems Hfind _ Hown.
  destruct (importFromGlobKey_resolved localeCompare options st owner globKey
              targetKey isArray None globs patterns Hglobs Hitems)
    as (st0 & _ & _ & Hpaths & Hcalls & ->).
  rewrite Hfind, bind_eq.
  pose proof (loads_in_order options globKey (CL.sort localeCompare files) []
                st0) as Hloop.
  destruct (loadFiles_run options globKey None (CL.sort localeCompare files)
              [] st0) as (loaded & st1 & Hrun & _).
  rewrite Hrun in *. simpl in Hloop.
  destruct (heap_only_mergeAndAssign owner globKey targetKey isArray loaded st1)
    as [s' ->].
  change (calls (with_heap (λ _, s') st1)) with (calls st1).
  rewrite Hloop.
  - rewrite Hcalls, load_paths_app. simpl. by rewrite app_nil_r.
  - intros f Hf. rewrite sort_Permutation in Hf.
    unfold owned_by_other. rewrite Hpaths. by apply Hown.
Qed.

(** ** The sort *)

Section Sort.
Variable localeCompare : string → string → Z.

(** [a] may come before [b]. *)
Definition before (a b : string) : Prop := (localeCompare a b ≤ 0)%Z.

Hypothesis total : ∀ a b, before a b ∨ before b a.
Hypothesis transitive : ∀ a b c, before a b → before b c → before a c.

Lemma sort_insert_sorted x l :
  StronglySorted before l →
  StronglySorted before (CL.sort_insert localeCompare x l).
Proof.
  induction 1 as [|y l Hl IH Hy]; simpl; [repeat constructor|].
  destruct (localeCompare x y <=? 0)%Z eqn:E.
  - apply Z.leb_le in E. constructor; [by constructor|].
    constructor; [done|]. eapply Forall_impl; [done|]. intros z. by apply transitive.
  - apply Z.leb_gt in E. constructor; [done|].
    rewrite sort_insert_Permutation. constructor; [|done].
    destruct (total x y) as [Hxy|Hyx]; [|done]. unfold before in Hxy. lia.
Qed.

Lemma sort_sorted l : StronglySorted before (CL.sort localeCompare l).
Proof.
  unfold CL.sort. induction l as [|x l IH]; simpl; [constructor|].
  by apply sort_insert_sorted.
Qed.

Hypothesis antisymmetric : ∀ a b, before a b → before b a → a = b.

Lemma sorted_unique l1 : ∀ l2,
  StronglySorted before l1 → StronglySorted before l2 → l1 ≡ₚ l2 → l1 = l2.
Proof.
  induction l1 as [|x l1 IH]; intros l2 H1 H2 Hp.
  { by apply Permutation_nil_l in Hp. }
  destruct l2 as [|y l2]; [by apply Permutation_nil_r in Hp|].
  apply StronglySorted_inv in H1 as [H1 Hx].
  apply StronglySorted_inv in H2 as [H2 Hy].
  assert (x = y) as ->.
  { assert (x ∈ y :: l2) as Hxin by (rewrite <- Hp; by left).
    assert (y ∈ x :: l1) as Hyin by (rewrite Hp; by left).
    apply elem_of_cons in Hxin as [?|Hxin]; [done|].
    apply elem_of_cons in Hyin as [?|Hyin]; [done|].
    rewrite Forall_forall in Hx, Hy. apply antisymmetric; auto. }
  f_equal. apply IH; [done|done|]. by apply Permutation_cons_inv in Hp.
Qed.

(** X20. With a collation that is a total order, the order in which the files
    are processed is the sorted order and nothing else: the sort returns
    the files it was given, each as often as it was given, in an order in
    which no file comes after a file it may come before, and it returns
    the same list however the files were ordered by
    [findFilesMatchingGlobs]. *)
Theorem sort_is_canonical files :
  CL.sort localeCompare files ≡ₚ files ∧
  StronglySorted before (CL.sort localeCompare files) ∧
  ∀ files', files' ≡ₚ files →
            CL.sort localeCompare files' = CL.sort localeCompare files.
Proof.
  split; [apply sort_Permutation|]. split; [apply sort_sorted|].
  intros files' Hp. apply sorted_unique; try apply sort_sorted.
  by rewrite !sort_Permutation.
Qed.

End Sort.

(** ** The chains of the [cycles] diagnostics

    A visitation chain is a [Set] of the store, so what it holds is no
    field of the loader.  The sets that the loader creates only ever
    receive a path after the path was claimed; [n0] is the size of the
    store before the loader allocates. *)

Definition owned (st : Loader) (p : string) : Prop :=
  is_Some (Props.get p (pathsToGlobKey st)).

Definition no_set (c : cell) : Prop :=
  match c with CSet _ => False | _ => True end.

Lemma alloc_json_no_set j :
  ∀ s v s', alloc_json j s = (v, s') → ∃ new, s' = s ++ new ∧ Forall no_set new.
Proof.
  induction j as [| | | |items IH|members IH] using json_induction;
    intros s v s';
    try (intros [= <- <-]; exists []; by rewrite app_nil_r).
  - rewrite alloc_json_arr.
    assert (∀ s vs s1, alloc_items items s = (vs, s1) →
                       ∃ new, s1 = s ++ new ∧ Forall no_set new) as Hitems.
    { clear s v s'. induction IH as [|x r Hx _ IHr]; intros s vs s1; simpl.
      - intros [= <- <-]. exists []. by rewrite app_nil_r.
      - destruct (alloc_json x s) as [v1 s2] eqn:E1.
        destruct (alloc_items r s2) as [vs' s3] eqn:E2. intros [= <- <-].
        destruct (Hx _ _ _ E1) as (n1 & -> & H1).
        destruct (IHr _ _ _ E2) as (n2 & -> & H2).
        exists (n1 ++ n2). rewrite app_assoc. split; [done|].
        by apply Forall_app. }
    destruct (alloc_items items s) as [vs s1] eqn:E. unfold alloc_cell.
    intros [= <- <-]. destruct (Hitems _ _ _ E) as (new & -> & Hnew).
    exists (new ++ [CArr vs]). rewrite app_assoc. split; [done|].
    apply Forall_app. split; [done|]. by repeat constructor.
  - rewrite alloc_json_obj.
    assert (∀ s ps s1, alloc_members members s = (ps, s1) →
                       ∃ new, s1 = s ++ new ∧ Forall no_set new) as Hmembers.
    { clear s v s'. induction IH as [|[k x] r Hx _ IHr]; intros s ps s1; simpl.
      - intros [= <- <-]. exists []. by rewrite app_nil_r.
      - destruct (alloc_json x s) as [v1 s2] eqn:E1.
        destruct (alloc_members r s2) as [ps' s3] eqn:E2. intros [= <- <-].
        destruct (Hx _ _ _ E1) as (n1 & -> & H1).
        destruct (IHr _ _ _ E2) as (n2 & -> & H2).
        exists (n1 ++ n2). rewrite app_assoc. split; [done|].
        by apply Forall_app. }
    destruct (alloc_members members s) as [ps s1] eqn:E. unfold alloc_cell.
    intros [= <- <-]. destruct (Hmembers _ _ _ E) as (new & -> & Hnew).
    exists (new ++ [CObj ps]). rewrite app_assoc. split; [done|].
    apply Forall_app. split; [done|]. by repeat constructor.
Qed.

(** *** Computations that leave the sets alone

    [quiet m]: whatever its outcome, [m] leaves the fields of the loader
    as they are, creates no set and changes none. *)

Definition quiet {A} (m : M A) : Prop :=
  ∀ st, ∃ s, final (m st) = with_heap (λ _, s) st ∧
             length (heap st) ≤ length s ∧
             ∀ a elems, s !! a = Some (CSet elems) →
                        heap st !! a = Some (CSet elems).

Lemma quiet_ret {A} (a : A) : quiet (mret a).
Proof. intros st. exists (heap st). simpl. by rewrite with_heap_id. Qed.

Lemma quiet_throw {A} e : quiet (@throw A e).
Proof. intros st. exists (heap st). simpl. by rewrite with_heap_id. Qed.

Lemma quiet_gets {A} (f : Loader → A) : quiet (gets f).
Proof. intros st. exists (heap st). simpl. by rewrite with_heap_id. Qed.

Lemma quiet_bind {A B} (m : M A) (f : A → M B) :
  quiet m → (∀ a, quiet (f a)) → quiet (m ≫= f).
Proof.
  intros Hm Hf st. rewrite bind_eq. destruct (Hm st) as (s1 & H1 & L1 & S1).
  destruct (m st) as [a st'|e st'|st']; simpl in H1; subst st';
    try (by exists s1).
  destruct (Hf a (with_heap (λ _, s1) st)) as (s2 & H2 & L2 & S2).
  exists s2. rewrite H2. simpl in *. split; [done|]. split; [lia|]. auto.
Qed.

Lemma quiet_foldM {A B} (f : B → A → M B) (l : list A) :
  (∀ b x, quiet (f b x)) → ∀ b, quiet (foldM f b l).
Proof.
  intros Hf. induction l as [|x l IH]; intros b; simpl; [apply quiet_ret|].
  apply quiet_bind; auto.
Qed.

Lemma quiet_getProp o k : quiet (getProp o k).
Proof.
  intros st. exists (heap st). unfold getProp.
  destruct (read_prop _ _ _); simpl; by rewrite with_heap_id.
Qed.

Lemma quiet_alloc c : no_set c → quiet (alloc c).
Proof.
  intros Hc st. exists (heap st ++ [c]). split; [done|].
  split; [rewrite length_app; lia|]. intros a elems Ha.
  apply lookup_app_Some in Ha as [Ha|[_ Ha]]; [done|].
  apply list_lookup_singleton_Some in Ha as [_ ->]. done.
Qed.

Lemma quiet_on_object o f : quiet (on_object o f).
Proof.
  destruct o as [| | | | |owner]; try apply quiet_ret. intros st. simpl.
  eexists. split; [done|]. split; [by rewrite update_cell_length|].
  intros a elems. rewrite update_cell_lookup. case_decide as Ha; [|done].
  subst a. by destruct (heap st !! owner) as [[]|].
Qed.

Lemma quiet_withSource value source : quiet (CL.withSource value source).
Proof.
  apply quiet_bind; [apply quiet_gets|]. intros ps. by apply quiet_alloc.
Qed.

Lemma quiet_mergeObjectValues base loaded :
  quiet (CL.mergeObjectValues base loaded).
Proof.
  rewrite mergeObjectValues_eq.
  apply quiet_bind; [apply quiet_gets|]. intros ps.
  apply quiet_bind; [|intros; by apply quiet_alloc].
  apply quiet_foldM. intros result [item source]. unfold mergeItem.
  apply quiet_bind; [apply quiet_gets|]. intros []; [|apply quiet_ret].
  apply quiet_bind; [apply quiet_gets|]. intros entries.
  apply quiet_foldM. intros result' [k value]. unfold assignEntry.
  apply quiet_bind; [apply quiet_gets|]. intros []; [|apply quiet_ret].
  apply quiet_bind; [apply quiet_withSource|]. intros. apply quiet_ret.
Qed.

Lemma quiet_pushElement source result element :
  quiet (CL.pushElement source result element).
Proof.
  apply quiet_bind; [apply quiet_gets|]. intros []; [|apply quiet_ret].
  apply quiet_bind; [apply quiet_withSource|]. intros. apply quiet_ret.
Qed.

Lemma quiet_mergeArrayValues base loaded :
  quiet (CL.mergeArrayValues base loaded).
Proof.
  rewrite mergeArrayValues_eq.
  apply quiet_bind; [apply quiet_gets|]. intros spread.
  apply quiet_bind.
  { destruct spread; [apply quiet_ret|apply quiet_throw]. }
  intros copy. apply quiet_bind; [|intros; by apply quiet_alloc].
  apply quiet_foldM. intros result [item source]. unfold appendItem.
  apply quiet_bind; [apply quiet_gets|]. intros [elements|].
  - apply quiet_foldM. intros. apply quiet_pushElement.
  - apply quiet_pushElement.
Qed.

Lemma quiet_mergeAndAssign owner globKey targetKey isArray loaded :
  quiet (mergeAndAssign owner globKey targetKey isArray loaded).
Proof.
  apply quiet_bind; [apply quiet_getProp|]. intros target.
  apply quiet_bind.
  - destruct isArray.
    + apply quiet_bind.
      * destruct (truthy target); [apply quiet_ret|by apply quiet_alloc].
      * intros. apply quiet_mergeArrayValues.
    + apply quiet_bind.
      * destruct (truthy target); [apply quiet_ret|by apply quiet_alloc].
      * intros. apply quiet_mergeObjectValues.
  - intros merged. apply quiet_bind; [apply quiet_on_object|].
    intros. apply quiet_on_object.
Qed.

Section Chains.
Variable n0 : nat.

(** The chain is one of the loader's own. *)
Definition own_chain (visited : option addr) : Prop :=
  match visited with Some vis => n0 ≤ vis | None => True end.

Record chains_owned (st : Loader) : Prop :=
  { co_length : n0 ≤ length (heap st);
    co_sets : ∀ a elems p, n0 ≤ a → heap st !! a = Some (CSet elems) →
                           p ∈ elems → owned st p;
    co_cycles : ∀ w, w ∈ cycles (warnings st) →
                     cycle_path w ∈ chain w ∧ ∀ p, p ∈ chain w → owned st p }.

(** [m] keeps the chains owned, and what it returns satisfies [post]. *)
Definition keeps {A} (m : M A) (post : A → Prop) : Prop :=
  ∀ st, chains_owned st →
        chains_owned (final (m st)) ∧ ∀ a st', m st = Ok a st' → post a.

Lemma keeps_ret {A} (a : A) (post : A → Prop) : post a → keeps (mret a) post.
Proof. intros Ha st Hst. split; [done|]. by intros ? ? [= <- _]. Qed.

Lemma keeps_out_of_fuel {A} (post : A → Prop) : keeps (@out_of_fuel A) post.
Proof. intros st Hst. split; [done|]. by intros. Qed.

Lemma keeps_weaken {A} (m : M A) (post post' : A → Prop) :
  keeps m post → (∀ a, post a → post' a) → keeps m post'.
Proof.
  intros Hm Himp st Hst. destruct (Hm st Hst) as [H1 H2].
  split; [done|]. intros a st' E. eauto.
Qed.

Lemma keeps_bind {A B} (m : M A) (f : A → M B) post post' :
  keeps m post → (∀ a, post a → keeps (f a) post') → keeps (m ≫= f) post'.
Proof.
  intros Hm Hf st Hst. rewrite bind_eq. destruct (Hm st Hst) as [H1 H2].
  destruct (m st) as [a st'|e st'|st']; simpl in *; [|by split..].
  by apply Hf; [eapply H2|].
Qed.

Lemma keeps_quiet {A} (m : M A) : quiet m → keeps m (λ _, True).
Proof.
  intros Hm st [L S C]. split; [|done].
  destruct (Hm st) as (s & -> & Hlen & Hsets). split; simpl.
  - lia.
  - intros a elems p Ha Hcell. apply (S a elems p Ha). by apply Hsets.
  - exact C.
Qed.

Lemma keeps_gets {A} (f : Loader → A) : keeps (gets f) (λ _, True).
Proof. apply keeps_quiet, quiet_gets. Qed.

Lemma keeps_getProp o k : keeps (getProp o k) (λ _, True).
Proof. apply keeps_quiet, quiet_getProp. Qed.

Lemma keeps_when (b : bool) (m : M unit) :
  keeps m (λ _, True) → keeps (when b m) (λ _, True).
Proof. destruct b; [done|]. intros _. by apply keeps_ret. Qed.

Lemma keeps_forM_ {A} (l : list A) (f : A → M unit) :
  (∀ x, keeps (f x) (λ _, True)) → keeps (forM_ l f) (λ _, True).
Proof.
  intros Hf. induction l as [|x l IH]; simpl; [by apply keeps_ret|].
  eapply keeps_bind; [apply Hf|]. by intros.
Qed.

Lemma keeps_foldM {A B} (f : B → A → M B) (l : list A) :
  (∀ b x, keeps (f b x) (λ _, True)) → ∀ b, keeps (foldM f b l) (λ _, True).
Proof.
  intros Hf. induction l as [|x l IH]; intros b; simpl; [by apply keeps_ret|].
  eapply keeps_bind; [apply Hf|]. intros. apply IH.
Qed.

(** A chain is one of the loader's own from the start, or it is new. *)
Lemma keeps_visitedOrNew visited :
  own_chain visited → keeps (CL.visitedOrNew visited) (λ vis, n0 ≤ vis).
Proof.
  destruct visited as [vis|]; simpl; [intros; by apply keeps_ret|].
  intros _ st [L S C]. split.
  - split; simpl.
    + rewrite length_app. lia.
    + intros a elems p Ha Hcell.
      apply lookup_app_Some in Hcell as [Hcell|[_ Hcell]]; [by eapply S|].
      apply list_lookup_singleton_Some in Hcell as [_ [= <-]].
      by intros ?%elem_of_nil.
    + exact C.
  - intros a st' [= <- _]. exact L.
Qed.

Lemma keeps_trackPattern pattern : keeps (CL.trackPattern pattern) (λ _, True).
Proof.
  intros st [L S C]. split; [|done].
  destruct pattern as [| | | |p|]; try done. simpl.
  by destruct (starts_with_bang p).
Qed.

(** *** The loop body *)

Lemma chains_owned_claimed globKey visited filePath st :
  own_chain visited → chains_owned st →
  chains_owned (claimed globKey visited filePath st).
Proof.
  intros Hvis [L S C].
  assert (∀ p, owned st p →
               is_Some (Props.get p (Props.set filePath globKey
                                       (pathsToGlobKey st)))) as Hmono.
  { intros p Hp. destruct (decide (filePath = p)) as [->|Hne].
    - by rewrite PropsFacts.get_set_same.
    - by rewrite PropsFacts.get_set_other. }
  split.
  - destruct visited; simpl; [by rewrite update_cell_length|done].
  - intros a elems p Ha. unfold owned, claimed.
    destruct visited as [vis|]; simpl.
    + rewrite update_cell_lookup. case_decide as Heq.
      * subst a. destruct (heap st !! vis) as [[| |elems0]|] eqn:E;
          try done. simpl. intros [= <-] [Hp|Hp]%elem_of_add.
        -- subst p. by rewrite PropsFacts.get_set_same.
        -- apply Hmono. by eapply S.
      * intros Hcell Hp. apply Hmono. by eapply S.
    + intros Hcell Hp. apply Hmono. by eapply S.
  - intros w Hw.
    assert (w ∈ cycles (warnings st)) as Hw'
      by (by destruct visited).
    destruct (C w Hw') as [Hin Hall]. split; [done|].
    intros p Hp. unfold owned, claimed. destruct visited; simpl;
      apply Hmono; by apply Hall.
Qed.

Lemma chains_owned_extended new st :
  Forall no_set new → chains_owned st →
  chains_owned (with_heap (λ _, heap st ++ new) st).
Proof.
  intros Hnew [L S C]. split; simpl.
  - rewrite length_app. lia.
  - intros a elems p Ha Hcell.
    apply lookup_app_Some in Hcell as [Hcell|[_ Hcell]]; [by eapply S|].
    rewrite Forall_forall in Hnew.
    by destruct (Hnew (CSet elems) (list_elem_of_lookup_2 _ _ _ Hcell)).
  - exact C.
Qed.

Lemma keeps_loadFile options globKey visited loadedData filePath :
  own_chain visited →
  keeps (CL.loadFile options globKey visited loadedData filePath) (λ _, True).
Proof.
  intros Hvis st Hst. split; [|done].
  destruct (in_chain st visited filePath) eqn:Hin.
  { rewrite (loadFile_cycle options _ _ _ _ _ Hin). simpl final.
    destruct Hst as [L S C]. split; [done|done|]. simpl.
    intros w [Hw|Hw]%elem_of_app; [by apply C|].
    apply list_elem_of_singleton in Hw as ->.
    destruct visited as [vis|]; [|done]. simpl in *. unfold set_elems in *.
    destruct (heap st !! vis) as [[| |elems]|] eqn:E; try done.
    split; [by apply list_elem_of_In, has_In|].
    intros p Hp. by apply (S vis elems p Hvis E). }
  destruct (owned_by_other st globKey filePath) as [existing|] eqn:Hown.
  { rewrite (loadFile_conflict options _ _ _ _ _ _ Hin Hown). simpl final.
    by destruct Hst. }
  rewrite (loadFile_claim options _ _ _ _ _ Hin Hown), claimAndLoad_eq.
  cbv zeta.
  pose proof (chains_owned_claimed globKey visited filePath st Hvis Hst)
    as Hclaimed.
  assert (∀ document v st2,
            cloned document (claimed globKey visited filePath st) = (v, st2) →
            chains_owned st2 ∧
            chains_owned (add_array {| array_path := filePath |} st2))
    as Hcloned.
  { intros document v st2. unfold cloned.
    destruct (alloc_json _ _) as [v' s'] eqn:E. intros [= <- <-].
    destruct (alloc_json_no_set _ _ _ _ E) as (new & -> & Hnew).
    pose proof (chains_owned_extended new _ Hnew Hclaimed) as H.
    split; [done|]. by destruct H. }
  destruct (loadConfigFile options (calls st) filePath) as [|[document|]];
    try done.
  destruct document; try done.
  all: match goal with
       | |- context [cloned ?d ?st1] =>
           destruct (cloned d st1) as [v st2] eqn:E;
           destruct (Hcloned _ _ _ E) as [H1 H2]
       end.
  all: by destruct (array_items _ v).
Qed.

(** *** The walker *)

Section Walker.
Variable localeCompare : string → string → Z.
Variable options : MergeConfigurationOptions.

Lemma keeps_importFromGlobKey owner globKey targetKey isArray visited :
  own_chain visited →
  keeps (CL.importFromGlobKey localeCompare options owner globKey targetKey
           isArray visited) (λ _, True).
Proof.
  intros Hvis.
  eapply keeps_bind; [apply keeps_getProp|]. intros globs _.
  eapply keeps_bind; [apply keeps_gets|].
  intros [patterns|] _; [|by apply keeps_ret].
  eapply keeps_bind; [apply keeps_forM_, keeps_trackPattern|]. intros _ _.
  eapply keeps_bind.
  { eapply keeps_bind.
    - intros st [L S C]. split; [|by instantiate (1 := λ _, True)].
      unfold CL.callFindFilesMatchingGlobs.
      by destruct (findFilesMatchingGlobs _ _ _).
    - intros files _. apply keeps_foldM. intros. by apply keeps_loadFile. }
  intros loaded _.
  apply (keeps_quiet (mergeAndAssign owner globKey targetKey isArray loaded)).
  apply quiet_mergeAndAssign.
Qed.

Lemma keeps_processStructureValueWith processInputsKey value visited :
  n0 ≤ visited →
  (∀ inputs vis, own_chain vis → keeps (processInputsKey inputs vis) (λ _, True)) →
  keeps (CL.processStructureValueWith localeCompare options processInputsKey
           value visited) (λ _, True).
Proof.
  intros Hvis Hrec. eapply keeps_bind; [apply keeps_gets|].
  intros [] _; [|by apply keeps_ret].
  eapply keeps_bind; [apply keeps_getProp|]. intros inputsFromGlob _.
  eapply keeps_bind;
    [by apply keeps_when, keeps_importFromGlobKey|]. intros _ _.
  eapply keeps_bind; [apply keeps_getProp|]. intros inputs _.
  by apply keeps_when, Hrec.
Qed.

Lemma keeps_processInputsKey fuel : ∀ inputs visited,
  own_chain visited →
  keeps (CL.processInputsKey localeCompare options fuel inputs visited)
    (λ _, True).
Proof.
  induction fuel as [|fuel IH]; intros inputs visited Hvis;
    [apply keeps_out_of_fuel|]. simpl.
  eapply keeps_bind; [apply keeps_gets|].
  intros [] _; [|by apply keeps_ret].
  eapply keeps_bind; [apply keeps_gets|]. intros inputValues _.
  apply keeps_forM_. intros inputValue.
  eapply keeps_bind; [apply keeps_gets|].
  intros [] _; [|by apply keeps_ret].
  eapply keeps_bind; [apply keeps_getProp|]. intros inputOptions _.
  eapply keeps_bind; [apply keeps_gets|].
  intros [] _; [|by apply keeps_ret].
  eapply keeps_bind; [apply keeps_getProp|]. intros structures _.
  eapply keeps_bind; [by apply keeps_visitedOrNew|]. intros visitedLocal Hlocal.
  eapply keeps_bind; [apply keeps_gets|].
  intros [] _; [|by apply keeps_ret].
  eapply keeps_bind; [apply keeps_getProp|]. intros valuesFromGlob _.
  eapply keeps_bind;
    [by apply keeps_when, keeps_importFromGlobKey|]. intros _ _.
  eapply keeps_bind; [apply keeps_getProp|]. intros values _.
  eapply keeps_bind; [apply keeps_gets|].
  intros [items|] _; [|by apply keeps_ret].
  apply keeps_forM_. intros value.
  by apply keeps_processStructureValueWith.
Qed.

Lemma keeps_processStructureValue fuel value visited :
  n0 ≤ visited →
  keeps (CL.processStructureValue localeCompare options fuel value visited)
    (λ _, True).
Proof.
  intros Hvis. apply keeps_processStructureValueWith; [done|].
  apply keeps_processInputsKey.
Qed.

Lemma keeps_processStructuresKey fuel structures visited :
  own_chain visited →
  keeps (CL.processStructuresKey localeCompare options fuel structures visited)
    (λ _, True).
Proof.
  intros Hvis. eapply keeps_bind; [apply keeps_gets|].
  intros [] _; [|by apply keeps_ret].
  eapply keeps_bind; [apply keeps_gets|]. intros entries _.
  apply keeps_forM_. intros structure.
  eapply keeps_bind; [apply keeps_gets|].
  intros [] _; [|by apply keeps_ret].
  eapply keeps_bind; [by apply keeps_visitedOrNew|]. intros visitedLocal Hlocal.
  eapply keeps_bind; [by apply keeps_importFromGlobKey|]. intros _ _.
  eapply keeps_bind; [apply keeps_getProp|]. intros values _.
  eapply keeps_bind; [apply keeps_gets|].
  intros [items|] _; [|by apply keeps_ret].
  apply keeps_forM_. intros value. by apply keeps_processStructureValue.
Qed.

Lemma keeps_processInputsAndStructures fuel owner :
  keeps (CL.processInputsAndStructures localeCompare options fuel owner)
    (λ _, True).
Proof.
  eapply keeps_bind; [by apply keeps_importFromGlobKey|]. intros _ _.
  eapply keeps_bind; [by apply keeps_importFromGlobKey|]. intros _ _.
  eapply keeps_bind; [apply keeps_getProp|]. intros inputs _.
  eapply keeps_bind; [by apply keeps_processInputsKey|]. intros _ _.
  eapply keeps_bind; [apply keeps_getProp|]. intros structures _.
  by apply keeps_processStructuresKey.
Qed.

Lemma keeps_processSchemas fuel collection :
  keeps (CL.processSchemas localeCompare options fuel collection) (λ _, True).
Proof.
  eapply keeps_bind; [apply keeps_getProp|]. intros schemas _.
  eapply keeps_bind; [apply keeps_gets|].
  intros [] _; [|by apply keeps_ret].
  eapply keeps_bind; [apply keeps_gets|]. intros entries _.
  apply keeps_forM_. intros schemaValue.
  eapply keeps_bind; [apply keeps_gets|]. intros schemaIsObject _.
  apply keeps_when, keeps_processInputsAndStructures.
Qed.

Lemma keeps_processCollections fuel config :
  keeps (CL.processCollections localeCompare options fuel config) (λ _, True).
Proof.
  eapply keeps_bind; [apply keeps_getProp|]. intros collectionsConfig _.
  eapply keeps_bind; [apply keeps_gets|].
  intros [] _; [|by apply keeps_ret].
  eapply keeps_bind; [apply keeps_gets|]. intros entries _.
  apply keeps_forM_. intros [collectionKey collectionConfig].
  eapply keeps_bind; [apply keeps_gets|].
  intros [] _; [|by apply keeps_ret].
  eapply keeps_bind; [apply keeps_gets|]. intros hasSchemasFromGlob _.
  eapply keeps_bind;
    [by apply keeps_when, keeps_importFromGlobKey|]. intros _ _.
  eapply keeps_bind; [apply keeps_getProp|]. intros current _.
  eapply keeps_bind; [apply keeps_getProp|]. intros collection _.
  eapply keeps_bind; [apply keeps_processInputsAndStructures|]. intros _ _.
  apply keeps_processSchemas.
Qed.

Lemma keeps_processSnippets fuel config :
  keeps (CL.processSnippets localeCompare options fuel config) (λ _, True).
Proof.
  eapply keeps_bind; [apply keeps_getProp|]. intros snippets _.
  eapply keeps_bind; [apply keeps_gets|].
  intros [] _; [|by apply keeps_ret].
  eapply keeps_bind; [by apply keeps_importFromGlobKey|]. intros _ _.
  eapply keeps_bind; [apply keeps_gets|]. intros entries _.
  apply keeps_forM_. intros snippetConfig.
  eapply keeps_bind; [apply keeps_gets|]. intros snippetIsObject _.
  apply keeps_when, keeps_processInputsAndStructures.
Qed.

Lemma keeps_mergeConfiguration fuel root :
  keeps (CL.mergeConfiguration localeCompare options fuel root) (λ _, True).
Proof.
  unfold CL.mergeConfiguration.
  eapply (keeps_bind _ _ (λ _, True)).
  { intros st [L S C]. split; [|done]. split; [done|done|].
    simpl. by intros w ?%elem_of_nil. }
  intros _ _. eapply (keeps_bind _ _ (λ _, True)).
  { intros st [L S C]. by split. }
  intros _ _. eapply keeps_bind.
  { apply keeps_forM_. intros [globKey targetKey].
    by apply keeps_importFromGlobKey. }
  intros _ _.
  eapply keeps_bind; [apply keeps_getProp|]. intros inputs _.
  eapply keeps_bind; [by apply keeps_processInputsKey|]. intros _ _.
  eapply keeps_bind; [apply keeps_getProp|]. intros structures _.
  eapply keeps_bind; [by apply keeps_processStructuresKey|]. intros _ _.
  eapply keeps_bind; [apply keeps_processCollections|]. intros _ _.
  eapply keeps_bind; [apply keeps_processSnippets|]. intros _ _.
  by apply keeps_ret.
Qed.

End Walker.
End Chains.

Lemma chains_owned_exported localeCompare fuel s input options :
  chains_owned (length s)
    (final (mergeConfiguration localeCompare fuel s input options)).
Proof.
  unfold mergeConfiguration.
  assert (keeps (length s)
    (copy ← deepCopy input;
     result ← CL.mergeConfiguration localeCompare options fuel copy;
     loader ← gets id;
     mret {| config := result;
             result_warnings := removeDuplicateWarnings (warnings loader);
             result_globPatterns := globPatterns loader;
             result_pathsToGlobKey := pathsToGlobKey loader;
             result_globKeyToPaths := globKeyToPaths loader |})
    (λ _, True)) as H.
  { eapply (keeps_bind _ _ _ (λ _, True)).
    { unfold deepCopy. eapply keeps_bind; [apply keeps_gets|].
      intros [document|] _; [|by apply keeps_quiet, quiet_throw].
      intros st Hst. split; [|done]. unfold JSON_parse.
      destruct (alloc_json _ _) as [v s'] eqn:E. simpl.
      destruct (alloc_json_no_set _ _ _ _ E) as (new & -> & Hnew).
      by apply chains_owned_extended. }
    intros copy _. eapply keeps_bind; [apply keeps_mergeConfiguration|].
    intros result _. eapply keeps_bind; [apply keeps_gets|].
    intros loader _. by apply keeps_ret. }
  apply H. split; simpl; [done| |by intros w ?%elem_of_nil].
  intros a elems p Ha Hcell. apply lookup_lt_Some in Hcell. lia.
Qed.

(** X21. Every [cycles] diagnostic that is returned holds its own path in its
    chain, and every path of the chain was claimed and loaded: a chain
    only ever names files that [loadConfigFile] was called with. *)
Theorem cycle_chains_are_loaded localeCompare fuel s input options r st :
  mergeConfiguration localeCompare fuel s input options = Ok r st →
  ∀ w, w ∈ cycles (result_warnings r) →
       cycle_path w ∈ chain w ∧
       ∀ p, p ∈ chain w →
            is_Some (Props.get p (result_pathsToGlobKey r)) ∧
            LoadCall p ∈ calls st.
Proof.
  intros Hrun w Hw.
  pose proof (chains_owned_exported localeCompare fuel s input options) as H.
  pose proof (preserves_owned_are_loaded localeCompare options fuel s input)
    as Hloaded.
  rewrite Hrun in H, Hloaded. simpl in H, Hloaded.
  apply exported_result in Hrun as (Hwarnings & _ & -> & _).
  rewrite Hwarnings in Hw. simpl in Hw.
  pose proof (dedup_sublist same_cycle (cycles (warnings st))) as Hsub.
  apply (λ H, elem_of_sublist _ _ _ H Hsub) in Hw.
  destruct (co_cycles _ _ H w Hw) as [Hin Hall]. split; [done|].
  intros p Hp. split; [by apply Hall|]. apply Hloaded. by apply Hall.
Qed.

(** ** More scenarios *)

Module Fixture.
Import Scenario.

(** What a run returned; a run that did not return gives an empty result. *)
Definition returned (run : outcome GlobResult) : GlobResult :=
  match run with
  | Ok r _ => r
  | _ => {| config := VUndef; result_warnings := no_warnings;
            result_globPatterns := []; result_pathsToGlobKey := [];
            result_globKeyToPaths := [] |}
  end.

(** 'warns when same file matches multiple glob types' *)
Definition twoKeysRun : outcome GlobResult :=
  mergeConfiguration byCodeUnit 3 (parsed twoKeysConfig).2 (root twoKeysConfig)
    sharedOptions.

(** 'warns about array values in config files' *)
Definition arrayRun : outcome GlobResult :=
  mergeConfiguration byCodeUnit 3 (parsed collectionsGlobConfig).2
    (root collectionsGlobConfig) arrayOptions.

(** A store for the merge functions: the values of a structure, an object
    with an entry, and two payloads. *)
Definition mergeStore : store :=
  (parsed (JArr [ JArr [JStr "first"];
                  JObj [("existing", JObj [("path", JStr "content/existing")])];
                  JObj [("label", JStr "Hero")];
                  JObj [("title", JStr "Site"); ("tags", JArr [])] ])).2.

(** A structure whose [values] is an object. *)
Definition objectValues : json :=
  JObj [("values", JObj []); ("values_from_glob", JArr [JStr hero])].

(** A collaborator that cannot resolve patterns. *)
Definition failingGlobs : MergeConfigurationOptions :=
  {| findFilesMatchingGlobs := λ _ _, None;
     loadConfigFile := λ _ _, Rejects |}.

(** 'warns when a structure value references a file already in the chain' *)
Definition cycleRun : outcome GlobResult :=
  mergeConfiguration byCodeUnit 3 (parsed blocksConfig).2 (root blocksConfig)
    nestedHeroOptions.

(** A collation that is a total order. *)
Definition byCode (a b : string) : Z :=
  (Z.pos (countable.encode a) - Z.pos (countable.encode b))%Z.

End Fixture.

(** ** The further theorems at work on the scenarios *)

Lemma ownership_maps_agree_witness :
  map fst (result_globKeyToPaths (Fixture.returned Fixture.twoKeysRun))
  = all_glob_keys ∧
  ∀ p k,
    Props.get p (result_pathsToGlobKey (Fixture.returned Fixture.twoKeysRun))
    = Some k
    ↔ p ∈ paths_of k (result_globKeyToPaths
                        (Fixture.returned Fixture.twoKeysRun)).
Proof.
  apply (ownership_maps_agree Scenario.byCodeUnit 3
           (Scenario.parsed Scenario.twoKeysConfig).2
           (Scenario.root Scenario.twoKeysConfig) Scenario.sharedOptions
           (Fixture.returned Fixture.twoKeysRun) (final Fixture.twoKeysRun)).
  vm_compute. reflexivity.
Defined.

Lemma owned_paths_are_the_loaded_paths_witness :
  LoadCall Scenario.shared ∈ calls (final Fixture.twoKeysRun)
  ↔ is_Some (Props.get Scenario.shared
               (result_pathsToGlobKey (Fixture.returned Fixture.twoKeysRun))).
Proof.
  apply (owned_paths_are_the_loaded_paths Scenario.byCodeUnit 3
           (Scenario.parsed Scenario.twoKeysConfig).2
           (Scenario.root Scenario.twoKeysConfig) Scenario.sharedOptions
           (Fixture.returned Fixture.twoKeysRun) (final Fixture.twoKeysRun)).
  vm_compute. reflexivity.
Defined.

Lemma conflict_diagnostics_name_the_owner_witness :
  collections_config_from_glob ≠ _inputs_from_glob ∧
  Props.get Scenario.shared
    (result_pathsToGlobKey (Fixture.returned Fixture.twoKeysRun))
  = Some collections_config_from_glob ∧
  LoadCall Scenario.shared ∈ calls (final Fixture.twoKeysRun).
Proof.
  refine (conflict_diagnostics_name_the_owner Scenario.byCodeUnit 3
            (Scenario.parsed Scenario.twoKeysConfig).2
            (Scenario.root Scenario.twoKeysConfig) Scenario.sharedOptions
            (Fixture.returned Fixture.twoKeysRun) (final Fixture.twoKeysRun)
            _ _
            {| multi_path := Scenario.shared;
               type1 := collections_config_from_glob;
               type2 := _inputs_from_glob |} _).
  - intros history globs files [= <-]. by repeat constructor.
  - vm_compute. reflexivity.
  - vm_compute. by left.
Defined.

Lemma array_diagnostics_are_owned_witness :
  ∃ k, Props.get Scenario.arrayFile
         (result_pathsToGlobKey (Fixture.returned Fixture.arrayRun))
       = Some k ∧
       Scenario.arrayFile
       ∈ paths_of k (result_globKeyToPaths (Fixture.returned Fixture.arrayRun)) ∧
       LoadCall Scenario.arrayFile ∈ calls (final Fixture.arrayRun).
Proof.
  refine (array_diagnostics_are_owned Scenario.byCodeUnit 3
           (Scenario.parsed Scenario.collectionsGlobConfig).2
           (Scenario.root Scenario.collectionsGlobConfig) Scenario.arrayOptions
           (Fixture.returned Fixture.arrayRun) (final Fixture.arrayRun)
           _ {| array_path := Scenario.arrayFile |} _).
  - vm_compute. reflexivity.
  - vm_compute. by left.
Defined.

Lemma every_match_is_accounted_for_witness :
  met (final (CL.importFromGlobKey Scenario.byCodeUnit Scenario.inputsOptions
                (VRef 1) _inputs_from_glob "_inputs" false None
                (Scenario.started Scenario.inputsConfig)))
  ≡ₚ met (Scenario.started Scenario.inputsConfig)
     ++ ["/.cloudcannon/inputs/seo.yml"; "/.cloudcannon/inputs/blog.yml"].
Proof.
  apply (every_match_is_accounted_for Scenario.byCodeUnit Scenario.inputsOptions
           (Scenario.started Scenario.inputsConfig) (VRef 1) _inputs_from_glob
           "_inputs" false None (VRef 0) [VStr "/.cloudcannon/inputs/*.yml"]);
    reflexivity.
Defined.

Lemma chain_is_never_shortened_witness :
  let after :=
    final (CL.importFromGlobKey Scenario.byCodeUnit Scenario.heroOptions
             (VRef 1) values_from_glob "values" true (Some 2)
             Scenario.expandingHero) in
  in_chain after (Some 2) Scenario.hero = true ∧
  ∀ globKey loadedData,
    CL.loadFile Scenario.heroOptions globKey (Some 2) loadedData
      Scenario.hero after
    = Ok loadedData
        (add_cycle {| cycle_path := Scenario.hero;
                      chain := set_elems (heap after) 2 |} after).
Proof.
  refine (chain_is_never_shortened Scenario.byCodeUnit Scenario.heroOptions 3
            Scenario.expandingHero 2 Scenario.hero _ _ _).
  - vm_compute. reflexivity.
  - right. right. by eexists _, _, _, _, _.
Defined.

Lemma array_merge_appends_witness :
  ∃ merged st' added,
    CL.mergeArrayValues (VRef 0)
      [(VRef 3, Scenario.hero); (VNull, "/.cloudcannon/structures/nan.yml")]
      (new_loader Fixture.mergeStore) = Ok (VRef merged) st' ∧
    grown (new_loader Fixture.mergeStore) st' ∧
    length Fixture.mergeStore ≤ merged ∧
    heap st' !! merged = Some (CArr ([VStr "first"] ++ added)) ∧
    Forall2 (appended Fixture.mergeStore (heap st'))
      [(VRef 3, Scenario.hero); (VNull, "/.cloudcannon/structures/nan.yml")]
      added.
Proof.
  apply (array_merge_appends (VRef 0)
           [(VRef 3, Scenario.hero);
            (VNull, "/.cloudcannon/structures/nan.yml")]
           (new_loader Fixture.mergeStore) [VStr "first"]); [reflexivity|].
  repeat constructor.
Defined.

Lemma object_merge_keeps_other_keys_witness :
  ∃ merged st' result,
    CL.mergeObjectValues (VRef 2)
      [(VRef 3, Scenario.hero); (VNull, "/.cloudcannon/structures/nan.yml")]
      (new_loader Fixture.mergeStore) = Ok (VRef merged) st' ∧
    grown (new_loader Fixture.mergeStore) st' ∧
    length Fixture.mergeStore ≤ merged ∧
    heap st' !! merged = Some (CObj result) ∧
    Props.get "existing" result = Some (VRef 1).
Proof.
  apply (object_merge_keeps_other_keys (VRef 2)
           [(VRef 3, Scenario.hero);
            (VNull, "/.cloudcannon/structures/nan.yml")]
           (new_loader Fixture.mergeStore) "existing").
  - repeat constructor.
  - repeat constructor.
Defined.

Lemma values_that_are_not_objects_carry_no_source_witness :
  ∃ merged st' result,
    CL.mergeObjectValues (VRef 2)
      ([(VRef 3, Scenario.hero)] ++ [(VRef 5, "/site.yml")])
      (new_loader Fixture.mergeStore) = Ok (VRef merged) st' ∧
    grown (new_loader Fixture.mergeStore) st' ∧
    heap st' !! merged = Some (CObj result) ∧
    Props.get "tags" result = Some (VRef 4).
Proof.
  apply (values_that_are_not_objects_carry_no_source (VRef 2)
           [(VRef 3, Scenario.hero)] 5 "/site.yml"
           [("title", VStr "Site"); ("tags", VRef 4)] "tags" (VRef 4)
           (new_loader Fixture.mergeStore));
    try reflexivity; [done|].
  simpl. tauto.
Defined.

Lemma object_under_an_array_target_throws_witness :
  ∃ st',
    CL.importFromGlobKey Scenario.byCodeUnit Scenario.heroOptions (VRef 2)
      values_from_glob "values" true None
      (Scenario.started Fixture.objectValues) = Thrown TypeError st' ∧
    heap st' !! 2
    = Some (CObj [("values", VRef 0); ("values_from_glob", VRef 1)]) ∧
    met st' ≡ₚ met (Scenario.started Fixture.objectValues) ++ [Scenario.hero].
Proof.
  apply (object_under_an_array_target_throws Scenario.byCodeUnit
           Scenario.heroOptions (Scenario.started Fixture.objectValues) 2
           [("values", VRef 0); ("values_from_glob", VRef 1)] values_from_glob
           "values" None (VRef 1) [VStr Scenario.hero] [Scenario.hero] 0 []);
    reflexivity.
Defined.

Lemma returned_tree_is_new_witness :
  fresh_val (length (Scenario.parsed Scenario.twoKeysConfig).2)
    (config (Fixture.returned Fixture.twoKeysRun)) ∧
  length (Scenario.parsed Scenario.twoKeysConfig).2
  ≤ length (heap (final Fixture.twoKeysRun)) ∧
  ∀ a c, length (Scenario.parsed Scenario.twoKeysConfig).2 ≤ a →
         heap (final Fixture.twoKeysRun) !! a = Some c →
         fresh_cell (length (Scenario.parsed Scenario.twoKeysConfig).2) c.
Proof.
  apply (returned_tree_is_new Scenario.byCodeUnit 3
           (Scenario.parsed Scenario.twoKeysConfig).2
           (Scenario.root Scenario.twoKeysConfig) Scenario.sharedOptions
           (Fixture.returned Fixture.twoKeysRun) (final Fixture.twoKeysRun)).
  vm_compute. reflexivity.
Defined.

Lemma glob_fault_propagates_witness :
  ∃ st,
    mergeConfiguration Scenario.byCodeUnit 3
      (Scenario.parsed Scenario.inputsConfig).2
      (Scenario.root Scenario.inputsConfig) Fixture.failingGlobs
    = Thrown CollaboratorFault st ∧
    load_paths (calls st) = [].
Proof.
  apply (glob_fault_propagates Scenario.byCodeUnit 3
           (Scenario.parsed Scenario.inputsConfig).2
           (Scenario.root Scenario.inputsConfig) Fixture.failingGlobs
           [("_inputs_from_glob", JArr [JStr "/.cloudcannon/inputs/*.yml"])]
           _inputs_from_glob "_inputs" [JStr "/.cloudcannon/inputs/*.yml"]);
    [reflexivity|simpl; tauto|reflexivity|reflexivity].
Defined.

Lemma tracked_patterns_are_not_repeated_witness :
  NoDup (result_globPatterns (Fixture.returned Fixture.twoKeysRun)).
Proof.
  apply (tracked_patterns_are_not_repeated Scenario.byCodeUnit 3
           (Scenario.parsed Scenario.twoKeysConfig).2
           (Scenario.root Scenario.twoKeysConfig) Scenario.sharedOptions
           (Fixture.returned Fixture.twoKeysRun) (final Fixture.twoKeysRun)).
  vm_compute. reflexivity.
Defined.

Lemma patterns_are_tracked_before_they_are_resolved_witness :
  let after :=
    final (CL.importFromGlobKey Scenario.byCodeUnit Fixture.failingGlobs
             (VRef 1) collections_config_from_glob "collections_config" false
             None (Scenario.started Scenario.negatedConfig)) in
  (∀ p, VStr p ∈ [VStr "/.cloudcannon/collections/*.yml";
                  VStr "!/.cloudcannon/collections/draft.yml"] →
        starts_with_bang p = false → p ∈ globPatterns after) ∧
  (∀ p, p ∈ globPatterns (Scenario.started Scenario.negatedConfig) →
        p ∈ globPatterns after).
Proof.
  apply (patterns_are_tracked_before_they_are_resolved Scenario.byCodeUnit
           Fixture.failingGlobs (Scenario.started Scenario.negatedConfig)
           (VRef 1) collections_config_from_glob "collections_config" false
           None (VRef 0));
    reflexivity.
Defined.

Lemma own_path_is_loaded_again_witness :
  ∃ item st',
    CL.loadFile Scenario.sharedOptions collections_config_from_glob None []
      Scenario.shared Scenario.collectionsImported
    = Ok ([] ++ [(item, Scenario.shared)]) st' ∧
    warnings st' = warnings Scenario.collectionsImported ∧
    calls st' = calls Scenario.collectionsImported ++ [LoadCall Scenario.shared] ∧
    (∀ p, Props.get p (pathsToGlobKey st')
          = Props.get p (pathsToGlobKey Scenario.collectionsImported)) ∧
    represents (heap st') item
      (JObj [("posts", JObj [("path", JStr "content/posts")])]).
Proof.
  apply (own_path_is_loaded_again Scenario.sharedOptions
           Scenario.collectionsImported collections_config_from_glob None []
           Scenario.shared);
    vm_compute; reflexivity.
Defined.

Lemma editables_key_owns_nothing_witness :
  (∀ p, Props.get p (result_pathsToGlobKey (Fixture.returned Fixture.twoKeysRun))
        ≠ Some _editables_from_glob) ∧
  paths_of _editables_from_glob
    (result_globKeyToPaths (Fixture.returned Fixture.twoKeysRun)) = [].
Proof.
  apply (editables_key_owns_nothing Scenario.byCodeUnit 3
           (Scenario.parsed Scenario.twoKeysConfig).2
           (Scenario.root Scenario.twoKeysConfig) Scenario.sharedOptions
           (Fixture.returned Fixture.twoKeysRun) (final Fixture.twoKeysRun)).
  vm_compute. reflexivity.
Defined.

Lemma files_are_loaded_in_sorted_order_witness :
  load_paths
    (calls (final (CL.importFromGlobKey Scenario.byCodeUnit
                     Scenario.inputsOptions (VRef 1) _inputs_from_glob
                     "_inputs" false None
                     (Scenario.started Scenario.inputsConfig))))
  = load_paths (calls (Scenario.started Scenario.inputsConfig))
    ++ CL.sort Scenario.byCodeUnit
         ["/.cloudcannon/inputs/seo.yml"; "/.cloudcannon/inputs/blog.yml"].
Proof.
  apply (files_are_loaded_in_sorted_order Scenario.byCodeUnit
           Scenario.inputsOptions (Scenario.started Scenario.inputsConfig)
           (VRef 1) _inputs_from_glob "_inputs" false (VRef 0)
           [VStr "/.cloudcannon/inputs/*.yml"]);
    try reflexivity.
  by repeat constructor.
Defined.

Lemma sort_is_canonical_witness :
  CL.sort Fixture.byCode ["b"; "a"] ≡ₚ ["b"; "a"] ∧
  StronglySorted (before Fixture.byCode) (CL.sort Fixture.byCode ["b"; "a"]) ∧
  ∀ files', files' ≡ₚ ["b"; "a"] →
            CL.sort Fixture.byCode files' = CL.sort Fixture.byCode ["b"; "a"].
Proof.
  apply (sort_is_canonical Fixture.byCode).
  - intros a b. unfold before, Fixture.byCode. lia.
  - intros a b c. unfold before, Fixture.byCode. lia.
  - intros a b. unfold before, Fixture.byCode. intros H1 H2.
    apply (inj countable.encode). lia.
Defined.

Lemma cycle_chains_are_loaded_witness :
  Scenario.hero ∈ [Scenario.hero] ∧
  ∀ p, p ∈ [Scenario.hero] →
       is_Some (Props.get p (result_pathsToGlobKey
                               (Fixture.returned Fixture.cycleRun))) ∧
       LoadCall p ∈ calls (final Fixture.cycleRun).
Proof.
  refine (cycle_chains_are_loaded Scenario.byCodeUnit 3
            (Scenario.parsed Scenario.blocksConfig).2
            (Scenario.root Scenario.blocksConfig) Scenario.nestedHeroOptions
            (Fixture.returned Fixture.cycleRun) (final Fixture.cycleRun)
            _
            {| cycle_path := Scenario.hero; chain := [Scenario.hero] |} _).
  - vm_compute. reflexivity.
  - vm_compute. by left.
Defined.
